(** * QtImageStackViewer: frame addressing, lazy frame resolution and playback

    Shallow embedding of [QtImageStackViewer.py].  The widget is a record of
    its Python attributes; every method is a function in a state-and-error
    monad that keeps the state reached when an exception is raised (Python
    attribute writes done before a [raise] stay done).

    The collaborators the widget talks to are modelled by what the code
    relies on:
    - [QScrollBar] follows Qt's [QAbstractSlider]: a new bar has range
      [0..99] and value 0, [setRange] stores [max(min,max)] as maximum and
      re-bounds the value, [setValue] bounds the value into the range and
      emits [valueChanged] only when the value changes.  Every bar of the
      widget is connected to [updateFrame], so an emitted [valueChanged]
      runs [updateFrame] synchronously; an exception raised there ends the
      run (PyQt >= 5.5 aborts on an exception escaping a slot).
      The arguments of [setValue] and [setRange] are taken to fit the C
      [int] the binding converts them to.
    - a PIL image file object exposes its bands, frame count, size, a seek
      position and a decoder; [seek] outside [0, n_frames) raises
      [EOFError]; [toqimage] raises [ValueError] on an unsupported mode.
      [Image.open] reads the header only, so a file object can also lack
      [n_frames], fail to load its pixel data, or have no [ImageQt] to
      convert it: such objects are a source of their own, [PILDefective].
    - calls made on the PIL image and on the image viewer are recorded, in
      order, in the [trace] field.
    - the Qt binding is part of the state: the array branch of
      [updateViewer] creates its scrollbars with [Qt.Horizontal], which
      PyQt6 does not have, the PIL branch with [Qt.Orientation.Horizontal],
      which both bindings have.
    The label text written by [updateLabel] is not part of the model. *)

From Stdlib Require Import String.
From Stdlib Require Import List ZArith Lia Bool QArith_base.
Import ListNotations.
Open Scope Z_scope.

(** ** Python values and exceptions *)

Inductive exn : Type :=
| TypeError | IndexError | EOFError | ValueError | NameError | OSError
| AttributeError | ImportError.

Inductive result (A : Type) : Type :=
| Ok (a : A)
| Err (e : exn).
Arguments Ok {A} a.
Arguments Err {A} e.

(** [seq[i]] on a sequence of length [n]: negative indexes count from the
    end, anything outside [-n, n) is an [IndexError]. *)
Definition py_index (n : nat) (i : Z) : option nat :=
  if (0 <=? i) && (i <? Z.of_nat n) then Some (Z.to_nat i)
  else if (- Z.of_nat n <=? i) && (i <? 0) then Some (Z.to_nat (Z.of_nat n + i))
  else None.

Definition py_getitem {A : Type} (l : list A) (i : Z) : result A :=
  match py_index (length l) i with
  | Some k => match nth_error l k with
              | Some x => Ok x
              | None => Err IndexError
              end
  | None => Err IndexError
  end.

(** What a Python expression over index lists can evaluate to here. *)
Inductive pyobj : Type :=
| PyNone
| PyList (l : list (list Z)).

(** [l.extend(ext)] mutates [l] in place and returns [None]: the first
    component is the receiver afterwards, the second the call's value. *)
Definition list_extend (l ext : list (list Z)) : list (list Z) * pyobj :=
  (l ++ ext, PyNone).

(** [f( *o )]: star-unpacking needs an iterable. *)
Definition star_args (o : pyobj) : result (list (list Z)) :=
  match o with
  | PyNone => Err TypeError
  | PyList l => Ok l
  end.

(** ** NumPy arrays: a shape and the elements in row-major order *)

Record ndarray : Type := mk_ndarray {
  shape : list nat;
  data : list Z
}.

Definition ndim (a : ndarray) : nat := length (shape a).

Definition prod (sh : list nat) : nat := fold_right Nat.mul 1%nat sh.

Definition arange (n : nat) : list Z := map Z.of_nat (seq 0 n).

Fixpoint normalize_all (ixs : list (list Z)) (sh : list nat)
  : option (list (list nat)) :=
  match ixs, sh with
  | [], _ => Some []
  | _ :: _, [] => None
  | ix :: ixs', n :: sh' =>
      match fold_right (fun i acc =>
                          match py_index n i, acc with
                          | Some k, Some ks => Some (k :: ks)
                          | _, _ => None
                          end) (Some []) ix,
            normalize_all ixs' sh' with
      | Some ks, Some rest => Some (ks :: rest)
      | _, _ => None
      end
  end.

(** Elements picked by an open mesh: one index list per leading axis, the
    remaining axes taken whole.  [base] is the row-major offset so far. *)
Fixpoint select (d : list Z) (sh : list nat) (ixs : list (list nat))
  (base : nat) : list Z :=
  match ixs, sh with
  | [], _ => firstn (prod sh) (skipn (base * prod sh) d)
  | ix :: ixs', n :: sh' =>
      flat_map (fun i => select d sh' ixs' (base * n + i)) ix
  | _ :: _, [] => []
  end.

(** [a[np.ix_( *ixs )]] *)
Definition ndarray_getitem_ix (a : ndarray) (ixs : list (list Z))
  : result ndarray :=
  match normalize_all ixs (shape a) with
  | Some nixs =>
      Ok {| shape := map (@length nat) nixs ++ skipn (length nixs) (shape a);
            data := select (data a) (shape a) nixs 0 |}
  | None => Err IndexError
  end.

(** [a[:, :, k]] *)
Definition ndarray_getitem_axis2 (a : ndarray) (k : Z) : result ndarray :=
  match shape a with
  | h :: w :: ch :: rest =>
      match py_index ch k with
      | Some j =>
          let r := prod rest in
          Ok {| shape := h :: w :: rest;
                data := flat_map
                          (fun p => firstn r (skipn ((p * ch + j) * r) (data a)))
                          (seq 0 (h * w)) |}
      | None => Err IndexError
      end
  | _ => Err IndexError
  end.

(** *** Assignment to a slice of the third axis *)

(** [np.zeros(sh)] *)
Definition np_zeros (sh : list nat) : ndarray :=
  {| shape := sh; data := repeat 0 (prod sh) |}.

(** Row-major position of a multi-index, and the multi-index of a position. *)
Fixpoint ravel (sh idx : list nat) : nat :=
  match sh, idx with
  | _ :: sh', i :: idx' => (i * prod sh' + ravel sh' idx')%nat
  | _, _ => 0%nat
  end.

Fixpoint unravel (sh : list nat) (p : nat) : list nat :=
  match sh with
  | [] => []
  | _ :: sh' => (p / prod sh')%nat :: unravel sh' (p mod prod sh')%nat
  end.

(** NumPy's broadcasting rule for an assignment, on the shapes read from
    the last dimension backwards: each dimension of the value equals that
    of the target or is 1, and dimensions the target does not have are 1. *)
Fixpoint broadcastable_rev (v t : list nat) : bool :=
  match v, t with
  | [], _ => true
  | d :: v', [] => (d =? 1)%nat && broadcastable_rev v' []
  | d :: v', e :: t' => ((d =? e) || (d =? 1))%nat && broadcastable_rev v' t'
  end.

Definition broadcastable (v t : list nat) : bool :=
  broadcastable_rev (rev v) (rev t).

(** The element of [v] that broadcasting puts at multi-index [tidx] of a
    target of shape [ts]. *)
Definition broadcast_get (v : ndarray) (ts tidx : list nat) : Z :=
  let vs := skipn (length (shape v) - length ts) (shape v) in
  let vidx := map (fun di => if (fst di =? 1)%nat then 0%nat else snd di)
                  (combine vs (skipn (length ts - length vs) tidx)) in
  nth (ravel vs vidx) (data v) 0.

(** Python's reading of the bounds of [lo:hi] on an axis of size [n]. *)
Definition slice_bound (n : nat) (x : Z) : nat :=
  Z.to_nat (Z.max 0 (Z.min (Z.of_nat n) (if x <? 0 then x + Z.of_nat n else x))).

(** [a[:, :, lo:hi] = v]; the array after the assignment. *)
Definition setitem_axis2_slice (a : ndarray) (lo hi : Z) (v : ndarray)
  : result ndarray :=
  match shape a with
  | h :: w :: c :: rest =>
      let b := slice_bound c lo in
      let e := slice_bound c hi in
      let ts := h :: w :: (e - b)%nat :: rest in
      if broadcastable (shape v) ts
      then Ok {| shape := shape a;
                 data := map (fun p =>
                                match unravel (shape a) p with
                                | y :: x :: k :: more =>
                                    if ((b <=? k) && (k <? e))%nat
                                    then broadcast_get v ts (y :: x :: (k - b)%nat :: more)
                                    else nth p (data a) 0
                                | _ => nth p (data a) 0
                                end)
                             (seq 0 (prod (shape a))) |}
      else Err ValueError
  | _ => Err IndexError
  end.

(** [a[:, :, i] = v]; the array after the assignment. *)
Definition setitem_axis2_index (a : ndarray) (i : Z) (v : ndarray)
  : result ndarray :=
  match shape a with
  | h :: w :: c :: rest =>
      match py_index c i with
      | Some j =>
          let ts := h :: w :: rest in
          if broadcastable (shape v) ts
          then Ok {| shape := shape a;
                     data := map (fun p =>
                                    match unravel (shape a) p with
                                    | y :: x :: k :: more =>
                                        if (k =? j)%nat
                                        then broadcast_get v ts (y :: x :: more)
                                        else nth p (data a) 0
                                    | _ => nth p (data a) 0
                                    end)
                                 (seq 0 (prod (shape a))) |}
          else Err ValueError
      | None => Err IndexError
      end
  | _ => Err IndexError
  end.

(** ** PIL image file objects *)

Record PILImage : Type := mk_PILImage {
  getbands : list string;
  n_frames : Z;
  height : nat;
  width : nat;
  (** decoder: frame, row, column, band *)
  pixel : nat -> nat -> nat -> nat -> Z;
  (** whether ImageQt supports the image mode *)
  toqimage_supported : bool;
  (** current seek position *)
  tell : Z
}.

Definition set_tell (frame : Z) (im : PILImage) : PILImage :=
  {| getbands := getbands im; n_frames := n_frames im;
     height := height im; width := width im; pixel := pixel im;
     toqimage_supported := toqimage_supported im; tell := frame |}.

Definition PIL_seek (im : PILImage) (frame : Z) : result PILImage :=
  if (0 <=? frame) && (frame <? n_frames im)
  then Ok (set_tell frame im)
  else Err EOFError.

(** Pixels of frame [f] with all bands, as [np.array(image)] lays them out:
    [(height, width)] for one band, [(height, width, bands)] otherwise. *)
Definition decode (im : PILImage) (f : nat) : ndarray :=
  let h := height im in
  let w := width im in
  let c := length (getbands im) in
  if (c =? 1)%nat
  then {| shape := [h; w];
          data := map (fun i => pixel im f (i / w) (i mod w) 0)%nat
                      (seq 0 (h * w)) |}
  else {| shape := [h; w; c];
          data := map (fun i => pixel im f (i / c / w) (i / c mod w) (i mod c))%nat
                      (seq 0 (h * w * c)) |}.

Definition np_array (im : PILImage) : ndarray := decode im (Z.to_nat (tell im)).

(** ** The widget *)

(** [Image.open] reads the header of a file only, so the object it returns
    can still fail in the widget.  [NoFrameCount]: the class of the object
    has no [n_frames] attribute (single-frame formats such as BMP), reading
    it raises [AttributeError].  [Truncated]: the pixel data cannot be
    loaded, [np.array] and the conversion of [toqimage] raise [OSError].
    [NoImageQt]: Pillow has no [ImageQt] for the Qt binding in use (Pillow 10
    and later with PyQt5), [toqimage] raises [ImportError]. *)
Inductive Defect : Type :=
| NoFrameCount
| Truncated
| NoImageQt.

(** What [_image] can hold.  [PIL im] is a file object that has [n_frames],
    whose frames load, and whose [toqimage] converts the frame or raises the
    [ValueError] of an unsupported mode; [PILDefective d im] is a file
    object like [im] but for the defect [d]. *)
Inductive ImageSource : Type :=
| NdArray (a : ndarray)
| PIL (im : PILImage)
| PILDefective (d : Defect) (im : PILImage).

(** The Qt binding the module imported: it tries PyQt6 first, then PyQt5. *)
Inductive QtBinding : Type :=
| PyQt6
| PyQt5.

Inductive Frame : Type :=
| ArrayFrame (a : ndarray)
| QImageFrame (a : ndarray).

Record QScrollBar : Type := mk_QScrollBar {
  minimum : Z;
  maximum : Z;
  value : Z
}.

Definition new_QScrollBar : QScrollBar :=
  {| minimum := 0; maximum := 99; value := 0 |}.

Definition bound (sb : QScrollBar) (v : Z) : Z :=
  Z.max (minimum sb) (Z.min (maximum sb) v).

Inductive Event : Type :=
| EvSeek (frame : Z)
| EvToQImage
| EvArray
| EvSetImage (fr : Frame)
| EvClearImage.

(** A file on disk: one [Image.open] opens as a sound file object, one
    whose header it accepts although the object has a defect, or one it
    rejects. *)
Inductive FileEntry : Type :=
| ImageFile (im : PILImage)
| OtherFile
| DefectiveImageFile (d : Defect) (im : PILImage).

Record Viewer : Type := mk_Viewer {
  _image : option ImageSource;
  _currentFrame : option Frame;
  _separateChannels : bool;
  _scrollbars : list QScrollBar;
  _wheelScrollsFrame : bool;
  _wheelZoomFactor : Q;
  _isPlaying : bool;
  (** [imageViewer.wheelZoomFactor] *)
  viewer_wheelZoomFactor : option Q;
  (** whether the module global [QApplication] is bound: it is imported
      under [if __name__ == '__main__'] only *)
  QApplication_bound : bool;
  (** pause requests handled by the successive [processEvents] calls *)
  pending : list bool;
  (** the file system, and the path the file dialog returns *)
  files : string -> option FileEntry;
  dialogAnswer : string;
  (** the Qt binding in use *)
  binding : QtBinding;
  trace : list Event
}.

Definition set_image (x : option ImageSource) (s : Viewer) : Viewer :=
  mk_Viewer x (_currentFrame s) (_separateChannels s) (_scrollbars s)
    (_wheelScrollsFrame s) (_wheelZoomFactor s) (_isPlaying s)
    (viewer_wheelZoomFactor s) (QApplication_bound s) (pending s) (files s)
    (dialogAnswer s) (binding s) (trace s).

Definition set_currentFrame (x : option Frame) (s : Viewer) : Viewer :=
  mk_Viewer (_image s) x (_separateChannels s) (_scrollbars s)
    (_wheelScrollsFrame s) (_wheelZoomFactor s) (_isPlaying s)
    (viewer_wheelZoomFactor s) (QApplication_bound s) (pending s) (files s)
    (dialogAnswer s) (binding s) (trace s).

Definition set_separateChannels (x : bool) (s : Viewer) : Viewer :=
  mk_Viewer (_image s) (_currentFrame s) x (_scrollbars s)
    (_wheelScrollsFrame s) (_wheelZoomFactor s) (_isPlaying s)
    (viewer_wheelZoomFactor s) (QApplication_bound s) (pending s) (files s)
    (dialogAnswer s) (binding s) (trace s).

Definition set_scrollbars (x : list QScrollBar) (s : Viewer) : Viewer :=
  mk_Viewer (_image s) (_currentFrame s) (_separateChannels s) x
    (_wheelScrollsFrame s) (_wheelZoomFactor s) (_isPlaying s)
    (viewer_wheelZoomFactor s) (QApplication_bound s) (pending s) (files s)
    (dialogAnswer s) (binding s) (trace s).

Definition set_wheelScrollsFrame (x : bool) (s : Viewer) : Viewer :=
  mk_Viewer (_image s) (_currentFrame s) (_separateChannels s) (_scrollbars s)
    x (_wheelZoomFactor s) (_isPlaying s)
    (viewer_wheelZoomFactor s) (QApplication_bound s) (pending s) (files s)
    (dialogAnswer s) (binding s) (trace s).

Definition set_wheelZoomFactor (x : Q) (s : Viewer) : Viewer :=
  mk_Viewer (_image s) (_currentFrame s) (_separateChannels s) (_scrollbars s)
    (_wheelScrollsFrame s) x (_isPlaying s)
    (viewer_wheelZoomFactor s) (QApplication_bound s) (pending s) (files s)
    (dialogAnswer s) (binding s) (trace s).

Definition set_isPlaying (x : bool) (s : Viewer) : Viewer :=
  mk_Viewer (_image s) (_currentFrame s) (_separateChannels s) (_scrollbars s)
    (_wheelScrollsFrame s) (_wheelZoomFactor s) x
    (viewer_wheelZoomFactor s) (QApplication_bound s) (pending s) (files s)
    (dialogAnswer s) (binding s) (trace s).

Definition set_viewer_wheelZoomFactor (x : option Q) (s : Viewer) : Viewer :=
  mk_Viewer (_image s) (_currentFrame s) (_separateChannels s) (_scrollbars s)
    (_wheelScrollsFrame s) (_wheelZoomFactor s) (_isPlaying s)
    x (QApplication_bound s) (pending s) (files s)
    (dialogAnswer s) (binding s) (trace s).

Definition set_pending (x : list bool) (s : Viewer) : Viewer :=
  mk_Viewer (_image s) (_currentFrame s) (_separateChannels s) (_scrollbars s)
    (_wheelScrollsFrame s) (_wheelZoomFactor s) (_isPlaying s)
    (viewer_wheelZoomFactor s) (QApplication_bound s) x (files s)
    (dialogAnswer s) (binding s) (trace s).

Definition log (ev : Event) (s : Viewer) : Viewer :=
  mk_Viewer (_image s) (_currentFrame s) (_separateChannels s) (_scrollbars s)
    (_wheelScrollsFrame s) (_wheelZoomFactor s) (_isPlaying s)
    (viewer_wheelZoomFactor s) (QApplication_bound s) (pending s) (files s)
    (dialogAnswer s) (binding s) (trace s ++ [ev]).

(** ** The monad of widget methods *)

Definition M (A : Type) : Type := Viewer -> result A * Viewer.

Definition ret {A : Type} (a : A) : M A := fun s => (Ok a, s).

Definition bind {A B : Type} (m : M A) (k : A -> M B) : M B :=
  fun s => match m s with
           | (Ok a, s') => k a s'
           | (Err e, s') => (Err e, s')
           end.

Definition raise {A : Type} (e : exn) : M A := fun s => (Err e, s).

Definition get : M Viewer := fun s => (Ok s, s).

Definition modify (f : Viewer -> Viewer) : M unit := fun s => (Ok tt, f s).

Definition lift {A : Type} (r : result A) : M A := fun s => (r, s).

Definition same_exn (e e' : exn) : bool :=
  match e, e' with
  | TypeError, TypeError | IndexError, IndexError | EOFError, EOFError
  | ValueError, ValueError | NameError, NameError | OSError, OSError
  | AttributeError, AttributeError | ImportError, ImportError => true
  | _, _ => false
  end.

(** [try: body  except e: handler] *)
Definition try_except {A : Type} (body : M A) (e : exn) (handler : M A) : M A :=
  fun s => match body s with
           | (Ok a, s') => (Ok a, s')
           | (Err e', s') => if same_exn e e' then handler s' else (Err e', s')
           end.

Declare Scope py_scope.
Delimit Scope py_scope with py.
Notation "x <- m ;; k" := (bind m (fun x => k))
  (at level 61, m at next level, right associativity) : py_scope.
Notation "m ;; k" := (bind m (fun _ => k))
  (at level 61, right associativity) : py_scope.
Open Scope py_scope.

Fixpoint for_each {A : Type} (l : list A) (body : A -> M unit) : M unit :=
  match l with
  | [] => ret tt
  | x :: rest => body x ;; for_each rest body
  end.

(** ** Collaborator calls *)

Definition imageViewer_setImage (fr : Frame) : M unit := modify (log (EvSetImage fr)).

Definition imageViewer_clearImage : M unit := modify (log EvClearImage).

(** [self._image.seek(frame)] on the stored PIL object *)
Definition image_seek (frame : Z) : M unit :=
  fun s => match _image s with
           | Some (PIL im) =>
               match PIL_seek im frame with
               | Ok im' => (Ok tt, log (EvSeek frame) (set_image (Some (PIL im')) s))
               | Err e => (Err e, s)
               end
           | Some (PILDefective d im) =>
               match PIL_seek im frame with
               | Ok im' =>
                   (Ok tt, log (EvSeek frame) (set_image (Some (PILDefective d im')) s))
               | Err e => (Err e, s)
               end
           | _ => (Err TypeError, s)
           end.

(** [np.array(self._image)]: decodes the frame at the seek position *)
Definition image_array : M ndarray :=
  fun s => match _image s with
           | Some (PILDefective Truncated _) => (Err OSError, s)
           | Some (PIL im) | Some (PILDefective _ im) =>
               (Ok (np_array im), log EvArray s)
           | _ => (Err TypeError, s)
           end.

(** [QImage(self._image.toqimage())].  [Image.toqimage] first checks that
    [ImageQt] has a Qt binding, [ImageQt] then checks the mode, and only
    then loads the pixel data. *)
Definition image_toqimage : M ndarray :=
  fun s => match _image s with
           | Some (PILDefective NoImageQt _) => (Err ImportError, s)
           | Some (PILDefective Truncated im) =>
               (Err (if toqimage_supported im then OSError else ValueError), s)
           | Some (PIL im) | Some (PILDefective _ im) =>
               if toqimage_supported im
               then (Ok (np_array im), log EvToQImage s)
               else (Err ValueError, s)
           | _ => (Err TypeError, s)
           end.

(** ** Methods of [QtImageStackViewer] *)

Definition currentIndexes : M (list Z) :=
  fun s => (Ok (map value (_scrollbars s)), s).

Definition updateLabel : M unit :=
  s <- get ;;
  match _image s with
  | None => ret tt
  | Some (NdArray a) =>
      _ <- lift (py_getitem (shape a) 1) ;;
      _ <- lift (py_getitem (shape a) 0) ;;
      ret tt
  | Some (PIL _) | Some (PILDefective _ _) => ret tt
  end.

Definition updateFrame : M unit :=
  s <- get ;;
  match _image s with
  | None => ret tt
  | Some (NdArray a) =>
      r <- lift (py_getitem (shape a) 0) ;;
      c <- lift (py_getitem (shape a) 1) ;;
      let rows := arange r in
      let cols := arange c in
      idx <- currentIndexes ;;
      let indexes := snd (list_extend [rows; cols] (map (fun i => [i]) idx)) in
      args <- lift (star_args indexes) ;;
      fr <- lift (ndarray_getitem_ix a args) ;;
      modify (set_currentFrame (Some (ArrayFrame fr))) ;;
      imageViewer_setImage (ArrayFrame fr) ;;
      updateLabel
  | Some (PILDefective NoFrameCount _) => raise AttributeError
  | Some (PIL im) | Some (PILDefective _ im) =>
      let n_channels := Z.of_nat (length (getbands im)) in
      let n_frames := n_frames im in
      indexes <- currentIndexes ;;
      (if 1 <? n_frames
       then frameIndex <- lift (py_getitem indexes (-1)) ;;
            image_seek frameIndex
       else ret tt) ;;
      (if (1 <? n_channels) && _separateChannels s
       then channelIndex <- lift (py_getitem indexes 0) ;;
            arr <- image_array ;;
            fr <- lift (ndarray_getitem_axis2 arr channelIndex) ;;
            modify (set_currentFrame (Some (ArrayFrame fr))) ;;
            imageViewer_setImage (ArrayFrame fr)
       else try_except
              (q <- image_toqimage ;;
               modify (set_currentFrame (Some (QImageFrame q))) ;;
               imageViewer_setImage (QImageFrame q))
              ValueError
              (arr <- image_array ;;
               modify (set_currentFrame (Some (ArrayFrame arr))) ;;
               imageViewer_setImage (ArrayFrame arr))) ;;
      updateLabel
  end.

(** [self._scrollbars[i]]: the position [i] designates *)
Definition scrollbar_at (i : Z) : M nat :=
  fun s => match py_index (length (_scrollbars s)) i with
           | Some k => (Ok k, s)
           | None => (Err IndexError, s)
           end.

Fixpoint list_set {A : Type} (l : list A) (k : nat) (x : A) : list A :=
  match l, k with
  | [], _ => []
  | _ :: t, O => x :: t
  | h :: t, S k' => h :: list_set t k' x
  end.

Definition get_scrollbar (k : nat) : M QScrollBar :=
  fun s => match nth_error (_scrollbars s) k with
           | Some sb => (Ok sb, s)
           | None => (Err IndexError, s)
           end.

Definition put_scrollbar (k : nat) (sb : QScrollBar) : M unit :=
  modify (fun s => set_scrollbars (list_set (_scrollbars s) k sb) s).

(** [QScrollBar.setValue], for an argument that fits the C [int] the
    binding converts it to; [valueChanged] is connected to [updateFrame]. *)
Definition scrollbar_setValue (k : nat) (v : Z) : M unit :=
  sb <- get_scrollbar k ;;
  let v' := bound sb v in
  if value sb =? v' then ret tt
  else put_scrollbar k {| minimum := minimum sb; maximum := maximum sb; value := v' |} ;;
       updateFrame.

(** [QScrollBar.setRange] *)
Definition scrollbar_setRange (k : nat) (mn mx : Z) : M unit :=
  sb <- get_scrollbar k ;;
  let mx' := Z.max mn mx in
  if (minimum sb =? mn) && (maximum sb =? mx') then ret tt
  else put_scrollbar k {| minimum := mn; maximum := mx'; value := value sb |} ;;
       scrollbar_setValue k (value sb).

Definition setCurrentIndexes (indexes : list Z) : M unit :=
  for_each (combine (seq 0 (length indexes)) indexes)
    (fun '(i, index) =>
       k <- scrollbar_at (Z.of_nat i) ;;
       scrollbar_setValue k index) ;;
  updateFrame.

(** Deleting the bars past [n] and appending new ones up to [n]. *)
Definition resize_scrollbars (n : nat) : M unit :=
  modify (fun s =>
            let l := _scrollbars s in
            let l1 := if (n <? length l)%nat then firstn n l else l in
            set_scrollbars (l1 ++ repeat new_QScrollBar (n - length l1)) s).

(** [Qt.Horizontal], which the array branch of [updateViewer] passes to a
    new [QScrollBar]: PyQt6 has the scoped [Qt.Orientation.Horizontal]
    only. *)
Definition Qt_Horizontal : M unit :=
  s <- get ;;
  match binding s with
  | PyQt6 => raise AttributeError
  | PyQt5 => ret tt
  end.

(** [updateViewer] up to and including the set-up of the scrollbars *)
Definition updateViewer_scrollbars (src : ImageSource) : M unit :=
  match src with
  | NdArray a =>
      let n_scrollbars := Z.to_nat (Z.max 0 (Z.of_nat (ndim a) - 2)) in
      s <- get ;;
      (if (length (_scrollbars s) <? n_scrollbars)%nat then Qt_Horizontal
       else ret tt) ;;
      resize_scrollbars n_scrollbars ;;
      for_each (seq 0 n_scrollbars)
        (fun i =>
           k <- scrollbar_at (Z.of_nat i) ;;
           n <- lift (py_getitem (shape a) (Z.of_nat i + 2)) ;;
           scrollbar_setRange k 0 (Z.of_nat n) ;;
           scrollbar_setValue k 0)
  | PILDefective NoFrameCount _ => raise AttributeError
  | PIL im | PILDefective _ im =>
      s <- get ;;
      let n_channels := Z.of_nat (length (getbands im)) in
      let n_frames := n_frames im in
      let n1 := if (1 <? n_channels) && _separateChannels s then 1%nat else 0%nat in
      let n_scrollbars := if 1 <? n_frames then (n1 + 1)%nat else n1 in
      resize_scrollbars n_scrollbars ;;
      i <- (if (1 <? n_channels) && _separateChannels s
            then k <- scrollbar_at 0 ;;
                 scrollbar_setRange k 0 (n_channels - 1) ;;
                 scrollbar_setValue k 0 ;;
                 ret 1
            else ret 0) ;;
      (if 1 <? n_frames
       then k <- scrollbar_at i ;;
            scrollbar_setRange k 0 (n_frames - 1) ;;
            scrollbar_setValue k 0
       else ret tt)
  end.

Definition updateViewer : M unit :=
  s <- get ;;
  match _image s with
  | None =>
      imageViewer_clearImage ;;
      modify (set_scrollbars [])
  | Some src =>
      updateViewer_scrollbars src ;;
      s' <- get ;;
      (if (0 <? Z.of_nat (length (_scrollbars s'))) && _wheelScrollsFrame s'
       then modify (set_viewer_wheelZoomFactor None)
       else modify (set_viewer_wheelZoomFactor (Some (_wheelZoomFactor s')))) ;;
      updateFrame
  end.

Definition setImage (im : option ImageSource) : M unit :=
  modify (set_image im) ;;
  updateViewer.

Definition setSeparateChannels (tf : bool) : M unit :=
  modify (set_separateChannels tf) ;;
  updateViewer.

Definition setWheelScrollsFrame (tf : bool) : M unit :=
  modify (set_wheelScrollsFrame tf) ;;
  if tf then modify (set_viewer_wheelZoomFactor (Some (1 # 1)%Q))
  else s <- get ;; modify (set_viewer_wheelZoomFactor (Some (_wheelZoomFactor s))).

Definition setWheelZoomFactor (zoomFactor : Q) : M unit :=
  modify (set_wheelZoomFactor zoomFactor) ;;
  s <- get ;;
  if negb (_wheelScrollsFrame s)
  then modify (set_viewer_wheelZoomFactor (Some zoomFactor))
  else ret tt.

(** [os.path.isfile] and [Image.open] over the modelled file system *)
Definition os_path_isfile (p : string) : M bool :=
  fun s => (Ok (match files s p with Some _ => true | None => false end), s).

Definition Image_open (p : string) : M ImageSource :=
  fun s => match files s p with
           | Some (ImageFile im) => (Ok (PIL im), s)
           | Some (DefectiveImageFile d im) => (Ok (PILDefective d im), s)
           | _ => (Err OSError, s)
           end.

Definition getOpenFileName : M string := fun s => (Ok (dialogAnswer s), s).

Definition open (filepath : option string) : M unit :=
  path <- match filepath with
          | None => getOpenFileName
          | Some p => ret p
          end ;;
  isf <- os_path_isfile path ;;
  if negb (String.length path =? 0)%nat && isf
  then im <- Image_open path ;; setImage (Some im)
  else ret tt.

(** [angleDelta().y()] of a wheel event is all the widget reads; the base
    class handler [QWidget.wheelEvent] ignores the event. *)
Definition wheelEvent (angleDelta_y : Z) : M unit :=
  s <- get ;;
  if (length (_scrollbars s) =? 0)%nat then ret tt
  else
    k <- scrollbar_at (-1) ;;
    sb <- get_scrollbar k ;;
    let n_frames := maximum sb + 1 in
    if _wheelScrollsFrame s && (1 <? n_frames)
    then
      let i := value sb in
      if angleDelta_y <? 0
      then (if i <? n_frames - 1
            then scrollbar_setValue k (i + 1) ;; updateFrame
            else ret tt)
      else (if 0 <? i
            then scrollbar_setValue k (i - 1) ;; updateFrame
            else ret tt)
    else ret tt.

Definition pause : M unit := modify (set_isPlaying false).

(** [QApplication.processEvents()]: a [NameError] unless the module was run
    as a script; otherwise the next batch of pending requests is handled
    (pause requests are the only ones modelled). *)
Definition processEvents : M unit :=
  s <- get ;;
  if QApplication_bound s
  then match pending s with
       | [] => ret tt
       | p :: rest =>
           modify (set_pending rest) ;;
           if p then pause else ret tt
       end
  else raise NameError.

Definition range (first stop : Z) : list Z :=
  map (fun k => first + Z.of_nat k) (seq 0 (Z.to_nat (stop - first))).

Fixpoint play_loop (todo : list Z) : M unit :=
  match todo with
  | [] => ret tt
  | i :: rest =>
      k <- scrollbar_at (-1) ;;
      scrollbar_setValue k i ;;
      updateFrame ;;
      processEvents ;;
      s <- get ;;
      if negb (_isPlaying s) then ret tt
      else play_loop rest
  end.

Definition play : M unit :=
  s <- get ;;
  if (length (_scrollbars s) =? 0)%nat then ret tt
  else
    modify (set_isPlaying true) ;;
    k <- scrollbar_at (-1) ;;
    sb <- get_scrollbar k ;;
    let first := value sb in
    let last := maximum sb in
    play_loop (range first (last + 1)) ;;
    modify (set_isPlaying false).

(** The loop of [loadData] over the frames after the first; [data] is the
    array being filled. *)
Fixpoint loadData_loop (n_channels : Z) (todo : list Z) (data : ndarray)
  : M ndarray :=
  match todo with
  | [] => ret data
  | i :: rest =>
      image_seek i ;;
      fr <- image_array ;;
      data' <- lift (if n_channels =? 1
                     then setitem_axis2_index data i fr
                     else setitem_axis2_slice data (i * n_channels)
                            ((i + 1) * n_channels) fr) ;;
      loadData_loop n_channels rest data'
  end.

(** [loadData] with an image in place; the value is [None] when the method
    falls off its end. *)
Definition loadData_from (src : ImageSource) : M (option ndarray) :=
  match src with
  | NdArray a => ret (Some a)
  | PILDefective NoFrameCount _ => raise AttributeError
  | PIL im | PILDefective _ im =>
      let n_channels := Z.of_nat (length (getbands im)) in
      let n_frames := n_frames im in
      if n_frames =? 1
      then a <- image_array ;; ret (Some a)
      else if 1 <? n_frames
      then
        image_seek 0 ;;
        firstFrame <- image_array ;;
        let data :=
          if n_channels =? 1
          then np_zeros [height im; width im; Z.to_nat n_frames]
          else np_zeros [height im; width im; length (getbands im);
                         Z.to_nat n_frames] in
        data <- lift (setitem_axis2_slice data 0 n_channels firstFrame) ;;
        data <- loadData_loop n_channels (range 1 n_frames) data ;;
        ret (Some data)
      else ret None
  end.

(** How a call of [loadData] ends; [RaisedAttributeError] is the
    [AttributeError] of [None.getbands()] when there is no image. *)
Inductive load_outcome : Type :=
| Loaded (data : option ndarray)
| Raised (e : exn)
| RaisedAttributeError.

Definition loadData (s : Viewer) : load_outcome * Viewer :=
  match _image s with
  | None => (RaisedAttributeError, s)
  | Some src =>
      match loadData_from src s with
      | (Ok data, s') => (Loaded data, s')
      | (Err e, s') => (Raised e, s')
      end
  end.

(** [QtImageStackViewer(image)] in a given environment; [qt] is the binding
    the module imported and [zoom0] the zoom factor the [QtImageViewer]
    constructor starts with. *)
Definition init_state (qt : QtBinding) (zoom0 : option Q) (bound_app : bool)
  (fs : string -> option FileEntry)
  (answer : string) (reqs : list bool) (image : option ImageSource) : Viewer :=
  {| _image := image; _currentFrame := None; _separateChannels := false;
     _scrollbars := []; _wheelScrollsFrame := true;
     _wheelZoomFactor := (5 # 4)%Q; _isPlaying := false;
     viewer_wheelZoomFactor := zoom0;
     QApplication_bound := bound_app; pending := reqs; files := fs;
     dialogAnswer := answer; binding := qt; trace := [] |}.

Definition QtImageStackViewer_init (qt : QtBinding) (zoom0 : option Q)
  (bound_app : bool) (fs : string -> option FileEntry)
  (answer : string) (reqs : list bool) (image : option ImageSource)
  : result unit * Viewer :=
  updateViewer (init_state qt zoom0 bound_app fs answer reqs image).

(** * Properties *)

(** ** Statement vocabulary *)

(** *** Axes and frames of a PIL image *)

(** The two conditions [updateViewer] and [updateFrame] branch on. *)
Definition channel_axis (im : PILImage) (sep : bool) : bool :=
  (1 <? Z.of_nat (length (getbands im))) && sep.

Definition frame_axis (im : PILImage) : bool := 1 <? n_frames im.

(** Band [b] of frame [f] as a [(height, width)] array. *)
Definition channel_plane (im : PILImage) (f b : nat) : ndarray :=
  {| shape := [height im; width im];
     data := map (fun p => pixel im f (p / width im) (p mod width im) b)%nat
                 (seq 0 (height im * width im)) |}.

(** The [(minimum, maximum)] pairs [updateViewer] gives the bars of a PIL
    image. *)
Definition lazy_ranges (im : PILImage) (sep : bool) : list (Z * Z) :=
  (if channel_axis im sep
   then [(0, Z.of_nat (length (getbands im)) - 1)] else []) ++
  (if frame_axis im then [(0, n_frames im - 1)] else []).

Definition sb_range (sb : QScrollBar) : Z * Z := (minimum sb, maximum sb).

Definition in_range (sb : QScrollBar) : Prop :=
  minimum sb <= value sb <= maximum sb.

Definition axis_size (sb : QScrollBar) : Z := maximum sb + 1.

(** The seek position of the stored PIL object. *)
Definition current_tell (s : Viewer) : Z :=
  match _image s with
  | Some (PIL im) | Some (PILDefective _ im) => tell im
  | _ => 0
  end.

(** The widget holds the PIL object [im], at whatever seek position. *)
Definition shows (im : PILImage) (s : Viewer) : Prop :=
  _image s = Some (PIL (set_tell (current_tell s) im)).

Definition indexes_of (s : Viewer) : list Z := map value (_scrollbars s).

(** The index vector is usable by [updateFrame]: the last entry is a frame
    of the file when there is a frame axis, the first a band when there is
    a channel axis. *)
Record resolvable (im : PILImage) (s : Viewer) : Prop := {
  rs_image : shows im s;
  rs_frame : frame_axis im = true ->
             (_scrollbars s <> []) /\ (0 <= last (indexes_of s) 0 < n_frames im);
  rs_chan : channel_axis im (_separateChannels s) = true ->
            (_scrollbars s <> []) /\
            (0 <= hd 0 (indexes_of s) < Z.of_nat (length (getbands im)))
}.

(** A widget showing [im] whose bars match the axes of [im]. *)
Record lazy_ok (im : PILImage) (s : Viewer) : Prop := {
  lo_image : shows im s;
  lo_bars : map sb_range (_scrollbars s) = lazy_ranges im (_separateChannels s);
  lo_vals : Forall in_range (_scrollbars s)
}.

(** What [updateFrame] resolves for a file at seek position [t] under index
    vector [idx]. *)
Definition pos_for (im : PILImage) (t : Z) (idx : list Z) : Z :=
  if frame_axis im then last idx 0 else t.

Definition frame_for (im : PILImage) (sep : bool) (t : Z) (idx : list Z) : Frame :=
  let f := Z.to_nat (pos_for im t idx) in
  if channel_axis im sep
  then ArrayFrame (channel_plane im f (Z.to_nat (hd 0 idx)))
  else if toqimage_supported im
       then QImageFrame (decode im f)
       else ArrayFrame (decode im f).

Definition resolved_pos (im : PILImage) (s : Viewer) : Z :=
  pos_for im (current_tell s) (indexes_of s).

Definition resolved_frame (im : PILImage) (s : Viewer) : Frame :=
  frame_for im (_separateChannels s) (current_tell s) (indexes_of s).

Definition resolve_events (im : PILImage) (s : Viewer) : list Event :=
  (if frame_axis im then [EvSeek (last (indexes_of s) 0)] else []) ++
  [if channel_axis im (_separateChannels s) then EvArray
   else if toqimage_supported im then EvToQImage else EvArray;
   EvSetImage (resolved_frame im s)].

Definition after_resolve (im : PILImage) (s : Viewer) : Viewer :=
  mk_Viewer (Some (PIL (set_tell (resolved_pos im s) im)))
    (Some (resolved_frame im s))
    (_separateChannels s) (_scrollbars s)
    (_wheelScrollsFrame s) (_wheelZoomFactor s) (_isPlaying s)
    (viewer_wheelZoomFactor s) (QApplication_bound s) (pending s) (files s)
    (dialogAnswer s) (binding s)
    (trace s ++ resolve_events im s).

(** Frames handed to the image viewer, in order. *)
Definition shown (tr : list Event) : list Frame :=
  flat_map (fun e => match e with EvSetImage fr => [fr] | _ => [] end) tr.

(** *** File objects with a defect *)

(** The exception with which the display of a frame of a file object with
    defect [d] ends, if it fails: a missing [n_frames] is read first, pixel
    data that does not load fails every decode, a missing [ImageQt] fails
    the conversion, which channel separation does not use. *)
Definition display_failure (d : Defect) (im : PILImage) (sep : bool) : option exn :=
  match d with
  | NoFrameCount => Some AttributeError
  | Truncated => Some OSError
  | NoImageQt => if channel_axis im sep then None else Some ImportError
  end.

(** The state in which [updateFrame] gives up on a defective file object:
    the seek to the frame of the index vector is all that happened. *)
Definition after_seek (d : Defect) (im : PILImage) (s : Viewer) : Viewer :=
  if frame_axis im
  then log (EvSeek (last (indexes_of s) 0))
         (set_image (Some (PILDefective d (set_tell (last (indexes_of s) 0) im))) s)
  else s.

(** *** Scrollbars *)

Definition with_value (v : Z) (sb : QScrollBar) : QScrollBar :=
  {| minimum := minimum sb; maximum := maximum sb; value := v |}.

(** The state right after bar [k] took value [v], before any slot ran. *)
Definition move_bar (k : nat) (v : Z) (s : Viewer) : Viewer :=
  match nth_error (_scrollbars s) k with
  | Some sb => set_scrollbars (list_set (_scrollbars s) k (with_value v sb)) s
  | None => s
  end.

(** The state [setValue] leaves on a widget showing a PIL image. *)
Definition setValue_lazy (im : PILImage) (k : nat) (v : Z) (s : Viewer) : Viewer :=
  match nth_error (_scrollbars s) k with
  | Some sb => if value sb =? bound sb v then s
               else after_resolve im (move_bar k (bound sb v) s)
  | None => s
  end.

Definition keeps_bars {A : Type} (m : M A) : Prop :=
  forall s, _scrollbars (snd (m s)) = _scrollbars s.

Definition axis_bars (im : PILImage) (sep : bool) : list QScrollBar :=
  map (fun r => mk_QScrollBar (fst r) (snd r) 0) (lazy_ranges im sep).

Definition dense_bar (n : nat) : QScrollBar :=
  {| minimum := 0; maximum := Z.of_nat n; value := 0 |}.

Definition resized (n : nat) (l : list QScrollBar) : list QScrollBar :=
  let l1 := if (n <? length l)%nat then firstn n l else l in
  l1 ++ repeat new_QScrollBar (n - length l1).

(** The arguments [QScrollBar.setValue] accepts: the binding converts them
    to a C [int], and raises [OverflowError] without touching the scrollbar
    for a Python integer that does not fit one. *)
Definition C_int (v : Z) : Prop := - 2 ^ 31 <= v <= 2 ^ 31 - 1.

(** Each bar takes the index given for it, bounded into its range. *)
Definition clamp_all (bars : list QScrollBar) (idx : list Z) : list QScrollBar :=
  map (fun p => with_value (bound (fst p) (snd p)) (fst p)) (combine bars idx).

(** *** Playback *)

(** Where the play loop stops: at the item during whose [processEvents] a
    pause request is handled, else at the last item. *)
Fixpoint stop_at (v : Z) (todo : list Z) (p : list bool) : Z :=
  match todo with
  | [] => v
  | i :: rest =>
      match p with
      | true :: _ => i
      | false :: p' => stop_at i rest p'
      | [] => stop_at i rest []
      end
  end.

(** Index values resolved by the play loop: once by the slot of
    [valueChanged] when the value changes, once by the explicit call. *)
Fixpoint visits (v : Z) (todo : list Z) (p : list bool) : list Z :=
  match todo with
  | [] => []
  | i :: rest =>
      (if v =? i then [i] else [i; i]) ++
      match p with
      | true :: _ => []
      | false :: p' => visits i rest p'
      | [] => visits i rest []
      end
  end.

(** Position of the first pause request among the pending batches. *)
Fixpoint first_pause (p : list bool) : option nat :=
  match p with
  | [] => None
  | true :: _ => Some 0%nat
  | false :: p' => option_map S (first_pause p')
  end.

(** Where playback from [first] on an axis with maximum [last] ends. *)
Definition play_stop (first last : Z) (p : list bool) : Z :=
  match first_pause p with
  | Some k => Z.min last (first + Z.of_nat k)
  | None => last
  end.

(** *** A widget in step with its image *)

(** The displayed frame and the seek position agree with the index vector. *)
Definition synced (im : PILImage) (s : Viewer) : Prop :=
  lazy_ok im s /\
  _currentFrame s = Some (resolved_frame im s) /\
  (frame_axis im = true -> current_tell s = last (indexes_of s) 0).

(** The frame for the all-zero index vector of a file at seek position [t]. *)
Definition first_frame (im : PILImage) (sep : bool) (t : Z) : Frame :=
  let f := if frame_axis im then 0%nat else Z.to_nat t in
  if channel_axis im sep then ArrayFrame (channel_plane im f 0)
  else if toqimage_supported im then QImageFrame (decode im f)
       else ArrayFrame (decode im f).

(** *** Relations kept by every step of a method *)

(** Whatever [m] returns or raises, the state it leaves is related to the one
    it started from. *)
Definition respects {A : Type} (R : Viewer -> Viewer -> Prop) (m : M A) : Prop :=
  forall s, R s (snd (m s)).

(** Every index stays within the range of its bar. *)
Definition keeps_in_range (s s' : Viewer) : Prop :=
  Forall in_range (_scrollbars s) -> Forall in_range (_scrollbars s').

(** Frames are only appended to what the image viewer was handed, and the
    current frame is the last one appended, or the old one if none was. *)
Definition displays (s s' : Viewer) : Prop :=
  exists l, shown (trace s') = shown (trace s) ++ l /\
            _currentFrame s' = last (map Some l) (_currentFrame s).

(** The same image up to the seek position of a file, which stays where it
    is when the file has a single frame. *)
Definition same_source (x y : option ImageSource) : Prop :=
  match x, y with
  | None, None => True
  | Some (NdArray a), Some (NdArray b) => a = b
  | Some (PIL im), Some (PIL im') =>
      im' = set_tell (tell im') im /\ (frame_axis im = false -> tell im' = tell im)
  | Some (PILDefective d im), Some (PILDefective d' im') =>
      d' = d /\
      im' = set_tell (tell im') im /\ (frame_axis im = false -> tell im' = tell im)
  | _, _ => False
  end.

(** Everything but the indexes, the seek position, the current frame, the
    playing flag, the pending requests and the trace is the same. *)
Definition same_setup (s s' : Viewer) : Prop :=
  map sb_range (_scrollbars s') = map sb_range (_scrollbars s) /\
  same_source (_image s) (_image s') /\
  _separateChannels s' = _separateChannels s /\
  _wheelScrollsFrame s' = _wheelScrollsFrame s /\
  _wheelZoomFactor s' = _wheelZoomFactor s /\
  viewer_wheelZoomFactor s' = viewer_wheelZoomFactor s /\
  QApplication_bound s' = QApplication_bound s /\
  files s' = files s /\ dialogAnswer s' = dialogAnswer s /\
  binding s' = binding s.

(** While the widget holds the array [a], a step displays nothing: the
    array stays, no frame is handed to the image viewer and the current
    frame is not replaced. *)
Definition undisplayed (a : ndarray) (s s' : Viewer) : Prop :=
  _image s = Some (NdArray a) ->
  _image s' = Some (NdArray a) /\
  shown (trace s') = shown (trace s) /\
  _currentFrame s' = _currentFrame s.

(** *** The stack [loadData] builds *)

(** The array of [loadData] for single-band 1x1 frames once the first
    [k] of [F] frames are copied in. *)
Definition filled (im : PILImage) (F k : nat) : ndarray :=
  {| shape := [1; 1; F]%nat;
     data := map (fun p => if (p <? k)%nat then pixel im p 0 0 0 else 0) (seq 0 F) |}.

(** *** Sample inputs *)

Definition no_files : string -> option FileEntry := fun _ => None.

Definition rgb_stack : PILImage :=
  {| getbands := ["R"; "G"; "B"]%string; n_frames := 10; height := 2; width := 3;
     pixel := fun f y x b => Z.of_nat (1000 * f + 100 * y + 10 * x + b);
     toqimage_supported := true; tell := 0 |}.

(** A single-band 16-bit stack as seen by a Pillow whose [ImageQt] does not
    convert that mode. *)
Definition gray16_stack : PILImage :=
  {| getbands := ["I;16"]%string; n_frames := 5; height := 2; width := 2;
     pixel := fun f y x b => Z.of_nat (100 * f + 10 * y + x);
     toqimage_supported := false; tell := 0 |}.

(** A 32-bit float stack: mode [F], which [ImageQt] does not convert. *)
Definition float_stack : PILImage :=
  {| getbands := ["F"]%string; n_frames := 4; height := 2; width := 2;
     pixel := fun f y x b => Z.of_nat (1000 * f + 10 * y + x);
     toqimage_supported := false; tell := 0 |}.

Definition rgb_single : PILImage :=
  {| getbands := ["R"; "G"; "B"]%string; n_frames := 1; height := 2; width := 2;
     pixel := fun f y x b => Z.of_nat (100 * y + 10 * x + b);
     toqimage_supported := true; tell := 0 |}.

(** A new widget without image, under PyQt5. *)
Definition fresh : Viewer :=
  snd (QtImageStackViewer_init PyQt5 None true no_files EmptyString [] None).

(** The widget after [setImage(im)] on a fresh widget. *)
Definition loaded (sep : bool) (im : PILImage) : Viewer :=
  snd ((setSeparateChannels sep ;; setImage (Some (PIL im))) fresh).


(** The widget after [setImage(a)] on a fresh widget; the call itself ends
    in the [TypeError] of its final [updateFrame]. *)
Definition loaded_array (a : ndarray) : Viewer :=
  snd (setImage (Some (NdArray a)) fresh).

Definition stack_100_100_5 (d : list Z) : ndarray :=
  {| shape := [100; 100; 5]%nat; data := d |}.

Definition paused_at_3 : Viewer :=
  set_pending [false; true] (snd (setCurrentIndexes [2] (loaded false gray16_stack))).

(** A single-band stack of 1x1 frames. *)
Definition gray_1x1 : PILImage :=
  {| getbands := ["L"]%string; n_frames := 3; height := 1; width := 1;
     pixel := fun f y x b => Z.of_nat (7 * f + 1);
     toqimage_supported := true; tell := 0 |}.

(** ** Lists *)

Lemma flat_map_singleton {A B : Type} (f : A -> list B) (g : A -> B) (l : list A) :
  (forall x, In x l -> f x = [g x]) -> flat_map f l = map g l.
Proof.
  induction l as [|x l IH]; intros H; simpl; [reflexivity|].
  rewrite (H x (or_introl eq_refl)), IH; [reflexivity|].
  intros y Hy. apply H. right. exact Hy.
Qed.

Lemma firstn1_skipn_map_seq {B : Type} (g : nat -> B) (n N : nat) :
  (n < N)%nat -> firstn 1 (skipn n (map g (seq 0 N))) = [g n].
Proof.
  intros Hn.
  replace N with (n + (N - n))%nat by lia.
  rewrite seq_app, map_app, skipn_app.
  rewrite length_map, length_seq, Nat.sub_diag.
  rewrite skipn_all2 by (rewrite length_map, length_seq; lia).
  simpl. destruct (N - n)%nat as [|m] eqn:E; [lia|]. reflexivity.
Qed.

Lemma nth_map_seq {B : Type} (g : nat -> B) (N i : nat) (d : B) :
  (i < N)%nat -> nth i (map g (seq 0 N)) d = g i.
Proof.
  intros H. rewrite (nth_indep _ d (g 0%nat)) by (rewrite length_map, length_seq; exact H).
  rewrite (map_nth g (seq 0 N) 0%nat i). rewrite seq_nth by exact H. reflexivity.
Qed.

Lemma nth_error_last {A : Type} (l : list A) (d : A) :
  l <> [] -> nth_error l (length l - 1) = Some (last l d).
Proof.
  induction l as [|x l IH]; intros H; [contradiction|].
  destruct l as [|y l]; [reflexivity|].
  replace (length (x :: y :: l) - 1)%nat with (S (length (y :: l) - 1)) by (simpl; lia).
  cbn [nth_error]. rewrite IH by discriminate. reflexivity.
Qed.

Lemma nth_error_last_app {A : Type} (pre : list A) (x : A) :
  nth_error (pre ++ [x]) (length pre) = Some x.
Proof. induction pre; simpl; auto. Qed.

Lemma nth_error_middle {A : Type} (pre rest : list A) (x : A) :
  nth_error (pre ++ x :: rest) (length pre) = Some x.
Proof. induction pre; simpl; auto. Qed.

Lemma map_neq_nil {A B : Type} (f : A -> B) (l : list A) : l <> [] -> map f l <> [].
Proof. destruct l; [contradiction|discriminate]. Qed.

Lemma map_list_set {A B : Type} (f : A -> B) (l : list A) (k : nat) (x : A) :
  map f (list_set l k x) = list_set (map f l) k (f x).
Proof.
  revert k. induction l as [|y l IH]; intros [|k]; simpl; try reflexivity.
  rewrite IH. reflexivity.
Qed.

Lemma list_set_same {A : Type} (l : list A) (k : nat) (x : A) :
  nth_error l k = Some x -> list_set l k x = l.
Proof.
  revert k. induction l as [|y l IH]; intros [|k] H; simpl in *; try discriminate.
  - injection H as ->. reflexivity.
  - rewrite IH by exact H. reflexivity.
Qed.

Lemma list_set_last {A : Type} (l : list A) (x y : A) :
  list_set (l ++ [x]) (length l) y = l ++ [y].
Proof. induction l as [|z l IH]; simpl; [reflexivity|]. rewrite IH. reflexivity. Qed.

Lemma list_set_middle {A : Type} (pre rest : list A) (x y : A) :
  list_set (pre ++ x :: rest) (length pre) y = pre ++ y :: rest.
Proof. induction pre as [|z pre IH]; simpl; [reflexivity|]. rewrite IH. reflexivity. Qed.

Lemma list_set_twice {A : Type} (l : list A) (k : nat) (x y : A) :
  list_set (list_set l k x) k y = list_set l k y.
Proof.
  revert k. induction l as [|z l IH]; intros [|k]; simpl; try reflexivity.
  rewrite IH. reflexivity.
Qed.

Lemma nth_error_list_set {A : Type} (l : list A) (k : nat) (x y : A) :
  nth_error l k = Some x -> nth_error (list_set l k y) k = Some y.
Proof.
  revert k. induction l as [|z l IH]; intros [|k] H; simpl in *; try discriminate; auto.
Qed.

Lemma Forall_list_set {A : Type} (P : A -> Prop) (l : list A) (k : nat) (x : A) :
  Forall P l -> P x -> Forall P (list_set l k x).
Proof.
  intros Hl Hx. revert k. induction Hl as [|y l Hy Hl IH]; intros [|k]; simpl;
    constructor; auto.
Qed.

Lemma skipn_cons_nth {A : Type} (l : list A) (k : nat) (x : A) (rest : list A) :
  skipn k l = x :: rest -> nth_error l k = Some x /\ skipn (S k) l = rest.
Proof.
  revert k. induction l as [|y l IH]; intros [|k] H; cbn in *; try discriminate.
  - injection H as -> ->. split; reflexivity.
  - apply IH. exact H.
Qed.

Lemma range_nil (a b : Z) : b <= a -> range a b = [].
Proof. intros H. unfold range. replace (Z.to_nat (b - a)) with 0%nat by lia. reflexivity. Qed.

Lemma range_cons (a b : Z) : a < b -> range a b = a :: range (a + 1) b.
Proof.
  intros H. unfold range.
  replace (Z.to_nat (b - a)) with (S (Z.to_nat (b - (a + 1)))) by lia.
  cbn [seq map]. f_equal; [lia|].
  rewrite <- seq_shift, map_map. apply map_ext. intros k. lia.
Qed.

Lemma range_bounds (a b : Z) : Forall (fun i => a <= i < b) (range a b).
Proof.
  unfold range. apply Forall_forall. intros i Hi.
  apply in_map_iff in Hi. destruct Hi as (k & <- & Hk). apply in_seq in Hk. lia.
Qed.

(** ** Python indexing *)

Lemma py_index_nonneg (n : nat) (i : Z) :
  0 <= i < Z.of_nat n -> py_index n i = Some (Z.to_nat i).
Proof.
  intros H. unfold py_index.
  destruct (Z.leb_spec 0 i); [|lia].
  destruct (Z.ltb_spec i (Z.of_nat n)); [reflexivity|lia].
Qed.

Lemma py_getitem_last {A : Type} (l : list A) (d : A) :
  l <> [] -> py_getitem l (-1) = Ok (last l d).
Proof.
  intros H. unfold py_getitem, py_index.
  assert (0 < length l)%nat by (destruct l; [contradiction|simpl; lia]).
  destruct (Z.leb_spec 0 (-1)); [lia|]. cbn [andb].
  destruct (Z.leb_spec (- Z.of_nat (length l)) (-1)); [|lia].
  destruct (Z.ltb_spec (-1) 0); [|lia]. cbn [andb].
  replace (Z.to_nat (Z.of_nat (length l) + -1)) with (length l - 1)%nat by lia.
  rewrite (nth_error_last l d H). reflexivity.
Qed.

Lemma py_getitem_first {A : Type} (l : list A) (d : A) :
  l <> [] -> py_getitem l 0 = Ok (hd d l).
Proof.
  intros H. destruct l as [|x l]; [contradiction|].
  unfold py_getitem, py_index. cbn [length].
  destruct (Z.leb_spec 0 0); [|lia].
  destruct (Z.ltb_spec 0 (Z.of_nat (S (length l)))); [|lia].
  reflexivity.
Qed.

Lemma py_getitem_nat {A : Type} (l : list A) (k : nat) (x : A) :
  nth_error l k = Some x -> py_getitem l (Z.of_nat k) = Ok x.
Proof.
  intros H. unfold py_getitem.
  assert (k < length l)%nat by (apply nth_error_Some; rewrite H; discriminate).
  rewrite py_index_nonneg by lia. rewrite Nat2Z.id, H. reflexivity.
Qed.

(** ** The monad *)

Lemma bind_ok {A B : Type} (m : M A) (k : A -> M B) (s s' : Viewer) (a : A) :
  m s = (Ok a, s') -> bind m k s = k a s'.
Proof. intros H. unfold bind. rewrite H. reflexivity. Qed.

Lemma bind_err {A B : Type} (m : M A) (k : A -> M B) (s s' : Viewer) (e : exn) :
  m s = (Err e, s') -> bind m k s = (Err e, s').
Proof. intros H. unfold bind. rewrite H. reflexivity. Qed.

Lemma bind_assoc_seq {A B C : Type} (m : M A) (n : M B) (c : M C) (s : Viewer) :
  bind m (fun _ => bind n (fun _ => c)) s = bind (bind m (fun _ => n)) (fun _ => c) s.
Proof. unfold bind. destruct (m s) as [[a|e] s1]; reflexivity. Qed.

Ltac proj_simpl :=
  cbn [_image _currentFrame _separateChannels _scrollbars
       _wheelScrollsFrame _wheelZoomFactor _isPlaying viewer_wheelZoomFactor
       QApplication_bound pending files dialogAnswer binding trace
       getbands n_frames height width pixel toqimage_supported tell set_tell
       same_exn].

(** ** Decoded frames *)

(** Slicing band [c] out of a decoded multi-band frame gives that band's
    plane. *)
Lemma getitem_axis2_decode (im : PILImage) (f : nat) (c : Z) :
  (1 < length (getbands im))%nat ->
  0 <= c < Z.of_nat (length (getbands im)) ->
  ndarray_getitem_axis2 (decode im f) c = Ok (channel_plane im f (Z.to_nat c)).
Proof.
  intros HC Hc. unfold decode, ndarray_getitem_axis2, channel_plane.
  destruct (Nat.eqb_spec (length (getbands im)) 1) as [E|_]; [lia|].
  cbn [shape data prod fold_right].
  rewrite py_index_nonneg by exact Hc.
  f_equal. f_equal.
  set (C := length (getbands im)) in *.
  set (j := Z.to_nat c).
  assert (Hj : (j < C)%nat) by (unfold j; lia).
  apply flat_map_singleton. intros p Hp.
  apply in_seq in Hp.
  rewrite Nat.mul_1_r.
  rewrite firstn1_skipn_map_seq by nia.
  assert (E1 : ((p * C + j) / C = p)%nat).
  { rewrite Nat.div_add_l by lia. rewrite Nat.div_small by lia. lia. }
  assert (E2 : ((p * C + j) mod C = j)%nat).
  { rewrite Nat.add_comm, Nat.Div0.mod_add. apply Nat.mod_small. lia. }
  rewrite E1, E2. reflexivity.
Qed.

(** A decoded frame holds every band of every pixel, row-major. *)
Lemma decode_nth (im : PILImage) (f y x b : nat) :
  (y < height im)%nat -> (x < width im)%nat -> (b < length (getbands im))%nat ->
  nth ((y * width im + x) * length (getbands im) + b) (data (decode im f)) 0
  = pixel im f y x b.
Proof.
  intros Hy Hx Hb. unfold decode.
  set (w := width im) in *. set (h := height im) in *.
  set (c := length (getbands im)) in *.
  assert (Hp : (y * w + x < h * w)%nat) by nia.
  assert (Ey : ((y * w + x) / w = y)%nat).
  { rewrite Nat.div_add_l by lia. rewrite (Nat.div_small x w) by lia. lia. }
  assert (Ex : ((y * w + x) mod w = x)%nat).
  { rewrite Nat.add_comm, Nat.Div0.mod_add. apply Nat.mod_small. lia. }
  destruct (Nat.eqb_spec c 1) as [E|NE]; cbn [data].
  - assert (b = 0)%nat by lia. subst b. rewrite E.
    rewrite Nat.mul_1_r, Nat.add_0_r.
    rewrite nth_map_seq by exact Hp. rewrite Ey, Ex. reflexivity.
  - rewrite nth_map_seq by nia.
    assert (E1 : (((y * w + x) * c + b) / c = y * w + x)%nat).
    { rewrite Nat.div_add_l by lia. rewrite (Nat.div_small b c) by lia. lia. }
    assert (E2 : (((y * w + x) * c + b) mod c = b)%nat).
    { rewrite Nat.add_comm, Nat.Div0.mod_add. apply Nat.mod_small. lia. }
    rewrite E1, E2, Ey, Ex. reflexivity.
Qed.

Lemma channel_plane_nth (im : PILImage) (f b y x : nat) :
  (y < height im)%nat -> (x < width im)%nat ->
  nth (y * width im + x) (data (channel_plane im f b)) 0 = pixel im f y x b.
Proof.
  intros Hy Hx. unfold channel_plane. cbn [data].
  set (w := width im) in *. set (h := height im) in *.
  rewrite nth_map_seq by nia.
  rewrite Nat.div_add_l by lia. rewrite (Nat.div_small x w) by lia.
  rewrite Nat.add_0_r.
  rewrite Nat.add_comm, Nat.Div0.mod_add, Nat.mod_small by lia. reflexivity.
Qed.

(** ** Resolving the current frame of a PIL image *)

Lemma image_seek_ok im t s f :
  _image s = Some (PIL (set_tell t im)) -> 0 <= f < n_frames im ->
  image_seek f s = (Ok tt, log (EvSeek f) (set_image (Some (PIL (set_tell f im))) s)).
Proof.
  intros Himg Hf. unfold image_seek, PIL_seek. rewrite Himg. cbn [n_frames set_tell].
  destruct (Z.leb_spec 0 f); [|lia].
  destruct (Z.ltb_spec f (n_frames im)); [reflexivity|lia].
Qed.

Lemma updateFrame_resolvable im s :
  resolvable im s -> updateFrame s = (Ok tt, after_resolve im s).
Proof.
  intros [Himg Hf Hc]. unfold shows in Himg.
  unfold after_resolve, resolved_frame, resolve_events, resolved_pos, frame_for, pos_for.
  set (t := current_tell s) in *.
  unfold updateFrame, bind at 1, get. rewrite Himg. proj_simpl.
  unfold currentIndexes, bind at 1. fold (indexes_of s).
  fold (frame_axis im) (channel_axis im (_separateChannels s)).
  destruct (frame_axis im) eqn:EF; destruct (channel_axis im (_separateChannels s)) eqn:EC.
  all: try (destruct (Hf eq_refl) as [Hne Hlast]).
  all: try (destruct (Hc eq_refl) as [Hne' Hhd]).
  all: unfold bind, lift, ret.
  all: rewrite ?(py_getitem_last (indexes_of s) 0) by (apply map_neq_nil; assumption).
  all: rewrite ?(image_seek_ok im t) by assumption.
  all: try rewrite (py_getitem_first (indexes_of s) 0) by (apply map_neq_nil; assumption).
  all: destruct (toqimage_supported im) eqn:EQ.
  all: unfold try_except, image_toqimage, image_array, log, set_image;
       repeat (progress (proj_simpl; rewrite ?Himg, ?EQ)).
  all: unfold np_array; proj_simpl.
  all: try (rewrite getitem_axis2_decode; proj_simpl;
     [| unfold channel_axis in EC; apply andb_prop in EC; lia | lia ]).
  all: unfold updateLabel, imageViewer_setImage, modify, bind, get, ret, log, set_currentFrame;
       repeat (progress (proj_simpl; rewrite ?Himg, ?EQ)).
  all: unfold resolved_frame, resolved_pos, frame_for, pos_for; rewrite ?EF, ?EC, ?EQ; fold t.
  all: repeat rewrite <- app_assoc; reflexivity.
Qed.

Lemma last_map_range (bars : list QScrollBar) (pre : list (Z * Z)) (lo hi : Z) :
  map sb_range bars = pre ++ [(lo, hi)] -> Forall in_range bars ->
  bars <> [] /\ lo <= last (map value bars) 0 <= hi.
Proof.
  revert pre. induction bars as [|sb bars IH]; intros pre Hm Hv.
  - destruct pre; discriminate.
  - split; [discriminate|].
    inversion Hv as [|? ? Hsb Hrest]; subst.
    destruct bars as [|sb' bars'].
    + destruct pre as [|p [|q pre]]; try discriminate.
      cbn in Hm. injection Hm as Hm. unfold in_range in Hsb. cbn. lia.
    + destruct pre as [|p pre]; [discriminate|].
      cbn [map app] in Hm. injection Hm as _ Hm.
      destruct (IH pre Hm Hrest) as [_ H]. exact H.
Qed.

Lemma hd_map_range (bars : list QScrollBar) (post : list (Z * Z)) (lo hi : Z) :
  map sb_range bars = (lo, hi) :: post -> Forall in_range bars ->
  bars <> [] /\ lo <= hd 0 (map value bars) <= hi.
Proof.
  intros Hm Hv. destruct bars as [|sb bars]; [discriminate|].
  split; [discriminate|].
  inversion Hv as [|? ? Hsb _]; subst. cbn in Hm. injection Hm as H1 H2 _.
  unfold in_range in Hsb. cbn. lia.
Qed.

Lemma lazy_ok_resolvable im s : lazy_ok im s -> resolvable im s.
Proof.
  intros [Himg Hbars Hvals]. split; [exact Himg | |].
  - intros EF. unfold lazy_ranges in Hbars. rewrite EF in Hbars.
    destruct (last_map_range _ _ _ _ Hbars Hvals) as [Hne H].
    split; [exact Hne|]. unfold indexes_of. lia.
  - intros EC. unfold lazy_ranges in Hbars. rewrite EC in Hbars.
    destruct (hd_map_range _ _ _ _ Hbars Hvals) as [Hne H].
    split; [exact Hne|]. unfold indexes_of. lia.
Qed.

Lemma lazy_ok_after_resolve im s : lazy_ok im s -> lazy_ok im (after_resolve im s).
Proof.
  intros [Himg Hbars Hvals]. split.
  - reflexivity.
  - exact Hbars.
  - exact Hvals.
Qed.

Lemma updateFrame_lazy im s :
  lazy_ok im s -> updateFrame s = (Ok tt, after_resolve im s).
Proof. intros H. apply updateFrame_resolvable, lazy_ok_resolvable, H. Qed.

Lemma image_seek_defective d im s f :
  _image s = Some (PILDefective d im) -> 0 <= f < n_frames im ->
  image_seek f s
  = (Ok tt, log (EvSeek f) (set_image (Some (PILDefective d (set_tell f im))) s)).
Proof.
  intros Himg Hf. unfold image_seek, PIL_seek. rewrite Himg.
  destruct (Z.leb_spec 0 f); [|lia].
  destruct (Z.ltb_spec f (n_frames im)); [reflexivity|lia].
Qed.

(** [updateFrame] on a file object with a defect that shows at display. *)
Lemma updateFrame_defective (d : Defect) (im : PILImage) (s : Viewer) (e : exn) :
  _image s = Some (PILDefective d im) ->
  display_failure d im (_separateChannels s) = Some e ->
  (frame_axis im = true ->
   _scrollbars s <> [] /\ 0 <= last (indexes_of s) 0 < n_frames im) ->
  (channel_axis im (_separateChannels s) = true -> _scrollbars s <> []) ->
  updateFrame s
  = (Err e, match d with NoFrameCount => s | _ => after_seek d im s end).
Proof.
  intros Himg He Hf Hc. unfold updateFrame, bind at 1, get. rewrite Himg.
  destruct d; cbn [display_failure] in He.
  - injection He as <-. reflexivity.
  - injection He as <-. unfold after_seek.
    unfold currentIndexes, bind at 1. fold (indexes_of s).
    fold (frame_axis im) (channel_axis im (_separateChannels s)).
    destruct (frame_axis im) eqn:EF;
      destruct (channel_axis im (_separateChannels s)) eqn:EC.
    all: try (destruct (Hf eq_refl) as [Hne Hlast]).
    all: try (pose proof (Hc eq_refl) as Hne').
    all: unfold bind, lift, ret.
    all: rewrite ?(py_getitem_last (indexes_of s) 0) by (apply map_neq_nil; assumption).
    all: rewrite ?(image_seek_defective Truncated im s) by assumption.
    all: try rewrite (py_getitem_first (indexes_of s) 0) by (apply map_neq_nil; assumption).
    all: unfold try_except, image_toqimage, image_array, log, set_image; proj_simpl;
         rewrite ?Himg.
    all: destruct (toqimage_supported im); proj_simpl; rewrite ?Himg; reflexivity.
  - fold (channel_axis im (_separateChannels s)) in He |- *.
    destruct (channel_axis im (_separateChannels s)) eqn:EC; [discriminate|].
    injection He as <-. unfold after_seek.
    unfold currentIndexes, bind at 1. fold (indexes_of s).
    fold (frame_axis im).
    destruct (frame_axis im) eqn:EF.
    all: try (destruct (Hf eq_refl) as [Hne Hlast]).
    all: unfold bind, lift, ret.
    all: rewrite ?(py_getitem_last (indexes_of s) 0) by (apply map_neq_nil; assumption).
    all: rewrite ?(image_seek_defective NoImageQt im s) by assumption.
    all: unfold try_except, image_toqimage, log, set_image; proj_simpl;
         rewrite ?Himg; reflexivity.
Qed.

Lemma lazy_ok_ext (im : PILImage) (s s' : Viewer) :
  lazy_ok im s -> _image s' = _image s -> _scrollbars s' = _scrollbars s ->
  _separateChannels s' = _separateChannels s -> lazy_ok im s'.
Proof.
  intros [H1 H2 H3] Ei Eb Es. split.
  - unfold shows, current_tell in *. rewrite Ei. exact H1.
  - rewrite Eb, Es. exact H2.
  - rewrite Eb. exact H3.
Qed.

Lemma shows_of_image (im : PILImage) (s : Viewer) :
  _image s = Some (PIL im) -> shows im s.
Proof.
  intros H. unfold shows, current_tell. rewrite H. destruct im; reflexivity.
Qed.

Lemma shown_app (a b : list Event) : shown (a ++ b) = shown a ++ shown b.
Proof. unfold shown. apply flat_map_app. Qed.

(** Every resolve hands exactly one frame to the viewer. *)
Lemma shown_after_resolve (im : PILImage) (s : Viewer) :
  shown (trace (after_resolve im s)) = shown (trace s) ++ [resolved_frame im s].
Proof.
  cbn [trace after_resolve]. rewrite shown_app. f_equal.
  unfold resolve_events.
  destruct (frame_axis im), (channel_axis im (_separateChannels s)),
    (toqimage_supported im); reflexivity.
Qed.

Lemma frame_for_tell (im : PILImage) (sep : bool) (t t' : Z) (idx : list Z) :
  (frame_axis im = false -> t = t') ->
  frame_for im sep t idx = frame_for im sep t' idx.
Proof.
  intros H. unfold frame_for, pos_for.
  destruct (frame_axis im); [reflexivity|]. rewrite (H eq_refl). reflexivity.
Qed.

Lemma tell_after_resolve (im : PILImage) (s : Viewer) :
  frame_axis im = false -> current_tell (after_resolve im s) = current_tell s.
Proof.
  intros H. unfold current_tell at 1, after_resolve, resolved_pos, pos_for.
  cbn [_image tell set_tell]. rewrite H. reflexivity.
Qed.

(** On a PIL image [updateFrame] is idempotent and each call hands exactly
    one frame to the viewer. *)
Lemma updateFrame_idempotent_lazy (im : PILImage) (s : Viewer) :
  resolvable im s ->
  let r1 := updateFrame s in
  let r2 := updateFrame (snd r1) in
  fst r1 = Ok tt /\ fst r2 = Ok tt /\
  _currentFrame (snd r2) = _currentFrame (snd r1) /\
  _currentFrame (snd r1) = Some (resolved_frame im s) /\
  shown (trace (snd r1)) = shown (trace s) ++ [resolved_frame im s] /\
  shown (trace (snd r2)) = shown (trace (snd r1)) ++ [resolved_frame im s].
Proof.
  intros Hr r1 r2. subst r2 r1.
  rewrite (updateFrame_resolvable im s Hr). cbn [fst snd].
  assert (Hr' : resolvable im (after_resolve im s)).
  { destruct Hr as [H1 H2 H3]. split; [reflexivity | exact H2 | exact H3]. }
  rewrite (updateFrame_resolvable im _ Hr'). cbn [fst snd].
  assert (E : resolved_frame im (after_resolve im s) = resolved_frame im s).
  { unfold resolved_frame, frame_for, pos_for, current_tell, after_resolve, indexes_of,
      resolved_pos, pos_for.
    cbn [_image _separateChannels _scrollbars tell set_tell].
    destruct (frame_axis im); reflexivity. }
  repeat split.
  - cbn [_currentFrame after_resolve]. rewrite E. reflexivity.
  - apply shown_after_resolve.
  - rewrite shown_after_resolve, E. reflexivity.
Qed.

(** C3.  With more than one band, more than one frame and channel
    separation on, [updateFrame] under index vector [[c; f]] first seeks to
    frame [f] (the last index), then decodes that frame and keeps band [c]
    (the first index): the trace grows by seek, decode, display in this
    order and the current frame is the [(height, width)] plane of band [c]
    of frame [f]. *)
Theorem seek_precedes_channel_extraction (im : PILImage) (s : Viewer) (c f : Z) :
  shows im s ->
  1 < Z.of_nat (length (getbands im)) -> 1 < n_frames im ->
  _separateChannels s = true ->
  indexes_of s = [c; f] ->
  0 <= c < Z.of_nat (length (getbands im)) -> 0 <= f < n_frames im ->
  let plane := channel_plane im (Z.to_nat f) (Z.to_nat c) in
  let s' := snd (updateFrame s) in
  fst (updateFrame s) = Ok tt /\
  trace s' = trace s ++ [EvSeek f; EvArray; EvSetImage (ArrayFrame plane)] /\
  _currentFrame s' = Some (ArrayFrame plane) /\
  current_tell s' = f /\
  shape plane = [height im; width im] /\
  forall y x, (y < height im)%nat -> (x < width im)%nat ->
    nth (y * width im + x) (data plane) 0 = pixel im (Z.to_nat f) y x (Z.to_nat c).
Proof.
  intros Hs HC HF Hsep Hidx Hc Hf plane s'. subst s'.
  assert (EF : frame_axis im = true) by (unfold frame_axis; apply Z.ltb_lt; exact HF).
  assert (EC : channel_axis im (_separateChannels s) = true).
  { unfold channel_axis. rewrite Hsep, andb_true_r. apply Z.ltb_lt. exact HC. }
  assert (Hne : _scrollbars s <> []).
  { intros E. unfold indexes_of in Hidx. rewrite E in Hidx. discriminate. }
  assert (Hr : resolvable im s).
  { split; [exact Hs| |]; intros _; (split; [exact Hne|]); rewrite Hidx; cbn; lia. }
  rewrite (updateFrame_resolvable im s Hr).
  cbn [fst snd after_resolve _currentFrame trace].
  unfold resolve_events, resolved_frame, frame_for, pos_for. rewrite EC, EF, Hidx.
  cbn [last hd app].
  repeat split.
  - unfold current_tell, after_resolve, resolved_pos, pos_for. cbn [_image tell set_tell].
    rewrite EF, Hidx. reflexivity.
  - intros. apply channel_plane_nth; assumption.
Qed.

Lemma seek_precedes_channel_extraction_witness :
  let s := snd (setCurrentIndexes [1; 4] (loaded true rgb_stack)) in
  fst (updateFrame s) = Ok tt /\
  trace (snd (updateFrame s)) =
    trace s ++ [EvSeek 4; EvArray; EvSetImage (ArrayFrame (channel_plane rgb_stack 4 1))].
Proof.
  intros s.
  assert (Hs : shows rgb_stack s) by reflexivity.
  assert (HC : 1 < Z.of_nat (length (getbands rgb_stack))) by (cbn; lia).
  assert (HF : 1 < n_frames rgb_stack) by (cbn; lia).
  assert (Hc : 0 <= 1 < Z.of_nat (length (getbands rgb_stack))) by (cbn; lia).
  assert (Hf : 0 <= 4 < n_frames rgb_stack) by (cbn; lia).
  destruct (seek_precedes_channel_extraction rgb_stack s 1 4
              Hs HC HF eq_refl eq_refl Hc Hf) as (H1 & H2 & _).
  split; [exact H1 | exact H2].
Defined.

(** C7.  On a PIL image resolved without channel separation [updateFrame]
    hands the image viewer one composite buffer holding every band of every
    pixel of the frame: the display image when [toqimage] converts it, and
    the raw array of the same frame when [toqimage] raises the [ValueError]
    of an unsupported mode, which is caught and never reaches the caller.
    [ValueError] is the only exception caught: on a file object whose
    display fails otherwise ([ImportError] without [ImageQt], [OSError] on
    pixel data that does not load) [updateFrame] raises that exception
    after the seek, decodes and displays nothing and keeps the previous
    current frame. *)
Theorem composite_decode_falls_back (im : PILImage) (s : Viewer) :
  channel_axis im (_separateChannels s) = false ->
  (resolvable im s ->
   let f := Z.to_nat (resolved_pos im s) in
   let s' := snd (updateFrame s) in
   fst (updateFrame s) = Ok tt /\
   _currentFrame s' = Some (if toqimage_supported im
                            then QImageFrame (decode im f)
                            else ArrayFrame (decode im f)) /\
   trace s' = trace s ++
              (if frame_axis im then [EvSeek (resolved_pos im s)] else []) ++
              (if toqimage_supported im
               then [EvToQImage; EvSetImage (QImageFrame (decode im f))]
               else [EvArray; EvSetImage (ArrayFrame (decode im f))]) /\
   forall y x b, (y < height im)%nat -> (x < width im)%nat ->
                 (b < length (getbands im))%nat ->
     nth ((y * width im + x) * length (getbands im) + b) (data (decode im f)) 0
     = pixel im f y x b) /\
  (forall d,
     _image s = Some (PILDefective d im) -> d <> NoFrameCount ->
     (frame_axis im = true ->
      _scrollbars s <> [] /\ 0 <= last (indexes_of s) 0 < n_frames im) ->
     let s' := snd (updateFrame s) in
     fst (updateFrame s) = Err (match d with NoImageQt => ImportError | _ => OSError end) /\
     _currentFrame s' = _currentFrame s /\
     trace s' = trace s ++
                (if frame_axis im then [EvSeek (last (indexes_of s) 0)] else [])).
Proof.
  intros EC. split.
  - intros Hr f s'. subst s'. rewrite (updateFrame_resolvable im s Hr).
    cbn [fst snd after_resolve _currentFrame trace].
    unfold resolve_events, resolved_frame, frame_for. rewrite EC.
    fold (resolved_pos im s). fold f.
    repeat split.
    + unfold resolved_pos, pos_for.
      destruct (frame_axis im), (toqimage_supported im); reflexivity.
    + intros. apply decode_nth; assumption.
  - intros d Himg Hd Hf s'. subst s'.
    assert (He : display_failure d im (_separateChannels s)
                 = Some (match d with NoImageQt => ImportError | _ => OSError end))
      by (destruct d; [contradiction Hd; reflexivity | reflexivity |];
          cbn [display_failure]; rewrite EC; reflexivity).
    assert (Hc : channel_axis im (_separateChannels s) = true -> _scrollbars s <> [])
      by (rewrite EC; discriminate).
    rewrite (updateFrame_defective d im s _ Himg He Hf Hc).
    cbn [fst snd].
    destruct d; [contradiction Hd; reflexivity | |];
      unfold after_seek; destruct (frame_axis im);
      cbn [_currentFrame trace log set_image]; rewrite ?app_nil_r;
      repeat split.
Qed.

Lemma composite_decode_falls_back_witness :
  (fst (updateFrame (loaded false float_stack)) = Ok tt /\
   _currentFrame (snd (updateFrame (loaded false float_stack)))
   = Some (ArrayFrame (decode float_stack 0))) /\
  fst (updateFrame (set_image (Some (PILDefective Truncated rgb_stack))
                      (loaded false rgb_stack))) = Err OSError.
Proof.
  assert (Hr : resolvable float_stack (loaded false float_stack)).
  { split; [reflexivity| |].
    - intros _. split; [discriminate|]. vm_compute. split; [discriminate|reflexivity].
    - intros H. discriminate H. }
  split.
  - destruct (proj1 (composite_decode_falls_back float_stack
                       (loaded false float_stack) eq_refl) Hr)
      as (H1 & H2 & _).
    split; [exact H1 | exact H2].
  - assert (Hd : Truncated <> NoFrameCount) by discriminate.
    assert (Hf : frame_axis rgb_stack = true ->
                 _scrollbars (set_image (Some (PILDefective Truncated rgb_stack))
                                (loaded false rgb_stack)) <> [] /\
                 0 <= last (indexes_of
                              (set_image (Some (PILDefective Truncated rgb_stack))
                                 (loaded false rgb_stack))) 0
                   < n_frames rgb_stack).
    { intros _. split; [discriminate|]. vm_compute. split; [discriminate|reflexivity]. }
    exact (proj1 (proj2 (composite_decode_falls_back rgb_stack
                           (set_image (Some (PILDefective Truncated rgb_stack))
                              (loaded false rgb_stack)) eq_refl)
                   Truncated eq_refl Hd Hf)).
Defined.

(** C7 as stated fails: a failure of the display conversion other than
    [ValueError] reaches the caller.  In an installation whose Pillow has
    no [ImageQt] for the Qt binding, [setImage] of a single-frame RGB file
    on a new widget raises the [ImportError] of [toqimage], and so does
    every later [updateFrame]: there is no current frame and nothing was
    handed to the image viewer, although the raw-array decode the handler
    would have used succeeds on the same object. *)
Theorem toqimage_failure_is_surfaced :
  let r := setImage (Some (PILDefective NoImageQt rgb_single)) fresh in
  fst r = Err ImportError /\
  updateFrame (snd r) = (Err ImportError, snd r) /\
  _currentFrame (snd r) = None /\
  shown (trace (snd r)) = [] /\
  fst (image_array (snd r)) = Ok (decode rgb_single 0).
Proof. vm_compute. repeat split. Qed.

(** ** [updateFrame] never touches the scrollbars *)

Lemma kb_ret {A : Type} (a : A) : keeps_bars (ret a).
Proof. intros s. reflexivity. Qed.

Lemma kb_lift {A : Type} (r : result A) : keeps_bars (lift r).
Proof. intros s. reflexivity. Qed.

Lemma kb_bind {A B : Type} (m : M A) (k : A -> M B) :
  keeps_bars m -> (forall a, keeps_bars (k a)) -> keeps_bars (bind m k).
Proof.
  intros Hm Hk s. unfold bind. specialize (Hm s).
  destruct (m s) as [[a|e] s1]; cbn [snd] in *; [|exact Hm].
  rewrite (Hk a s1). exact Hm.
Qed.

Lemma kb_modify (f : Viewer -> Viewer) :
  (forall s, _scrollbars (f s) = _scrollbars s) -> keeps_bars (modify f).
Proof. intros H s. apply H. Qed.

Lemma kb_try {A : Type} (body handler : M A) (e : exn) :
  keeps_bars body -> keeps_bars handler -> keeps_bars (try_except body e handler).
Proof.
  intros Hb Hh s. unfold try_except. specialize (Hb s).
  destruct (body s) as [[a|e'] s1]; cbn [snd] in *; [exact Hb|].
  destruct (same_exn e e'); cbn [snd]; [rewrite (Hh s1)|]; exact Hb.
Qed.

Lemma kb_image_seek (f : Z) : keeps_bars (image_seek f).
Proof.
  intros s. unfold image_seek.
  destruct (_image s) as [[a|im|d im]|]; try reflexivity;
    destruct (PIL_seek im f); reflexivity.
Qed.

Lemma kb_image_array : keeps_bars image_array.
Proof.
  intros s. unfold image_array.
  destruct (_image s) as [[a|im|[] im]|]; reflexivity.
Qed.

Lemma kb_image_toqimage : keeps_bars image_toqimage.
Proof.
  intros s. unfold image_toqimage.
  destruct (_image s) as [[a|im|[] im]|]; try reflexivity;
    destruct (toqimage_supported im); reflexivity.
Qed.

Lemma kb_get : keeps_bars get.
Proof. intros s. reflexivity. Qed.

Lemma kb_raise {A : Type} (e : exn) : keeps_bars (@raise A e).
Proof. intros s. reflexivity. Qed.

Ltac kb_step :=
  first [ apply kb_ret | apply kb_lift | apply kb_get | apply kb_raise
        | apply kb_image_seek
        | apply kb_image_array | apply kb_image_toqimage
        | apply kb_modify; intros; reflexivity
        | apply kb_try | apply kb_bind
        | match goal with
          | |- forall _, keeps_bars _ => intro
          | |- keeps_bars (match ?x with _ => _ end) => destruct x
          end ].

Lemma kb_updateLabel : keeps_bars updateLabel.
Proof. unfold updateLabel. repeat kb_step. Qed.

Lemma kb_updateFrame : keeps_bars updateFrame.
Proof.
  unfold updateFrame, currentIndexes, imageViewer_setImage.
  repeat first [ apply kb_updateLabel | kb_step ].
Qed.

Lemma bars_then {A B : Type} (m : M A) (k : M B) (s : Viewer) :
  keeps_bars k ->
  _scrollbars (snd (bind m (fun _ => k) s)) = _scrollbars (snd (m s)).
Proof.
  intros Hk. unfold bind. destruct (m s) as [[a|e] s1]; cbn [snd]; [apply Hk|reflexivity].
Qed.

(** ** Moving a scrollbar *)

Lemma with_value_same (sb : QScrollBar) : with_value (value sb) sb = sb.
Proof. destruct sb; reflexivity. Qed.

Lemma bound_in_range (sb : QScrollBar) (v : Z) :
  minimum sb <= maximum sb -> in_range (with_value (bound sb v) sb).
Proof. unfold in_range, bound. cbn. lia. Qed.

Lemma bound_id (sb : QScrollBar) (v : Z) :
  minimum sb <= v <= maximum sb -> bound sb v = v.
Proof. unfold bound. lia. Qed.

Lemma bound0 (v m : Z) : 0 <= m -> bound (mk_QScrollBar 0 m v) 0 = 0.
Proof. intros H. unfold bound. cbn [minimum maximum]. lia. Qed.

Lemma scrollbar_at_last (s : Viewer) (pre : list QScrollBar) (sb : QScrollBar) :
  _scrollbars s = pre ++ [sb] -> scrollbar_at (-1) s = (Ok (length pre), s).
Proof.
  intros E. unfold scrollbar_at, py_index. rewrite E, length_app. cbn [length].
  destruct (Z.leb_spec 0 (-1)); [lia|]. cbn [andb].
  destruct (Z.leb_spec (- Z.of_nat (length pre + 1)) (-1)); [|lia].
  destruct (Z.ltb_spec (-1) 0); [|lia]. cbn [andb].
  replace (Z.to_nat (Z.of_nat (length pre + 1) + -1)) with (length pre) by lia.
  reflexivity.
Qed.

Lemma scrollbar_at_nat (s : Viewer) (k : nat) :
  (k < length (_scrollbars s))%nat -> scrollbar_at (Z.of_nat k) s = (Ok k, s).
Proof.
  intros H. unfold scrollbar_at. rewrite py_index_nonneg by lia.
  rewrite Nat2Z.id. reflexivity.
Qed.

Lemma scrollbar_setValue_eq (k : nat) (v : Z) (s : Viewer) (sb : QScrollBar) :
  nth_error (_scrollbars s) k = Some sb ->
  scrollbar_setValue k v s =
  if value sb =? bound sb v then (Ok tt, s)
  else updateFrame (move_bar k (bound sb v) s).
Proof.
  intros H. unfold scrollbar_setValue, bind, get_scrollbar, move_bar. rewrite H.
  destruct (value sb =? bound sb v); reflexivity.
Qed.

Lemma scrollbar_setRange_eq (k : nat) (mn mx : Z) (s : Viewer) (sb : QScrollBar) :
  nth_error (_scrollbars s) k = Some sb ->
  scrollbar_setRange k mn mx s =
  if (minimum sb =? mn) && (maximum sb =? Z.max mn mx) then (Ok tt, s)
  else scrollbar_setValue k (value sb)
         (set_scrollbars
            (list_set (_scrollbars s) k (mk_QScrollBar mn (Z.max mn mx) (value sb))) s).
Proof.
  intros H. unfold scrollbar_setRange, bind at 1, get_scrollbar. rewrite H.
  destruct ((minimum sb =? mn) && (maximum sb =? Z.max mn mx)); reflexivity.
Qed.

Lemma lazy_ok_move_bar im s k v sb :
  lazy_ok im s -> nth_error (_scrollbars s) k = Some sb ->
  lazy_ok im (move_bar k (bound sb v) s).
Proof.
  intros [Himg Hbars Hvals] Hk. unfold move_bar. rewrite Hk. split.
  - exact Himg.
  - cbn [_scrollbars _separateChannels set_scrollbars].
    rewrite map_list_set.
    change (sb_range (with_value (bound sb v) sb)) with (sb_range sb).
    rewrite list_set_same; [exact Hbars|].
    rewrite nth_error_map, Hk. reflexivity.
  - cbn [_scrollbars set_scrollbars].
    apply Forall_list_set; [exact Hvals|].
    apply bound_in_range.
    rewrite Forall_forall in Hvals.
    specialize (Hvals sb (nth_error_In _ _ Hk)). unfold in_range in Hvals. lia.
Qed.

Lemma scrollbar_setValue_lazy im k v s sb :
  lazy_ok im s -> nth_error (_scrollbars s) k = Some sb ->
  scrollbar_setValue k v s = (Ok tt, setValue_lazy im k v s) /\
  lazy_ok im (setValue_lazy im k v s) /\
  indexes_of (setValue_lazy im k v s) = list_set (indexes_of s) k (bound sb v).
Proof.
  intros Hok Hk. rewrite (scrollbar_setValue_eq k v s sb Hk).
  unfold setValue_lazy. rewrite Hk.
  destruct (Z.eqb_spec (value sb) (bound sb v)) as [E|NE].
  - repeat split; try apply Hok.
    unfold indexes_of. rewrite <- E.
    rewrite list_set_same; [reflexivity|]. rewrite nth_error_map, Hk. reflexivity.
  - pose proof (lazy_ok_move_bar im s k v sb Hok Hk) as Hm.
    rewrite (updateFrame_lazy im _ Hm).
    repeat split; try apply (lazy_ok_after_resolve im _ Hm).
    unfold indexes_of, move_bar. rewrite Hk.
    cbn [_scrollbars after_resolve set_scrollbars]. rewrite map_list_set. reflexivity.
Qed.

Lemma setValue_lazy_bars im k v s sb :
  nth_error (_scrollbars s) k = Some sb ->
  _scrollbars (setValue_lazy im k v s)
  = list_set (_scrollbars s) k (with_value (bound sb v) sb).
Proof.
  intros Hk. unfold setValue_lazy. rewrite Hk.
  destruct (Z.eqb_spec (value sb) (bound sb v)) as [E|NE].
  - rewrite <- E, with_value_same. symmetry. apply list_set_same. exact Hk.
  - unfold move_bar. rewrite Hk. reflexivity.
Qed.

Lemma setValue_lazy_sep im k v s :
  _separateChannels (setValue_lazy im k v s) = _separateChannels s.
Proof.
  unfold setValue_lazy, move_bar.
  destruct (nth_error (_scrollbars s) k) as [sb|]; [|reflexivity].
  destruct (value sb =? bound sb v); reflexivity.
Qed.

Lemma set_scrollbars_same (s : Viewer) : set_scrollbars (_scrollbars s) s = s.
Proof. destruct s; reflexivity. Qed.

(** Resetting a bar that already stands at 0 emits no [valueChanged]. *)
Lemma reset_bar (k : nat) (m : Z) (s : Viewer) (sb : QScrollBar) :
  nth_error (_scrollbars s) k = Some sb -> value sb = 0 -> 0 <= m ->
  bind (scrollbar_setRange k 0 m) (fun _ => scrollbar_setValue k 0) s
  = (Ok tt, set_scrollbars (list_set (_scrollbars s) k (mk_QScrollBar 0 m 0)) s).
Proof.
  intros Hk Hv Hm. unfold bind.
  rewrite (scrollbar_setRange_eq k 0 m s sb Hk).
  replace (Z.max 0 m) with m by lia.
  destruct ((minimum sb =? 0) && (maximum sb =? m)) eqn:E.
  - apply andb_prop in E. destruct E as [E1 E2].
    apply Z.eqb_eq in E1. apply Z.eqb_eq in E2.
    assert (Esb : sb = mk_QScrollBar 0 m 0) by (destruct sb; cbn in *; subst; reflexivity).
    rewrite (scrollbar_setValue_eq k 0 s sb Hk).
    subst sb. rewrite (bound0 0 m Hm). cbn [value Z.eqb].
    rewrite list_set_same by exact Hk. rewrite set_scrollbars_same. reflexivity.
  - set (s1 := set_scrollbars _ s).
    assert (Hk1 : nth_error (_scrollbars s1) k = Some (mk_QScrollBar 0 m (value sb))).
    { unfold s1. cbn [_scrollbars set_scrollbars]. eapply nth_error_list_set. exact Hk. }
    rewrite (scrollbar_setValue_eq k (value sb) s1 _ Hk1).
    rewrite Hv in *. rewrite (bound0 0 m Hm). cbn [value Z.eqb].
    rewrite (scrollbar_setValue_eq k 0 s1 _ Hk1).
    rewrite (bound0 0 m Hm). cbn [value Z.eqb].
    unfold s1. rewrite Hv. reflexivity.
Qed.

Lemma reset_bar_then {B : Type} (c : M B) (k : nat) (m : Z) (s : Viewer) (sb : QScrollBar) :
  nth_error (_scrollbars s) k = Some sb -> value sb = 0 -> 0 <= m ->
  bind (scrollbar_setRange k 0 m) (fun _ => bind (scrollbar_setValue k 0) (fun _ => c)) s
  = c (set_scrollbars (list_set (_scrollbars s) k (mk_QScrollBar 0 m 0)) s).
Proof.
  intros Hk Hv Hm. rewrite bind_assoc_seq.
  exact (bind_ok _ (fun _ => c) _ _ tt (reset_bar k m s sb Hk Hv Hm)).
Qed.

(** Whatever the slot does, [setValue] leaves bar [k] at the bounded value. *)
Lemma setValue_bars (k : nat) (v : Z) (s : Viewer) (sb : QScrollBar) :
  nth_error (_scrollbars s) k = Some sb ->
  _scrollbars (snd (scrollbar_setValue k v s))
  = list_set (_scrollbars s) k (with_value (bound sb v) sb).
Proof.
  intros Hk. rewrite (scrollbar_setValue_eq k v s sb Hk).
  destruct (Z.eqb_spec (value sb) (bound sb v)) as [E|NE].
  - cbn [snd]. rewrite <- E, with_value_same. symmetry. apply list_set_same. exact Hk.
  - rewrite kb_updateFrame. unfold move_bar. rewrite Hk. reflexivity.
Qed.


(** ** Setting up the scrollbars of a PIL image *)

Lemma resized_length (n : nat) (l : list QScrollBar) : length (resized n l) = n.
Proof.
  unfold resized. destruct (Nat.ltb_spec n (length l)).
  - rewrite length_app, length_firstn, repeat_length. lia.
  - rewrite length_app, repeat_length. lia.
Qed.

Lemma resized_zero (n : nat) (l : list QScrollBar) :
  Forall (fun sb => value sb = 0) l -> Forall (fun sb => value sb = 0) (resized n l).
Proof.
  intros H. unfold resized. apply Forall_app. split.
  - destruct (n <? length l)%nat; [|exact H].
    rewrite <- (firstn_skipn n l) in H. apply Forall_app in H. apply H.
  - apply Forall_forall. intros x Hx. apply repeat_spec in Hx. subst. reflexivity.
Qed.

Lemma updateViewer_scrollbars_lazy (im : PILImage) (s : Viewer) :
  Forall (fun sb => value sb = 0) (_scrollbars s) ->
  updateViewer_scrollbars (PIL im) s
  = (Ok tt, set_scrollbars (axis_bars im (_separateChannels s)) s).
Proof.
  intros Hz. unfold updateViewer_scrollbars, bind at 1, get.
  unfold axis_bars, lazy_ranges.
  fold (channel_axis im (_separateChannels s)) (frame_axis im).
  unfold resize_scrollbars, modify, bind at 1.
  match goal with |- context [set_scrollbars ?r s] =>
    change r with (resized (if frame_axis im
                            then ((if channel_axis im (_separateChannels s) then 1 else 0) + 1)%nat
                            else if channel_axis im (_separateChannels s) then 1%nat else 0%nat)
                           (_scrollbars s)) end.
  assert (HC : channel_axis im (_separateChannels s) = true ->
               0 <= Z.of_nat (length (getbands im)) - 1).
  { unfold channel_axis. intros H. apply andb_prop in H. destruct H as [H _].
    apply Z.ltb_lt in H. lia. }
  assert (HF : frame_axis im = true -> 0 <= n_frames im - 1).
  { unfold frame_axis. intros H. apply Z.ltb_lt in H. lia. }
  destruct (channel_axis im (_separateChannels s)) eqn:EC; cbn [_separateChannels set_scrollbars];
    rewrite ?EC; destruct (frame_axis im) eqn:EF.
  all: match goal with |- context [resized ?n ?l] =>
         pose proof (resized_length n l) as Hlen;
         pose proof (resized_zero n l Hz) as Hr;
         set (r := resized n l) in * end.
  all: destruct r as [|a [|b [|c r']]]; try discriminate Hlen.
  all: repeat match goal with
         | H : Forall _ (_ :: _) |- _ => inversion H; subst; clear H
         end.
  - unfold bind at 1. unfold bind at 1.
    change (scrollbar_at 0 (set_scrollbars [a; b] s)) with (Ok 0%nat, set_scrollbars [a; b] s).
    cbv beta iota.
    erewrite reset_bar_then; [| reflexivity | assumption | auto].
    cbn [ret]. unfold bind at 1.
    cbn [_scrollbars set_scrollbars list_set].
    match goal with |- context [scrollbar_at 1 ?st] =>
      change (scrollbar_at 1 st) with (Ok 1%nat, st) end.
    cbv beta iota.
    erewrite reset_bar; [| reflexivity | assumption | auto].
    reflexivity.
  - unfold bind at 1. unfold bind at 1.
    change (scrollbar_at 0 (set_scrollbars [a] s)) with (Ok 0%nat, set_scrollbars [a] s).
    cbv beta iota.
    erewrite reset_bar_then; [| reflexivity | assumption | auto].
    reflexivity.
  - unfold bind at 1. cbn [ret]. unfold bind at 1.
    change (scrollbar_at 0 (set_scrollbars [a] s)) with (Ok 0%nat, set_scrollbars [a] s).
    cbv beta iota.
    erewrite reset_bar; [| reflexivity | assumption | auto].
    reflexivity.
  - reflexivity.
Qed.


Lemma axis_bars_ok (im : PILImage) (sep : bool) :
  map sb_range (axis_bars im sep) = lazy_ranges im sep /\
  Forall in_range (axis_bars im sep).
Proof.
  unfold axis_bars, lazy_ranges, channel_axis, frame_axis, in_range.
  destruct (Z.ltb_spec 1 (Z.of_nat (length (getbands im)))), sep,
           (Z.ltb_spec 1 (n_frames im)); cbn; split; try reflexivity;
    repeat constructor; cbn; lia.
Qed.

(** [updateViewer] on a widget whose indexes are all 0 and that holds the
    PIL image [im]. *)
Lemma updateViewer_lazy (im : PILImage) (s : Viewer) :
  _image s = Some (PIL im) ->
  Forall (fun sb => value sb = 0) (_scrollbars s) ->
  exists s', updateViewer s = (Ok tt, s') /\ lazy_ok im s' /\
             _scrollbars s' = axis_bars im (_separateChannels s) /\
             _separateChannels s' = _separateChannels s.
Proof.
  intros Himg Hz. unfold updateViewer, bind at 1, get. rewrite Himg.
  unfold bind at 1. rewrite (updateViewer_scrollbars_lazy im s Hz).
  unfold bind at 1, get. unfold bind at 1.
  destruct (axis_bars_ok im (_separateChannels s)) as [Hr Hv].
  match goal with |- context [if ?b then _ else _] => destruct b end;
    unfold modify.
  all: match goal with |- context [updateFrame ?st] =>
         assert (Hok : lazy_ok im st)
           by (split; [apply shows_of_image; exact Himg | exact Hr | exact Hv]);
         rewrite (updateFrame_lazy im st Hok);
         exists (after_resolve im st); split; [reflexivity|];
         split; [apply lazy_ok_after_resolve; exact Hok|]; split; reflexivity
       end.
Qed.

Lemma frame_for_zeros (im : PILImage) (sep : bool) (t : Z) :
  frame_for im sep t (map value (axis_bars im sep)) = first_frame im sep t.
Proof.
  unfold frame_for, first_frame, pos_for, axis_bars, lazy_ranges.
  destruct (channel_axis im sep), (frame_axis im); reflexivity.
Qed.



Lemma loaded_rgb_stack_ok : lazy_ok rgb_stack (loaded true rgb_stack).
Proof.
  split; [reflexivity | reflexivity |].
  repeat constructor; cbn; lia.
Qed.



(** ** Dense arrays *)

Lemma updateFrame_ndarray_raises (s : Viewer) (a : ndarray) :
  _image s = Some (NdArray a) -> (2 <= ndim a)%nat ->
  updateFrame s = (Err TypeError, s).
Proof.
  intros Himg Hn. unfold updateFrame, bind at 1, get. rewrite Himg.
  unfold ndim in Hn. destruct (shape a) as [|r [|c rest]] eqn:E; cbn in Hn; try lia.
  unfold bind, lift, currentIndexes.
  rewrite (py_getitem_first (r :: c :: rest) 0%nat) by discriminate.
  assert (E1 : py_getitem (r :: c :: rest) 1 = Ok c).
  { unfold py_getitem. rewrite (py_index_nonneg _ 1) by (cbn [length]; lia). reflexivity. }
  rewrite E1. reflexivity.
Qed.

Lemma dense_loop (a : ndarray) :
  forall (rest done : list QScrollBar) (exts : list nat) (s : Viewer),
    _scrollbars s = done ++ rest ->
    Forall (fun sb => value sb = 0) rest ->
    skipn (length done + 2) (shape a) = exts ->
    length rest = length exts ->
    for_each (seq (length done) (length rest))
      (fun i =>
         k <- scrollbar_at (Z.of_nat i) ;;
         n <- lift (py_getitem (shape a) (Z.of_nat i + 2)) ;;
         scrollbar_setRange k 0 (Z.of_nat n) ;;
         scrollbar_setValue k 0) s
    = (Ok tt, set_scrollbars (done ++ map dense_bar exts) s).
Proof.
  induction rest as [|sb rest IH]; intros done exts s Hb Hz Hsk Hlen.
  - destruct exts; [|discriminate]. cbn [length seq for_each map ret].
    rewrite <- Hb, set_scrollbars_same. reflexivity.
  - destruct exts as [|n exts]; [discriminate|]. injection Hlen as Hlen.
    inversion Hz as [|? ? Hv Hz']; subst.
    destruct (skipn_cons_nth _ _ _ _ Hsk) as [Hn Hsk'].
    cbn [length seq for_each].
    assert (Hlt : (length done < length (_scrollbars s))%nat)
      by (rewrite Hb, length_app; cbn; lia).
    assert (Hk : nth_error (_scrollbars s) (length done) = Some sb)
      by (rewrite Hb; apply nth_error_middle).
    unfold bind at 1. unfold bind at 1.
    rewrite (scrollbar_at_nat s _ Hlt).
    unfold bind at 1, lift at 1.
    replace (Z.of_nat (length done) + 2) with (Z.of_nat (length done + 2)) by lia.
    rewrite (py_getitem_nat _ _ _ Hn).
    rewrite (reset_bar (length done) (Z.of_nat n) s sb Hk Hv) by lia.
    rewrite Hb, list_set_middle.
    set (s1 := set_scrollbars (done ++ dense_bar n :: rest) s).
    assert (Hb1 : _scrollbars s1 = (done ++ [dense_bar n]) ++ rest)
      by (unfold s1; cbn [_scrollbars set_scrollbars]; rewrite <- app_assoc; reflexivity).
    assert (Hsk1 : skipn (length (done ++ [dense_bar n]) + 2) (shape a) = exts)
      by (rewrite length_app, Nat.add_1_r; exact Hsk').
    pose proof (IH (done ++ [dense_bar n]) exts s1 Hb1 Hz' Hsk1 Hlen) as Hrun.
    rewrite length_app, Nat.add_1_r in Hrun. cbn [length] in Hrun.
    refine (eq_trans Hrun _). unfold s1. cbn [map]. rewrite <- app_assoc. reflexivity.
Qed.

(** Under PyQt5, or when no bar has to be created, the array branch of
    the set-up is the resizing followed by the loop over the bars. *)
Lemma dense_setup_eq (a : ndarray) (s : Viewer) :
  binding s = PyQt5 \/ (ndim a - 2 <= length (_scrollbars s))%nat ->
  updateViewer_scrollbars (NdArray a) s
  = (resize_scrollbars (Z.to_nat (Z.max 0 (Z.of_nat (ndim a) - 2))) ;;
     for_each (seq 0 (Z.to_nat (Z.max 0 (Z.of_nat (ndim a) - 2))))
       (fun i =>
          k <- scrollbar_at (Z.of_nat i) ;;
          n <- lift (py_getitem (shape a) (Z.of_nat i + 2)) ;;
          scrollbar_setRange k 0 (Z.of_nat n) ;;
          scrollbar_setValue k 0)) s.
Proof.
  intros H. unfold updateViewer_scrollbars, bind at 1, get.
  destruct (Nat.ltb_spec (length (_scrollbars s))
              (Z.to_nat (Z.max 0 (Z.of_nat (ndim a) - 2)))) as [Hlt|Hge].
  - destruct H as [H|H]; [|lia].
    unfold bind at 1, Qt_Horizontal, bind at 1, get. rewrite H. reflexivity.
  - reflexivity.
Qed.

(** Under PyQt5, on a widget without bars, [setImage] of an array leaves
    one bar per axis beyond the first two, in axis order, each with range
    [0, extent]. *)
Lemma dense_bars (a : ndarray) (s : Viewer) :
  binding s = PyQt5 -> _scrollbars s = [] ->
  _scrollbars (snd (setImage (Some (NdArray a)) s)) = map dense_bar (skipn 2 (shape a)).
Proof.
  intros Hq Hb. unfold setImage, bind at 1, modify.
  set (s0 := set_image (Some (NdArray a)) s).
  unfold updateViewer, bind at 1, get. cbn [_image s0 set_image].
  rewrite bars_then.
  2:{ apply kb_bind; [apply kb_get|]. intros s'. apply kb_bind; [|intros; apply kb_updateFrame].
      destruct (_ && _); apply kb_modify; intros; reflexivity. }
  rewrite (dense_setup_eq a s0 (or_introl Hq)).
  unfold bind at 1, resize_scrollbars, modify.
  set (n := Z.to_nat (Z.max 0 (Z.of_nat (ndim a) - 2))).
  assert (Hn : n = length (skipn 2 (shape a))).
  { unfold n, ndim. rewrite length_skipn. lia. }
  change (_scrollbars s0) with (_scrollbars s). rewrite Hb.
  cbn [length]. replace (n <? 0)%nat with false by (symmetry; apply Nat.ltb_ge; lia).
  cbn [app]. rewrite Nat.sub_0_r.
  set (s1 := set_scrollbars (repeat new_QScrollBar n) s0).
  assert (Hz : Forall (fun sb => value sb = 0) (repeat new_QScrollBar n)).
  { apply Forall_forall. intros x Hx. apply repeat_spec in Hx. subst. reflexivity. }
  pose proof (dense_loop a (repeat new_QScrollBar n) [] (skipn 2 (shape a)) s1
                eq_refl Hz eq_refl) as Hrun.
  rewrite repeat_length in Hrun. cbn [length app] in Hrun.
  rewrite (Hrun Hn). reflexivity.
Qed.

Lemma dense_2d_has_no_bars (h w : nat) (d : list Z) :
  _scrollbars (loaded_array {| shape := [h; w]; data := d |}) = [].
Proof.
  exact (dense_bars {| shape := [h; w]; data := d |} fresh eq_refl eq_refl).
Qed.

(** C1 (the code misses the claim).  For the (100,100,5) array under index
    vector [[3]] the claim expects the (100,100) slice at depth 3.  The
    dense path of [updateFrame] binds [indexes] to the value of
    [list.extend], which is [None], and raises [TypeError] on unpacking it:
    the state is unchanged, there is no current frame and nothing was
    handed to the viewer. *)
Theorem dense_resolve_raises_TypeError (d : list Z) :
  let s := snd (setCurrentIndexes [3] (loaded_array (stack_100_100_5 d))) in
  indexes_of s = [3] /\
  updateFrame s = (Err TypeError, s) /\
  _currentFrame s = None /\
  shown (trace s) = [].
Proof. vm_compute. repeat split. Qed.

(** C2 (the code misses the claim).  For the (100,100,5) array
    [updateViewer] creates one bar, as claimed, but gives it the range
    [0, 5] where the claim (and the PIL path, which subtracts 1) has
    [0, 4]. *)
Theorem dense_axis_range_off_by_one (d : list Z) :
  _scrollbars (loaded_array (stack_100_100_5 d))
  = [{| minimum := 0; maximum := 5; value := 0 |}].
Proof. vm_compute. reflexivity. Qed.

(** C8 (the code misses the claim).  On the (100,100,5) array two
    successive [updateFrame] calls both raise [TypeError] and neither
    produces a current frame, where the claim has exactly one frame per
    call. *)
Theorem dense_resolve_produces_no_frame (d : list Z) :
  let s := loaded_array (stack_100_100_5 d) in
  let r1 := updateFrame s in
  let r2 := updateFrame (snd r1) in
  fst r1 = Err TypeError /\ fst r2 = Err TypeError /\
  _currentFrame (snd r1) = None /\ _currentFrame (snd r2) = None /\
  shown (trace (snd r2)) = [].
Proof. vm_compute. repeat split. Qed.

(** ** Setting the index vector *)

Lemma set_loop_lazy (im : PILImage) (idx : list Z) :
  forall (pre rest : list QScrollBar) (s : Viewer),
    lazy_ok im s -> _scrollbars s = pre ++ rest -> length rest = length idx ->
    exists s',
      for_each (combine (seq (length pre) (length idx)) idx)
        (fun '(i, index) =>
           k <- scrollbar_at (Z.of_nat i) ;;
           scrollbar_setValue k index) s = (Ok tt, s') /\
      lazy_ok im s' /\
      _scrollbars s' = pre ++ clamp_all rest idx /\
      _separateChannels s' = _separateChannels s.
Proof.
  induction idx as [|i idx IH]; intros pre rest s Hok Hbars Hlen.
  - destruct rest; [|discriminate]. exists s. cbn. repeat split; try apply Hok.
    exact Hbars.
  - destruct rest as [|sb rest]; [discriminate|]. cbn in Hlen. injection Hlen as Hlen.
    cbn [length seq combine for_each].
    assert (Hk : nth_error (_scrollbars s) (length pre) = Some sb)
      by (rewrite Hbars; apply nth_error_middle).
    assert (Hlt : (length pre < length (_scrollbars s))%nat)
      by (rewrite Hbars, length_app; cbn; lia).
    destruct (scrollbar_setValue_lazy im (length pre) i s sb Hok Hk) as (Hrun & Hok1 & _).
    unfold bind at 1. unfold bind at 1.
    rewrite (scrollbar_at_nat s _ Hlt), Hrun.
    set (s1 := setValue_lazy im (length pre) i s) in *.
    assert (Hb1 : _scrollbars s1 = (pre ++ [with_value (bound sb i) sb]) ++ rest).
    { unfold s1. rewrite (setValue_lazy_bars im _ _ _ _ Hk), Hbars, list_set_middle.
      rewrite <- app_assoc. reflexivity. }
    destruct (IH (pre ++ [with_value (bound sb i) sb]) rest s1 Hok1 Hb1 Hlen)
      as (s' & Hrun' & Hok' & Hb' & Hsep').
    rewrite length_app, Nat.add_1_r in Hrun'. cbn [length] in Hrun'.
    exists s'. split; [exact Hrun'|]. split; [exact Hok'|]. split.
    + rewrite Hb', <- app_assoc. reflexivity.
    + rewrite Hsep'. apply setValue_lazy_sep.
Qed.

(** [setCurrentIndexes] on a widget showing a PIL image never fails: every
    index is bounded into its bar's range and the frame for the bounded
    index vector is resolved. *)
Lemma setCurrentIndexes_lazy (im : PILImage) (s : Viewer) (idx : list Z) :
  lazy_ok im s -> length idx = length (_scrollbars s) ->
  exists s',
    setCurrentIndexes idx s = (Ok tt, s') /\
    lazy_ok im s' /\
    _scrollbars s' = clamp_all (_scrollbars s) idx /\
    _separateChannels s' = _separateChannels s /\
    _currentFrame s' = Some (resolved_frame im s') /\
    exists tr, trace s' = tr ++ resolve_events im s'.
Proof.
  intros Hok Hlen. unfold setCurrentIndexes.
  destruct (set_loop_lazy im idx [] (_scrollbars s) s Hok eq_refl (eq_sym Hlen))
    as (s1 & Hrun & Hok1 & Hb1 & Hsep1).
  cbn [length app] in Hrun, Hb1.
  rewrite (bind_ok _ _ _ _ _ Hrun), (updateFrame_lazy im s1 Hok1).
  exists (after_resolve im s1). split; [reflexivity|].
  split; [apply lazy_ok_after_resolve; exact Hok1|].
  split; [exact Hb1|]. split; [exact Hsep1|].
  assert (E : resolved_frame im (after_resolve im s1) = resolved_frame im s1).
  { unfold resolved_frame, frame_for, pos_for, current_tell, after_resolve, indexes_of,
      resolved_pos, pos_for.
    cbn [_image _separateChannels _scrollbars tell set_tell].
    destruct (frame_axis im); reflexivity. }
  split.
  - rewrite E. reflexivity.
  - exists (trace s1). cbn [trace after_resolve]. unfold resolve_events.
    rewrite E. reflexivity.
Qed.

Lemma clamp_all_at_end (bars : list QScrollBar) (idx : list Z) :
  Forall in_range bars ->
  Forall2 (fun sb i => i = axis_size sb - 1 \/ i = axis_size sb) bars idx ->
  map value (clamp_all bars idx) = map maximum bars.
Proof.
  intros Hv H. induction H as [|sb i bars idx Hi H IH]; [reflexivity|].
  inversion Hv as [|? ? Hsb Hrest]; subst.
  unfold clamp_all in *. cbn [combine map fst snd with_value value].
  rewrite (IH Hrest). f_equal.
  unfold bound, axis_size, in_range in *. lia.
Qed.

(** C5, amended.  On a widget showing a PIL image whose bars match its
    axes, [setCurrentIndexes] with every index equal to its axis's size or
    to size-1 never fails: each bar bounds its index to size-1, the ranges
    are unchanged, and the current frame is the one resolved for the
    bounded index vector. *)
Theorem index_at_axis_size_is_bounded (im : PILImage) (s : Viewer) (idx : list Z) :
  lazy_ok im s ->
  Forall2 (fun sb i => i = axis_size sb - 1 \/ i = axis_size sb) (_scrollbars s) idx ->
  exists s',
    setCurrentIndexes idx s = (Ok tt, s') /\
    indexes_of s' = map (fun sb => axis_size sb - 1) (_scrollbars s) /\
    map sb_range (_scrollbars s') = map sb_range (_scrollbars s) /\
    _currentFrame s' = Some (resolved_frame im s').
Proof.
  intros Hok H.
  assert (Hlen : length idx = length (_scrollbars s))
    by (symmetry; eapply Forall2_length; exact H).
  destruct (setCurrentIndexes_lazy im s idx Hok Hlen)
    as (s' & Hrun & Hok' & Hb & Hsep & Hfr & _).
  exists s'. split; [exact Hrun|]. split; [|split; [|exact Hfr]].
  - unfold indexes_of. rewrite Hb, (clamp_all_at_end _ _ (lo_vals _ _ Hok) H).
    apply map_ext. intros sb. unfold axis_size. lia.
  - rewrite (lo_bars _ _ Hok'), (lo_bars _ _ Hok), Hsep. reflexivity.
Qed.

Lemma index_at_axis_size_is_bounded_witness :
  exists s',
    setCurrentIndexes [3; 10] (loaded true rgb_stack) = (Ok tt, s') /\
    indexes_of s' = [2; 9].
Proof.
  assert (H : Forall2 (fun sb i => i = axis_size sb - 1 \/ i = axis_size sb)
                (_scrollbars (loaded true rgb_stack)) [3; 10]).
  { repeat constructor; right; reflexivity. }
  destruct (index_at_axis_size_is_bounded rgb_stack (loaded true rgb_stack) [3; 10]
              loaded_rgb_stack_ok H) as (s' & H1 & H2 & _).
  exists s'. split; [exact H1 | exact H2].
Defined.

(** C5 as stated fails: index 10 on an axis of size 10 raises nothing and
    ends as index 9. *)
Lemma index_at_axis_size_accepted :
  let s := loaded false rgb_stack in
  map axis_size (_scrollbars s) = [10] /\
  fst (setCurrentIndexes [10] s) = Ok tt /\
  (forall e, fst (setCurrentIndexes [10] s) <> Err e) /\
  indexes_of (snd (setCurrentIndexes [10] s)) = [9].
Proof.
  vm_compute. repeat split; intros; discriminate.
Qed.

(** ** The mouse wheel *)

(** C10.  With at least one bar, wheel-scrolls-frame on and a last axis of
    size above 1, a wheel event leaves every bar but the last untouched and
    moves the last index by +1 (negative [angleDelta().y()]) or -1
    (otherwise), staying put at the maximum and at 0 respectively; the
    index stays within [0, maximum].  This holds whatever [updateFrame]
    then returns. *)
Theorem wheel_steps_last_index_within_range (s : Viewer) (y : Z)
  (pre : list QScrollBar) (sb : QScrollBar) :
  _scrollbars s = pre ++ [sb] ->
  _wheelScrollsFrame s = true ->
  1 < maximum sb + 1 ->
  minimum sb = 0 -> 0 <= value sb <= maximum sb ->
  let i := value sb in
  let i' := if y <? 0 then (if i <? maximum sb then i + 1 else i)
            else (if 0 <? i then i - 1 else i) in
  _scrollbars (snd (wheelEvent y s)) = pre ++ [with_value i' sb] /\
  indexes_of (snd (wheelEvent y s)) = map value pre ++ [i'] /\
  0 <= i' <= maximum sb.
Proof.
  intros E Hw Hmax Hmin Hv i i'.
  assert (Hbars : _scrollbars (snd (wheelEvent y s)) = pre ++ [with_value i' sb]).
  { unfold wheelEvent, bind at 1, get. rewrite E, length_app. cbn [length].
    replace (length pre + 1 =? 0)%nat with false by (symmetry; apply Nat.eqb_neq; lia).
    rewrite (bind_ok _ _ _ _ _ (scrollbar_at_last s pre sb E)).
    unfold bind at 1, get_scrollbar. rewrite E, nth_error_last_app.
    rewrite Hw. replace (1 <? maximum sb + 1) with true by (symmetry; apply Z.ltb_lt; lia).
    cbn [andb]. replace (maximum sb + 1 - 1) with (maximum sb) by lia.
    assert (Hsame : pre ++ [sb] = pre ++ [with_value (value sb) sb]) by (destruct sb; reflexivity).
    assert (Hk : nth_error (_scrollbars s) (length pre) = Some sb)
      by (rewrite E; apply nth_error_last_app).
    subst i'. fold i.
    destruct (y <? 0).
    - destruct (Z.ltb_spec i (maximum sb)); [|cbn [ret snd]; rewrite E; exact Hsame].
      rewrite bars_then by apply kb_updateFrame.
      rewrite (scrollbar_setValue_eq _ _ _ _ Hk).
      rewrite bound_id by (unfold i in *; lia).
      replace (value sb =? i + 1) with false by (symmetry; apply Z.eqb_neq; unfold i; lia).
      rewrite kb_updateFrame. unfold move_bar. rewrite Hk.
      cbn [_scrollbars set_scrollbars]. rewrite E. apply list_set_last.
    - destruct (Z.ltb_spec 0 i); [|cbn [ret snd]; rewrite E; exact Hsame].
      rewrite bars_then by apply kb_updateFrame.
      rewrite (scrollbar_setValue_eq _ _ _ _ Hk).
      rewrite bound_id by (unfold i in *; lia).
      replace (value sb =? i - 1) with false by (symmetry; apply Z.eqb_neq; unfold i; lia).
      rewrite kb_updateFrame. unfold move_bar. rewrite Hk.
      cbn [_scrollbars set_scrollbars]. rewrite E. apply list_set_last. }
  split; [exact Hbars|]. split.
  - unfold indexes_of. rewrite Hbars, map_app. reflexivity.
  - subst i'. destruct (y <? 0); [destruct (Z.ltb_spec i (maximum sb))
                                 | destruct (Z.ltb_spec 0 i)]; unfold i in *; lia.
Qed.

Lemma wheel_steps_last_index_within_range_witness :
  indexes_of (snd (wheelEvent (-120) (loaded false rgb_stack))) = [1] /\
  indexes_of (snd (wheelEvent 120 (loaded false rgb_stack))) = [0].
Proof.
  assert (H3 : 1 < 9 + 1) by lia.
  assert (H5 : 0 <= 0 <= 9) by lia.
  split.
  - exact (proj1 (proj2 (wheel_steps_last_index_within_range
                           (loaded false rgb_stack) (-120) []
                           {| minimum := 0; maximum := 9; value := 0 |}
                           eq_refl eq_refl H3 eq_refl H5))).
  - exact (proj1 (proj2 (wheel_steps_last_index_within_range
                           (loaded false rgb_stack) 120 []
                           {| minimum := 0; maximum := 9; value := 0 |}
                           eq_refl eq_refl H3 eq_refl H5))).
Defined.

(** ** Playback *)

Lemma processEvents_eq (s : Viewer) :
  QApplication_bound s = true ->
  processEvents s =
  (Ok tt, match pending s with
          | [] => s
          | true :: r => set_isPlaying false (set_pending r s)
          | false :: r => set_pending r s
          end).
Proof.
  intros H. unfold processEvents, bind at 1, get. rewrite H.
  destruct (pending s) as [|[|] r]; reflexivity.
Qed.

(** One pass of the play loop body up to [processEvents]: the state after
    [setValue(i)] and the explicit [updateFrame()]. *)
Lemma play_step_lazy (im : PILImage) (pre : list QScrollBar) (sb : QScrollBar)
  (i : Z) (s : Viewer) :
  lazy_ok im s -> _scrollbars s = pre ++ [sb] ->
  minimum sb <= i <= maximum sb ->
  exists s2,
    bind (scrollbar_setValue (length pre) i) (fun _ => updateFrame) s = (Ok tt, s2) /\
    lazy_ok im s2 /\
    _scrollbars s2 = pre ++ [with_value i sb] /\
    _separateChannels s2 = _separateChannels s /\
    QApplication_bound s2 = QApplication_bound s /\
    pending s2 = pending s /\
    _isPlaying s2 = _isPlaying s /\
    (frame_axis im = false -> current_tell s2 = current_tell s) /\
    shown (trace s2) =
      shown (trace s) ++
      map (fun j => frame_for im (_separateChannels s) (current_tell s)
                      (map value pre ++ [j]))
          (if value sb =? i then [i] else [i; i]).
Proof.
  intros Hok Hbars Hi.
  assert (Hk : nth_error (_scrollbars s) (length pre) = Some sb)
    by (rewrite Hbars; apply nth_error_last_app).
  destruct (scrollbar_setValue_lazy im (length pre) i s sb Hok Hk) as (Hrun & Hok1 & _).
  pose proof (setValue_lazy_bars im (length pre) i s sb Hk) as Hb1.
  rewrite (bound_id sb i Hi), Hbars, list_set_last in Hb1.
  rewrite (bind_ok _ _ _ _ _ Hrun), (updateFrame_lazy im _ Hok1).
  set (s1 := setValue_lazy im (length pre) i s) in *.
  exists (after_resolve im s1).
  split; [reflexivity|]. split; [apply lazy_ok_after_resolve; exact Hok1|].
  split; [exact Hb1|].
  assert (Hidx1 : indexes_of s1 = map value pre ++ [i]).
  { unfold indexes_of. rewrite Hb1, map_app. reflexivity. }
  assert (Hf : _separateChannels s1 = _separateChannels s /\
               QApplication_bound s1 = QApplication_bound s /\
               pending s1 = pending s /\ _isPlaying s1 = _isPlaying s /\
               (frame_axis im = false -> current_tell s1 = current_tell s) /\
               shown (trace s1) = shown (trace s) ++
                 (if value sb =? i then []
                  else [frame_for im (_separateChannels s) (current_tell s)
                          (map value pre ++ [i])])).
  { unfold s1 in *. unfold setValue_lazy in *. rewrite Hk in *.
    rewrite (bound_id sb i Hi) in *.
    destruct (value sb =? i).
    - repeat split; try reflexivity. rewrite app_nil_r. reflexivity.
    - set (s0 := move_bar (length pre) i s) in *.
      assert (Hs0 : _separateChannels s0 = _separateChannels s /\
                    current_tell s0 = current_tell s /\ trace s0 = trace s)
        by (unfold s0, move_bar; rewrite Hk; repeat split; reflexivity).
      destruct Hs0 as (Hsep0 & Ht0 & Htr0).
      repeat split; try (unfold s0, move_bar; rewrite Hk; reflexivity).
      + intros EF. rewrite (tell_after_resolve im s0 EF). exact Ht0.
      + rewrite shown_after_resolve, Htr0. f_equal.
        unfold resolved_frame. rewrite Hsep0, Ht0. f_equal.
        change (indexes_of s0) with (indexes_of (after_resolve im s0)).
        rewrite Hidx1. reflexivity. }
  destruct Hf as (Hsep1 & Hq1 & Hp1 & Hpl1 & Ht1 & Hsh1).
  repeat split; try assumption.
  - intros EF. rewrite (tell_after_resolve im s1 EF). apply Ht1. exact EF.
  - rewrite shown_after_resolve, Hsh1.
    unfold resolved_frame. rewrite Hsep1, Hidx1.
    rewrite (frame_for_tell im _ (current_tell s1) (current_tell s) _ Ht1).
    destruct (value sb =? i); cbn [map]; rewrite <- ?app_assoc; reflexivity.
Qed.

Lemma play_loop_lazy (im : PILImage) (pre : list QScrollBar) :
  forall (todo : list Z) (s : Viewer) (sb : QScrollBar),
    lazy_ok im s -> QApplication_bound s = true -> _isPlaying s = true ->
    _scrollbars s = pre ++ [sb] ->
    Forall (fun i => minimum sb <= i <= maximum sb) todo ->
    exists s',
      play_loop todo s = (Ok tt, s') /\
      lazy_ok im s' /\
      _scrollbars s' = pre ++ [with_value (stop_at (value sb) todo (pending s)) sb] /\
      shown (trace s') =
        shown (trace s) ++
        map (fun j => frame_for im (_separateChannels s) (current_tell s)
                        (map value pre ++ [j]))
            (visits (value sb) todo (pending s)).
Proof.
  induction todo as [|i rest IH]; intros s sb Hok Hq Hpl Hbars Hall.
  - exists s. cbn [play_loop stop_at visits map]. rewrite with_value_same, app_nil_r.
    repeat split; try apply Hok. exact Hbars.
  - inversion Hall as [|? ? Hi Hrest]; subst.
    destruct (play_step_lazy im pre sb i s Hok Hbars Hi)
      as (s2 & Hrun & Hok2 & Hb2 & Hsep2 & Hq2 & Hp2 & Hpl2 & Ht2 & Hsh2).
    cbn [play_loop].
    rewrite (bind_ok _ _ _ _ _ (scrollbar_at_last s pre sb Hbars)).
    rewrite bind_assoc_seq, (bind_ok _ _ _ _ _ Hrun).
    assert (Hrest' : Forall (fun j => minimum (with_value i sb) <= j <= maximum (with_value i sb)) rest)
      by exact Hrest.
    assert (Hfr : forall (s3 : Viewer),
               _separateChannels s3 = _separateChannels s2 ->
               current_tell s3 = current_tell s2 ->
               forall j, frame_for im (_separateChannels s3) (current_tell s3)
                           (map value pre ++ [j])
                         = frame_for im (_separateChannels s) (current_tell s)
                             (map value pre ++ [j])).
    { intros s3 E1 E2 j. rewrite E1, E2, Hsep2. apply frame_for_tell. exact Ht2. }
    pose proof (processEvents_eq s2 (eq_trans Hq2 Hq)) as Hpe. rewrite Hp2 in Hpe.
    cbn [stop_at visits].
    destruct (pending s) as [|[|] r] eqn:Ep; rewrite (bind_ok _ _ _ _ _ Hpe);
      unfold bind at 1, get; cbn [_isPlaying set_isPlaying set_pending];
      rewrite ?Hpl2, ?Hpl; cbn [negb].
    + destruct (IH s2 (with_value i sb) Hok2 (eq_trans Hq2 Hq) (eq_trans Hpl2 Hpl) Hb2 Hrest')
        as (s' & Hrun' & Hok' & Hb' & Hsh').
      exists s'. split; [exact Hrun'|]. split; [exact Hok'|]. split.
      * rewrite Hb', Hp2. reflexivity.
      * rewrite Hsh', Hsh2, Hp2, map_app, <- app_assoc. f_equal. f_equal.
        apply map_ext. intros j. apply (Hfr s2 eq_refl eq_refl).
    + eexists. split; [reflexivity|]. split; [|split].
      * apply (lazy_ok_ext im s2); [exact Hok2 | reflexivity ..].
      * exact Hb2.
      * cbn [trace set_isPlaying set_pending]. rewrite Hsh2, app_nil_r. reflexivity.
    + assert (Hok3 : lazy_ok im (set_pending r s2))
        by (apply (lazy_ok_ext im s2); [exact Hok2 | reflexivity ..]).
      destruct (IH (set_pending r s2) (with_value i sb) Hok3
                  (eq_trans Hq2 Hq) (eq_trans Hpl2 Hpl) Hb2 Hrest')
        as (s' & Hrun' & Hok' & Hb' & Hsh').
      exists s'. split; [exact Hrun'|]. split; [exact Hok'|]. split.
      * exact Hb'.
      * rewrite Hsh'. cbn [trace set_pending pending value with_value].
        rewrite Hsh2, map_app, <- app_assoc. f_equal. f_equal.
        apply map_ext. intros j. apply (Hfr (set_pending r s2)); reflexivity.
Qed.

Lemma stop_at_range (n : nat) :
  forall (a b v : Z) (p : list bool),
    Z.to_nat (b - a) = n -> a < b ->
    stop_at v (range a b) p =
    match first_pause p with
    | Some k => Z.min (b - 1) (a + Z.of_nat k)
    | None => b - 1
    end.
Proof.
  induction n as [|m IH]; intros a b v p Hn Hab; [lia|].
  rewrite (range_cons a b Hab). cbn [stop_at].
  destruct (Z.lt_ge_cases (a + 1) b) as [Hlt|Hge].
  - destruct p as [|[|] p']; cbn [first_pause].
    + rewrite (IH (a + 1) b a [] ltac:(lia) Hlt). reflexivity.
    + lia.
    + rewrite (IH (a + 1) b a p' ltac:(lia) Hlt).
      destruct (first_pause p'); cbn [option_map]; lia.
  - rewrite (range_nil (a + 1) b Hge).
    destruct p as [|[|] p']; cbn [first_pause stop_at]; try lia.
    destruct (first_pause p'); cbn [option_map]; lia.
Qed.


Lemma stop_at_play (first last : Z) (p : list bool) :
  first <= last ->
  stop_at first (range first (last + 1)) p = play_stop first last p.
Proof.
  intros H. rewrite (stop_at_range _ first (last + 1) first p eq_refl) by lia.
  unfold play_stop. destruct (first_pause p); lia.
Qed.




(** Unpaused, playing from index 2 of a 5-frame axis visits 2, 3, 4 and
    stops there. *)
Example play_from_2_of_5 :
  let s := snd (setCurrentIndexes [2] (loaded false gray16_stack)) in
  fst (play s) = Ok tt /\
  indexes_of (snd (play s)) = [4] /\
  _isPlaying (snd (play s)) = false /\
  shown (trace (snd (play s))) =
    shown (trace s) ++
    map (fun f => ArrayFrame (decode gray16_stack f)) [2; 3; 3; 4; 4]%nat.
Proof. vm_compute. repeat split. Qed.


(** Without [QApplication] in the module namespace the first pass of the
    play loop ends in a [NameError], leaving [_isPlaying] set. *)
Lemma play_without_QApplication (im : PILImage) (s : Viewer)
  (pre : list QScrollBar) (sb : QScrollBar) :
  lazy_ok im s -> QApplication_bound s = false -> _scrollbars s = pre ++ [sb] ->
  fst (play s) = Err NameError /\
  _isPlaying (snd (play s)) = true /\
  _scrollbars (snd (play s)) = _scrollbars s.
Proof.
  intros Hok Hq Hbars.
  assert (Hin : minimum sb <= value sb <= maximum sb).
  { pose proof (lo_vals _ _ Hok) as Hv. rewrite Hbars in Hv.
    apply Forall_app in Hv. destruct Hv as [_ Hv]. inversion Hv; subst. assumption. }
  set (s0 := set_isPlaying true s).
  assert (Hb0 : _scrollbars s0 = pre ++ [sb]) by exact Hbars.
  assert (Hok0 : lazy_ok im s0) by (apply (lazy_ok_ext im s); [exact Hok | reflexivity ..]).
  destruct (play_step_lazy im pre sb (value sb) s0 Hok0 Hb0 Hin)
    as (s2 & Hrun & _ & Hb2 & _ & Hq2 & _ & Hpl2 & _).
  assert (Hpe : processEvents s2 = (Err NameError, s2)).
  { unfold processEvents, bind, get. rewrite Hq2. cbn [QApplication_bound s0 set_isPlaying].
    rewrite Hq. reflexivity. }
  assert (Hloop : play_loop (range (value sb) (maximum sb + 1)) s0 = (Err NameError, s2)).
  { rewrite (range_cons (value sb) (maximum sb + 1)) by lia. cbn [play_loop].
    rewrite (bind_ok _ _ _ _ _ (scrollbar_at_last s0 pre sb Hb0)).
    rewrite bind_assoc_seq, (bind_ok _ _ _ _ _ Hrun).
    apply bind_err. exact Hpe. }
  assert (Hplay : play s = (Err NameError, s2)).
  { unfold play, bind at 1, get. rewrite Hbars, length_app. cbn [length].
    replace (length pre + 1 =? 0)%nat with false by (symmetry; apply Nat.eqb_neq; lia).
    unfold bind at 1, modify. fold s0.
    rewrite (bind_ok _ _ _ _ _ (scrollbar_at_last s0 pre sb Hb0)).
    unfold bind at 1, get_scrollbar. rewrite Hb0, nth_error_last_app.
    apply bind_err. exact Hloop. }
  rewrite Hplay. cbn [fst snd].
  split; [reflexivity|]. split; [exact Hpl2|].
  rewrite Hb2, with_value_same. symmetry. exact Hbars.
Qed.

(** ** Opening a file *)

(** C9.  Opening a path that is empty or names no existing file (given as
    argument or returned by the file dialog) returns normally and leaves
    the whole widget state, the stored image source included, exactly as it
    was. *)
Theorem open_missing_file_keeps_state (s : Viewer) (filepath : option string) :
  let path := match filepath with Some p => p | None => dialogAnswer s end in
  path = EmptyString \/ files s path = None ->
  open filepath s = (Ok tt, s).
Proof.
  intros path H. unfold open, bind.
  assert (E : (match filepath with None => getOpenFileName | Some p => ret p end) s
              = (Ok path, s)) by (destruct filepath; reflexivity).
  rewrite E. unfold os_path_isfile.
  destruct H as [H|H]; rewrite H.
  - reflexivity.
  - rewrite andb_false_r. reflexivity.
Qed.

Lemma open_missing_file_keeps_state_witness :
  let s := init_state PyQt6 None false no_files EmptyString [] None in
  open (Some "missing.tif"%string) s = (Ok tt, s).
Proof.
  intros s. apply (open_missing_file_keeps_state s (Some "missing.tif"%string)).
  right. reflexivity.
Defined.

(** ** Widgets in step with a PIL image *)

Lemma resolved_frame_after_resolve (im : PILImage) (s : Viewer) :
  resolved_frame im (after_resolve im s) = resolved_frame im s.
Proof.
  unfold resolved_frame, frame_for, pos_for, current_tell, after_resolve, indexes_of,
    resolved_pos, pos_for.
  cbn [_image _separateChannels _scrollbars tell set_tell].
  destruct (frame_axis im); reflexivity.
Qed.

Lemma synced_after_resolve (im : PILImage) (s : Viewer) :
  lazy_ok im s -> synced im (after_resolve im s).
Proof.
  intros Hok. split; [apply lazy_ok_after_resolve; exact Hok|]. split.
  - rewrite resolved_frame_after_resolve. reflexivity.
  - intros EF. unfold current_tell, after_resolve, resolved_pos, pos_for.
    cbn [_image tell set_tell]. rewrite EF. reflexivity.
Qed.

Lemma axis_bars_zero (im : PILImage) (sep : bool) :
  Forall (fun sb => value sb = 0) (axis_bars im sep).
Proof.
  unfold axis_bars. apply Forall_forall. intros sb H.
  apply in_map_iff in H. destruct H as (r & <- & _). reflexivity.
Qed.

(** [updateViewer] on a widget that holds the PIL object [im] and whose
    indexes are all 0. *)
Lemma updateViewer_synced (im : PILImage) (s : Viewer) :
  _image s = Some (PIL im) ->
  Forall (fun sb => value sb = 0) (_scrollbars s) ->
  exists s',
    updateViewer s = (Ok tt, s') /\ synced im s' /\
    _scrollbars s' = axis_bars im (_separateChannels s) /\
    _separateChannels s' = _separateChannels s /\
    _currentFrame s' = Some (first_frame im (_separateChannels s) (tell im)) /\
    shown (trace s') =
      shown (trace s) ++ [first_frame im (_separateChannels s) (tell im)].
Proof.
  intros Himg Hz. unfold updateViewer, bind at 1, get. rewrite Himg.
  unfold bind at 1. rewrite (updateViewer_scrollbars_lazy im s Hz).
  unfold bind at 1, get. unfold bind at 1.
  destruct (axis_bars_ok im (_separateChannels s)) as [Hr Hv].
  match goal with |- context [if ?b then _ else _] => destruct b end;
    unfold modify.
  all: match goal with |- context [updateFrame ?st] =>
         assert (Hok : lazy_ok im st)
           by (split; [apply shows_of_image; exact Himg | exact Hr | exact Hv]);
         assert (Hfr : resolved_frame im st = first_frame im (_separateChannels s) (tell im))
           by (unfold resolved_frame, indexes_of, current_tell;
               cbn [_image _scrollbars _separateChannels set_scrollbars
                    set_viewer_wheelZoomFactor];
               rewrite Himg; apply frame_for_zeros);
         rewrite (updateFrame_lazy im st Hok);
         exists (after_resolve im st); split; [reflexivity|];
         split; [apply synced_after_resolve; exact Hok|];
         split; [reflexivity|]; split; [reflexivity|]; split;
         [ cbn [_currentFrame after_resolve]; rewrite Hfr; reflexivity
         | rewrite shown_after_resolve, Hfr; reflexivity ]
       end.
Qed.

Lemma updateViewer_scrollbars_defective (d : Defect) (im : PILImage) (s : Viewer) :
  d <> NoFrameCount ->
  updateViewer_scrollbars (PILDefective d im) s = updateViewer_scrollbars (PIL im) s.
Proof. intros H. destruct d; [contradiction H| |]; reflexivity. Qed.

(** [updateViewer] on a widget that holds a defective file object: without
    [n_frames] nothing at all happens before the [AttributeError]; with
    another defect, and all indexes at 0, the scrollbars are set up and the
    display of the first frame fails. *)
Lemma updateViewer_defective (d : Defect) (im : PILImage) (s : Viewer) (e : exn) :
  _image s = Some (PILDefective d im) ->
  display_failure d im (_separateChannels s) = Some e ->
  (d = NoFrameCount -> updateViewer s = (Err e, s)) /\
  (d <> NoFrameCount -> Forall (fun sb => value sb = 0) (_scrollbars s) ->
   exists s',
     updateViewer s = (Err e, s') /\
     _scrollbars s' = axis_bars im (_separateChannels s) /\
     _image s' = Some (PILDefective d (if frame_axis im then set_tell 0 im else im)) /\
     _currentFrame s' = _currentFrame s /\
     shown (trace s') = shown (trace s)).
Proof.
  intros Himg He. split.
  - intros ->. cbn in He. injection He as <-.
    unfold updateViewer, bind at 1, get. rewrite Himg. reflexivity.
  - intros Hd Hz. unfold updateViewer, bind at 1, get. rewrite Himg.
    unfold bind at 1.
    rewrite (updateViewer_scrollbars_defective d im s Hd),
            (updateViewer_scrollbars_lazy im s Hz).
    unfold bind at 1, get. unfold bind at 1.
    assert (Hlast : frame_axis im = true ->
              axis_bars im (_separateChannels s) <> [] /\
              0 <= last (map value (axis_bars im (_separateChannels s))) 0 < n_frames im).
    { intros EF. unfold axis_bars, lazy_ranges. rewrite EF.
      unfold frame_axis in EF. apply Z.ltb_lt in EF.
      destruct (channel_axis im (_separateChannels s)); cbn; split;
        try discriminate; lia. }
    assert (Hhd : channel_axis im (_separateChannels s) = true ->
              axis_bars im (_separateChannels s) <> []).
    { intros EC. unfold axis_bars, lazy_ranges. rewrite EC. discriminate. }
    assert (Hl0 : frame_axis im = true ->
              last (map value (axis_bars im (_separateChannels s))) 0 = 0).
    { intros EF. unfold axis_bars, lazy_ranges. rewrite EF.
      destruct (channel_axis im (_separateChannels s)); reflexivity. }
    destruct (_ && _); unfold modify;
      match goal with |- context [updateFrame ?st] =>
        rewrite (updateFrame_defective d im st e Himg He Hlast Hhd);
        exists (match d with NoFrameCount => st | _ => after_seek d im st end)
      end;
      (split; [reflexivity|]);
      destruct d; try contradiction (Hd eq_refl); unfold after_seek, indexes_of;
      cbn [_scrollbars set_scrollbars set_viewer_wheelZoomFactor];
      destruct (frame_axis im) eqn:EF; rewrite ?(Hl0 eq_refl);
      cbn [_scrollbars _image _currentFrame trace log set_image set_scrollbars
           set_viewer_wheelZoomFactor];
      rewrite ?shown_app, ?app_nil_r; cbn [shown flat_map app];
      rewrite ?app_nil_r; repeat split; try assumption; reflexivity.
Qed.

(** X1.  [setImage] with a PIL file object that has [n_frames] and whose
    frames load, on a widget whose indexes are all 0, returns normally.  The
    scrollbars become those of the image's axes (the channel axis when
    there are several bands and channel separation is on, then the frame
    axis when there are several frames), all at 0, and the widget is in
    step with them.  The current frame is the first frame: its band 0 under
    channel separation, else the display image when [toqimage] converts it
    and the raw array when it raises [ValueError]; for a single-frame file
    it is decoded at the file's seek position.  Exactly this frame is
    handed to the image viewer.  The constructor called with such an object
    does the same from an empty widget with channel separation off, in
    every environment.  With a file object that has no [n_frames],
    [setImage] raises [AttributeError] having done nothing but store it.
    With one whose display fails otherwise (pixel data that does not load,
    or no [ImageQt] when there is no channel axis) it sets up the
    scrollbars and raises that failure.  In both cases nothing is handed to
    the image viewer and the current frame is the one from before. *)
Theorem image_load_shows_first_frame (im : PILImage) (s : Viewer) :
  (Forall (fun sb => value sb = 0) (_scrollbars s) ->
   exists s',
     setImage (Some (PIL im)) s = (Ok tt, s') /\ synced im s' /\
     _scrollbars s' = axis_bars im (_separateChannels s) /\
     _currentFrame s' = Some (first_frame im (_separateChannels s) (tell im)) /\
     shown (trace s') =
       shown (trace s) ++ [first_frame im (_separateChannels s) (tell im)]) /\
  (forall qt zoom0 bound_app fs answer reqs,
   exists s',
     QtImageStackViewer_init qt zoom0 bound_app fs answer reqs (Some (PIL im))
     = (Ok tt, s') /\
     synced im s' /\
     _scrollbars s' = (if frame_axis im then [mk_QScrollBar 0 (n_frames im - 1) 0] else []) /\
     _currentFrame s' = Some (first_frame im false (tell im)) /\
     shown (trace s') = [first_frame im false (tell im)]) /\
  setImage (Some (PILDefective NoFrameCount im)) s
  = (Err AttributeError, set_image (Some (PILDefective NoFrameCount im)) s) /\
  (forall d e,
     d <> NoFrameCount -> display_failure d im (_separateChannels s) = Some e ->
     Forall (fun sb => value sb = 0) (_scrollbars s) ->
     exists s',
       setImage (Some (PILDefective d im)) s = (Err e, s') /\
       _scrollbars s' = axis_bars im (_separateChannels s) /\
       _currentFrame s' = _currentFrame s /\
       shown (trace s') = shown (trace s)).
Proof.
  split; [|split; [|split]].
  - intros Hz. unfold setImage, bind, modify.
    destruct (updateViewer_synced im (set_image (Some (PIL im)) s) eq_refl Hz)
      as (s' & H1 & H2 & H3 & _ & H5 & H6).
    exists s'. rewrite H1. repeat split; try apply H2; assumption.
  - intros qt zoom0 bound_app fs answer reqs. unfold QtImageStackViewer_init.
    destruct (updateViewer_synced im
                (init_state qt zoom0 bound_app fs answer reqs (Some (PIL im)))
                eq_refl (Forall_nil _))
      as (s' & H1 & H2 & H3 & _ & H5 & H6).
    exists s'. split; [exact H1|]. split; [exact H2|]. split; [|split; assumption].
    rewrite H3. unfold axis_bars, lazy_ranges, channel_axis.
    cbn [_separateChannels init_state]. rewrite andb_false_r.
    destruct (frame_axis im); reflexivity.
  - unfold setImage, bind, modify.
    exact (proj1 (updateViewer_defective NoFrameCount im
                    (set_image (Some (PILDefective NoFrameCount im)) s)
                    AttributeError eq_refl eq_refl) eq_refl).
  - intros d e Hd He Hz. unfold setImage, bind, modify.
    destruct (proj2 (updateViewer_defective d im
                       (set_image (Some (PILDefective d im)) s) e eq_refl He) Hd Hz)
      as (s' & H1 & H2 & _ & H4 & H5).
    exists s'. split; [exact H1|]. split; [exact H2|]. split; [exact H4 | exact H5].
Qed.

Lemma image_load_shows_first_frame_witness :
  (exists s',
     setImage (Some (PIL gray16_stack)) (loaded true rgb_stack) = (Ok tt, s') /\
     _scrollbars s' = [mk_QScrollBar 0 4 0] /\
     _currentFrame s' = Some (ArrayFrame (decode gray16_stack 0))) /\
  (exists s',
     setImage (Some (PILDefective Truncated gray16_stack)) (loaded true rgb_stack)
     = (Err OSError, s') /\
     _scrollbars s' = [mk_QScrollBar 0 4 0] /\
     _currentFrame s' = Some (ArrayFrame (channel_plane rgb_stack 0 0))).
Proof.
  assert (Hz : Forall (fun sb => value sb = 0) (_scrollbars (loaded true rgb_stack)))
    by (repeat constructor).
  destruct (image_load_shows_first_frame gray16_stack (loaded true rgb_stack))
    as (H & _ & _ & K).
  split.
  - destruct (H Hz) as (s' & H1 & _ & H3 & H4 & _).
    exists s'. split; [exact H1|]. split; [exact H3 | exact H4].
  - assert (Hd : Truncated <> NoFrameCount) by discriminate.
    destruct (K Truncated OSError Hd eq_refl Hz) as (s' & H1 & H2 & H3 & _).
    exists s'. split; [exact H1|]. split; [exact H2 | exact H3].
Defined.

Lemma synced_set_tell (im : PILImage) (t : Z) (s : Viewer) :
  synced (set_tell t im) s -> synced im s.
Proof.
  intros ([H1 H2 H3] & H4 & H5).
  split; [split; [exact H1 | exact H2 | exact H3] |]. split; [exact H4 | exact H5].
Qed.

Lemma first_frame_pos (im : PILImage) (sep : bool) (t : Z) :
  first_frame im sep (if frame_axis im then 0 else t) = first_frame im sep t.
Proof. unfold first_frame. destruct (frame_axis im); reflexivity. Qed.

Lemma setSeparateChannels_synced (im : PILImage) (s : Viewer) (tf : bool) :
  shows im s -> Forall (fun sb => value sb = 0) (_scrollbars s) ->
  exists s',
    setSeparateChannels tf s = (Ok tt, s') /\ synced im s' /\
    _separateChannels s' = tf /\
    _scrollbars s' = axis_bars im tf /\
    _currentFrame s' = Some (first_frame im tf (current_tell s)) /\
    current_tell s' = (if frame_axis im then 0 else current_tell s) /\
    shown (trace s') = shown (trace s) ++ [first_frame im tf (current_tell s)].
Proof.
  intros Hs Hz. unfold setSeparateChannels, bind, modify.
  set (s0 := set_separateChannels tf s).
  assert (Hi : _image s0 = Some (PIL (set_tell (current_tell s) im))) by exact Hs.
  destruct (updateViewer_synced (set_tell (current_tell s) im) s0 Hi Hz)
    as (s' & H1 & H2 & H3 & H4 & H5 & H6).
  exists s'. rewrite H1. split; [reflexivity|].
  split; [exact (synced_set_tell im _ s' H2)|].
  split; [exact H4|]. split; [exact H3|]. split; [exact H5|]. split; [|exact H6].
  destruct H2 as (Hok & _ & Ht).
  change (frame_axis (set_tell (current_tell s) im)) with (frame_axis im) in Ht.
  destruct (frame_axis im) eqn:EF.
  - rewrite (Ht eq_refl). unfold indexes_of. rewrite H3.
    unfold axis_bars, lazy_ranges.
    change (frame_axis (set_tell (current_tell s) im)) with (frame_axis im). rewrite EF.
    destruct (channel_axis _ _); reflexivity.
  - clear Ht. unfold updateViewer, bind at 1, get in H1. rewrite Hi in H1.
    unfold bind at 1 in H1.
    rewrite (updateViewer_scrollbars_lazy _ s0 Hz) in H1.
    unfold bind at 1, get in H1. unfold bind at 1 in H1.
    destruct (axis_bars_ok (set_tell (current_tell s) im) (_separateChannels s0)) as [Hr Hv].
    match type of H1 with context [if ?b then _ else _] => destruct b end;
      unfold modify in H1;
      match type of H1 with context [updateFrame ?st] =>
        assert (Hok1 : lazy_ok (set_tell (current_tell s) im) st)
          by (split; [apply shows_of_image; exact Hi | exact Hr | exact Hv]);
        rewrite (updateFrame_lazy _ st Hok1) in H1;
        injection H1 as <-;
        rewrite tell_after_resolve by exact EF;
        unfold current_tell at 1;
        cbn [_image set_scrollbars set_viewer_wheelZoomFactor];
        rewrite Hi; reflexivity
      end.
Qed.

(** X2.  [setSeparateChannels(tf)] on a widget showing a PIL image, with all
    indexes at 0, returns normally: it stores [tf], rebuilds the scrollbars
    for the axes the image has under the new mode (all at 0) and leaves the
    widget in step, the current frame being the first frame (its band 0
    when the new mode gives a channel axis).  For an image with at most one
    band the mode makes no difference: [true] and [false] leave the same
    scrollbars and the same current frame. *)
Theorem separation_toggle_rebuilds_axes (im : PILImage) (s : Viewer) (tf : bool) :
  shows im s -> Forall (fun sb => value sb = 0) (_scrollbars s) ->
  (exists s',
     setSeparateChannels tf s = (Ok tt, s') /\ synced im s' /\
     _separateChannels s' = tf /\
     _scrollbars s' =
       (if (1 <? Z.of_nat (length (getbands im))) && tf
        then [mk_QScrollBar 0 (Z.of_nat (length (getbands im)) - 1) 0] else []) ++
       (if 1 <? n_frames im then [mk_QScrollBar 0 (n_frames im - 1) 0] else []) /\
     _currentFrame s' = Some (first_frame im tf (current_tell s))) /\
  ((length (getbands im) <= 1)%nat ->
   _scrollbars (snd (setSeparateChannels true s))
   = _scrollbars (snd (setSeparateChannels false s)) /\
   _currentFrame (snd (setSeparateChannels true s))
   = _currentFrame (snd (setSeparateChannels false s))).
Proof.
  intros Hs Hz. split.
  - destruct (setSeparateChannels_synced im s tf Hs Hz)
      as (s' & H1 & H2 & H3 & H4 & H5 & _).
    exists s'. repeat split; try apply H2; try assumption.
    rewrite H4. unfold axis_bars, lazy_ranges, channel_axis, frame_axis.
    destruct ((1 <? Z.of_nat (length (getbands im))) && tf), (1 <? n_frames im);
      reflexivity.
  - intros HC.
    destruct (setSeparateChannels_synced im s true Hs Hz)
      as (s1 & R1 & _ & _ & B1 & F1 & _).
    destruct (setSeparateChannels_synced im s false Hs Hz)
      as (s2 & R2 & _ & _ & B2 & F2 & _).
    rewrite R1, R2. cbn [snd]. rewrite B1, B2, F1, F2.
    assert (E : forall b, channel_axis im b = false).
    { intros b. unfold channel_axis.
      replace (1 <? Z.of_nat (length (getbands im))) with false
        by (symmetry; apply Z.ltb_ge; lia).
      reflexivity. }
    unfold axis_bars, lazy_ranges, first_frame. rewrite !E. split; reflexivity.
Qed.

Lemma separation_toggle_rebuilds_axes_witness :
  exists s',
    setSeparateChannels true (loaded false rgb_stack) = (Ok tt, s') /\
    _scrollbars s' = [mk_QScrollBar 0 2 0; mk_QScrollBar 0 9 0] /\
    _currentFrame s' = Some (ArrayFrame (channel_plane rgb_stack 0 0)).
Proof.
  assert (Hs : shows rgb_stack (loaded false rgb_stack)) by reflexivity.
  assert (Hz : Forall (fun sb => value sb = 0) (_scrollbars (loaded false rgb_stack)))
    by (repeat constructor).
  destruct (separation_toggle_rebuilds_axes rgb_stack (loaded false rgb_stack) true Hs Hz)
    as [(s' & H1 & _ & _ & H4 & H5) _].
  exists s'. split; [exact H1|]. split; [exact H4 | exact H5].
Defined.

Lemma bars_of_zero_lazy (im : PILImage) (s : Viewer) :
  lazy_ok im s -> Forall (fun sb => value sb = 0) (_scrollbars s) ->
  _scrollbars s = axis_bars im (_separateChannels s).
Proof.
  intros [_ Hb _] Hz. unfold axis_bars. rewrite <- Hb, map_map.
  rewrite <- (map_id (_scrollbars s)) at 1. apply map_ext_in.
  intros sb Hin. rewrite Forall_forall in Hz. specialize (Hz sb Hin).
  destruct sb; cbn in *. subst. reflexivity.
Qed.

(** X3.  On a widget in step with a PIL image, with all indexes at 0,
    switching channel separation to the other mode and back again returns
    normally both times and restores the mode, the scrollbars and the
    current frame the widget started with. *)
Theorem separation_toggle_round_trip (im : PILImage) (s : Viewer) :
  synced im s -> Forall (fun sb => value sb = 0) (_scrollbars s) ->
  let b := _separateChannels s in
  let s1 := snd (setSeparateChannels (negb b) s) in
  let s2 := snd (setSeparateChannels b s1) in
  fst (setSeparateChannels (negb b) s) = Ok tt /\
  fst (setSeparateChannels b s1) = Ok tt /\
  _separateChannels s2 = b /\
  _scrollbars s2 = _scrollbars s /\
  _currentFrame s2 = _currentFrame s.
Proof.
  intros (Hok & Hfr & Ht) Hz b s1 s2.
  destruct (setSeparateChannels_synced im s (negb b) (lo_image _ _ Hok) Hz)
    as (t1 & R1 & S1 & _ & B1 & _ & T1 & _).
  assert (E1 : s1 = t1) by (unfold s1; rewrite R1; reflexivity).
  assert (Hz1 : Forall (fun sb => value sb = 0) (_scrollbars t1))
    by (rewrite B1; apply axis_bars_zero).
  destruct S1 as (Hok1 & _).
  destruct (setSeparateChannels_synced im t1 b (lo_image _ _ Hok1) Hz1)
    as (t2 & R2 & _ & P2 & B2 & F2 & _).
  assert (E2 : s2 = t2) by (unfold s2; rewrite E1, R2; reflexivity).
  rewrite R1, E1, R2, E2. cbn [fst].
  split; [reflexivity|]. split; [reflexivity|]. split; [exact P2|]. split.
  - rewrite B2. symmetry. apply (bars_of_zero_lazy im s Hok Hz).
  - rewrite F2, Hfr, T1, first_frame_pos. f_equal.
    unfold resolved_frame, indexes_of.
    rewrite (bars_of_zero_lazy im s Hok Hz).
    symmetry. apply frame_for_zeros.
Qed.

Lemma separation_toggle_round_trip_witness :
  let s := loaded false rgb_stack in
  let s2 := snd (setSeparateChannels false (snd (setSeparateChannels true s))) in
  _scrollbars s2 = _scrollbars s /\ _currentFrame s2 = _currentFrame s.
Proof.
  assert (Hs : synced rgb_stack (loaded false rgb_stack)).
  { split; [|split; reflexivity]. split; [reflexivity | reflexivity |].
    repeat constructor; cbn; lia. }
  assert (Hz : Forall (fun sb => value sb = 0) (_scrollbars (loaded false rgb_stack)))
    by (repeat constructor).
  destruct (separation_toggle_round_trip rgb_stack (loaded false rgb_stack) Hs Hz)
    as (_ & _ & _ & H4 & H5).
  split; [exact H4 | exact H5].
Defined.

(** ** Relations kept by every step *)

Section Steps.

Variable R : Viewer -> Viewer -> Prop.
Hypothesis R_refl : forall s, R s s.
Hypothesis R_trans : forall a b c, R a b -> R b c -> R a c.

Lemma rs_ret {A : Type} (a : A) : respects R (ret a).
Proof. intros s. apply R_refl. Qed.

Lemma rs_raise {A : Type} (e : exn) : respects R (@raise A e).
Proof. intros s. apply R_refl. Qed.

Lemma rs_lift {A : Type} (r : result A) : respects R (lift r).
Proof. intros s. apply R_refl. Qed.

Lemma rs_get : respects R get.
Proof. intros s. apply R_refl. Qed.

Lemma rs_modify (f : Viewer -> Viewer) : (forall s, R s (f s)) -> respects R (modify f).
Proof. intros H s. apply H. Qed.

Lemma rs_bind_at {A B : Type} (m : M A) (k : A -> M B) (s : Viewer) :
  R s (snd (m s)) -> (forall a, respects R (k a)) -> R s (snd (bind m k s)).
Proof.
  intros Hm Hk. unfold bind. destruct (m s) as [[a|e] s1]; cbn [snd] in *.
  - apply (R_trans _ s1); [exact Hm | apply Hk].
  - exact Hm.
Qed.

Lemma rs_bind {A B : Type} (m : M A) (k : A -> M B) :
  respects R m -> (forall a, respects R (k a)) -> respects R (bind m k).
Proof. intros Hm Hk s. apply rs_bind_at; [apply Hm | exact Hk]. Qed.

Lemma rs_try {A : Type} (body handler : M A) (e : exn) :
  respects R body -> respects R handler -> respects R (try_except body e handler).
Proof.
  intros Hb Hh s. unfold try_except. specialize (Hb s).
  destruct (body s) as [[a|e'] s1]; cbn [snd] in *; [exact Hb|].
  destruct (same_exn e e'); [|exact Hb].
  apply (R_trans _ s1); [exact Hb | apply Hh].
Qed.

Lemma rs_for_each {A : Type} (l : list A) (body : A -> M unit) :
  (forall x, respects R (body x)) -> respects R (for_each l body).
Proof.
  intros H. induction l as [|x l IH]; cbn [for_each]; [apply rs_ret|].
  apply rs_bind; [apply H | intros _; exact IH].
Qed.

Lemma rs_scrollbar_at (i : Z) : respects R (scrollbar_at i).
Proof.
  intros s. unfold scrollbar_at. destruct (py_index _ _); apply R_refl.
Qed.

Lemma rs_get_scrollbar (k : nat) : respects R (get_scrollbar k).
Proof.
  intros s. unfold get_scrollbar. destruct (nth_error _ _); apply R_refl.
Qed.

Lemma rs_currentIndexes : respects R currentIndexes.
Proof. intros s. apply R_refl. Qed.

Lemma rs_updateLabel : respects R updateLabel.
Proof.
  unfold updateLabel. apply rs_bind; [apply rs_get|]. intros s.
  destruct (_image s) as [[a|im|d im]|]; try apply rs_ret.
  apply rs_bind; [apply rs_lift|]. intros _.
  apply rs_bind; [apply rs_lift|]. intros _. apply rs_ret.
Qed.

Lemma rs_Qt_Horizontal : respects R Qt_Horizontal.
Proof.
  unfold Qt_Horizontal. apply rs_bind; [apply rs_get|]. intros s.
  destruct (binding s); [apply rs_raise | apply rs_ret].
Qed.

Lemma rs_os_path_isfile (p : string) : respects R (os_path_isfile p).
Proof. intros s. apply R_refl. Qed.

Lemma rs_Image_open (p : string) : respects R (Image_open p).
Proof.
  intros s. unfold Image_open. destruct (files s p) as [[im| |d im]|]; apply R_refl.
Qed.

Lemma rs_getOpenFileName : respects R getOpenFileName.
Proof. intros s. apply R_refl. Qed.

(** *** Resolving a frame *)

Section Resolve.

Hypothesis R_seek : forall s im f,
  _image s = Some (PIL im) -> (1 <? n_frames im) = true ->
  R s (log (EvSeek f) (set_image (Some (PIL (set_tell f im))) s)).
Hypothesis R_seek_defective : forall s d im f,
  _image s = Some (PILDefective d im) -> (1 <? n_frames im) = true ->
  R s (log (EvSeek f) (set_image (Some (PILDefective d (set_tell f im))) s)).
Hypothesis R_array : forall s, R s (log EvArray s).
Hypothesis R_toqimage : forall s, R s (log EvToQImage s).
Hypothesis R_show : forall s fr,
  R s (log (EvSetImage fr) (set_currentFrame (Some fr) s)).

Lemma rs_image_array : respects R image_array.
Proof.
  intros s. unfold image_array. destruct (_image s) as [[a|im|[] im]|]; cbn [snd];
    try apply R_refl; apply R_array.
Qed.

Lemma rs_image_toqimage : respects R image_toqimage.
Proof.
  intros s. unfold image_toqimage. destruct (_image s) as [[a|im|[] im]|]; cbn [snd];
    try apply R_refl;
    (destruct (toqimage_supported im); cbn [snd]; [apply R_toqimage | apply R_refl]).
Qed.

(** What follows the seek in the file branch of [updateFrame]. *)
Lemma rs_display (sep : bool) (idx : list Z) :
  respects R
    ((if sep
      then channelIndex <- lift (py_getitem idx 0) ;;
           arr <- image_array ;;
           fr <- lift (ndarray_getitem_axis2 arr channelIndex) ;;
           modify (set_currentFrame (Some (ArrayFrame fr))) ;;
           imageViewer_setImage (ArrayFrame fr)
      else try_except
             (q <- image_toqimage ;;
              modify (set_currentFrame (Some (QImageFrame q))) ;;
              imageViewer_setImage (QImageFrame q))
             ValueError
             (arr <- image_array ;;
              modify (set_currentFrame (Some (ArrayFrame arr))) ;;
              imageViewer_setImage (ArrayFrame arr))) ;;
     updateLabel).
Proof.
  apply rs_bind; [|intros _; apply rs_updateLabel].
  destruct sep.
  - apply rs_bind; [apply rs_lift|]. intros ci.
    apply rs_bind; [apply rs_image_array|]. intros arr.
    apply rs_bind; [apply rs_lift|]. intros fr. intros s. apply R_show.
  - apply rs_try.
    + apply rs_bind; [apply rs_image_toqimage|]. intros q. intros s. apply R_show.
    + apply rs_bind; [apply rs_image_array|]. intros arr. intros s. apply R_show.
Qed.

Lemma rs_show (fr : Frame) :
  respects R (modify (set_currentFrame (Some fr)) ;; imageViewer_setImage fr).
Proof. intros s. apply R_show. Qed.

Lemma rs_show_then {B : Type} (fr : Frame) (k : M B) :
  respects R k ->
  respects R (modify (set_currentFrame (Some fr)) ;; imageViewer_setImage fr ;; k).
Proof.
  intros Hk s.
  apply (R_trans _ (log (EvSetImage fr) (set_currentFrame (Some fr) s)));
    [apply R_show | apply Hk].
Qed.

Lemma rs_updateFrame : respects R updateFrame.
Proof.
  intros s. unfold updateFrame, bind at 1, get.
  destruct (_image s) as [[a|im|d im]|] eqn:Hi; [| | |apply R_refl].
  - revert s Hi. intros s _. revert s.
    apply rs_bind; [apply rs_lift|]. intros r.
    apply rs_bind; [apply rs_lift|]. intros c.
    apply rs_bind; [apply rs_currentIndexes|]. intros idx.
    apply rs_bind; [apply rs_lift|]. intros args.
    apply rs_bind; [apply rs_lift|]. intros fr.
    apply rs_show_then, rs_updateLabel.
  - unfold bind at 1, currentIndexes.
    apply rs_bind_at; [|intros _; apply rs_display].
    destruct (1 <? n_frames im) eqn:EF; [|apply R_refl].
    unfold bind, lift. destruct (py_getitem _ _) as [f|e]; [|apply R_refl].
    unfold image_seek. rewrite Hi. unfold PIL_seek.
    destruct (_ && _); cbn [snd]; [|apply R_refl].
    apply R_seek; assumption.
  - destruct d; [apply R_refl | |];
      (unfold bind at 1, currentIndexes;
       apply rs_bind_at; [|intros _; apply rs_display];
       destruct (1 <? n_frames im) eqn:EF; [|apply R_refl];
       unfold bind, lift; destruct (py_getitem _ _) as [f|e]; [|apply R_refl];
       unfold image_seek; rewrite Hi; unfold PIL_seek;
       destruct (_ && _); cbn [snd]; [|apply R_refl];
       apply R_seek_defective; assumption).
Qed.

End Resolve.

(** *** Navigation: the methods that move a bar *)

Section Navigation.

Hypothesis R_frame : respects R updateFrame.
Hypothesis R_move : forall s k sb v,
  nth_error (_scrollbars s) k = Some sb ->
  R s (set_scrollbars (list_set (_scrollbars s) k (with_value (bound sb v) sb)) s).
Hypothesis R_playing : forall s b, R s (set_isPlaying b s).
Hypothesis R_pending : forall s r, R s (set_pending r s).

Lemma rs_scrollbar_setValue (k : nat) (v : Z) : respects R (scrollbar_setValue k v).
Proof.
  intros s. unfold scrollbar_setValue, bind at 1, get_scrollbar.
  destruct (nth_error (_scrollbars s) k) as [sb|] eqn:E; [|apply R_refl].
  destruct (value sb =? bound sb v); [apply R_refl|].
  unfold bind, put_scrollbar, modify.
  eapply R_trans; [apply (R_move s k sb v E) | apply R_frame].
Qed.

Lemma rs_setCurrentIndexes (idx : list Z) : respects R (setCurrentIndexes idx).
Proof.
  unfold setCurrentIndexes. apply rs_bind; [|intros _; apply R_frame].
  apply rs_for_each. intros [i index].
  apply rs_bind; [apply rs_scrollbar_at|]. intros k. apply rs_scrollbar_setValue.
Qed.

Lemma rs_wheelEvent (y : Z) : respects R (wheelEvent y).
Proof.
  unfold wheelEvent. apply rs_bind; [apply rs_get|]. intros s.
  destruct (_ =? _)%nat; [apply rs_ret|].
  apply rs_bind; [apply rs_scrollbar_at|]. intros k.
  apply rs_bind; [apply rs_get_scrollbar|]. intros sb.
  destruct (_ && _); [|apply rs_ret].
  destruct (y <? 0).
  - destruct (_ <? _); [|apply rs_ret].
    apply rs_bind; [apply rs_scrollbar_setValue | intros _; apply R_frame].
  - destruct (_ <? _); [|apply rs_ret].
    apply rs_bind; [apply rs_scrollbar_setValue | intros _; apply R_frame].
Qed.

Lemma rs_pause : respects R pause.
Proof. intros s. apply R_playing. Qed.

Lemma rs_processEvents : respects R processEvents.
Proof.
  unfold processEvents. apply rs_bind; [apply rs_get|]. intros s.
  destruct (QApplication_bound s); [|apply rs_raise].
  destruct (pending s) as [|p rest]; [apply rs_ret|].
  apply rs_bind; [apply rs_modify; intros s1; apply R_pending|]. intros _.
  destruct p; [apply rs_pause | apply rs_ret].
Qed.

Lemma rs_play_loop (todo : list Z) : respects R (play_loop todo).
Proof.
  induction todo as [|i rest IH]; cbn [play_loop]; [apply rs_ret|].
  apply rs_bind; [apply rs_scrollbar_at|]. intros k.
  apply rs_bind; [apply rs_scrollbar_setValue|]. intros _.
  apply rs_bind; [apply R_frame|]. intros _.
  apply rs_bind; [apply rs_processEvents|]. intros _.
  apply rs_bind; [apply rs_get|]. intros s.
  destruct (negb _); [apply rs_ret | exact IH].
Qed.

Lemma rs_play : respects R play.
Proof.
  unfold play. apply rs_bind; [apply rs_get|]. intros s.
  destruct (_ =? _)%nat; [apply rs_ret|].
  apply rs_bind; [apply rs_modify; intros s1; apply R_playing|]. intros _.
  apply rs_bind; [apply rs_scrollbar_at|]. intros k.
  apply rs_bind; [apply rs_get_scrollbar|]. intros sb.
  apply rs_bind; [apply rs_play_loop|]. intros _.
  apply rs_modify. intros s1. apply R_playing.
Qed.

(** *** Set-up: [updateViewer] and the methods that call it *)

Hypothesis R_image : forall s x, R s (set_image x s).
Hypothesis R_separate : forall s b, R s (set_separateChannels b s).
Hypothesis R_resize : forall s n, R s (set_scrollbars (resized n (_scrollbars s)) s).
Hypothesis R_setRange : forall k mn mx, respects R (scrollbar_setRange k mn mx).
Hypothesis R_clear : forall s, R s (set_scrollbars [] (log EvClearImage s)).
Hypothesis R_zoom : forall s z, R s (set_viewer_wheelZoomFactor z s).

Lemma rs_resize_scrollbars (n : nat) : respects R (resize_scrollbars n).
Proof. intros s. apply R_resize. Qed.

Lemma rs_updateViewer_scrollbars (src : ImageSource) :
  respects R (updateViewer_scrollbars src).
Proof.
  assert (Hfile : forall im, respects R (updateViewer_scrollbars (PIL im))).
  { intros im. cbn [updateViewer_scrollbars].
    apply rs_bind; [apply rs_get|]. intros s.
    apply rs_bind; [apply rs_resize_scrollbars|]. intros _.
    apply rs_bind.
    - destruct (_ && _); [|apply rs_ret].
      apply rs_bind; [apply rs_scrollbar_at|]. intros k.
      apply rs_bind; [apply R_setRange|]. intros _.
      apply rs_bind; [apply rs_scrollbar_setValue|]. intros _. apply rs_ret.
    - intros i. destruct (1 <? n_frames im); [|apply rs_ret].
      apply rs_bind; [apply rs_scrollbar_at|]. intros k.
      apply rs_bind; [apply R_setRange|]. intros _. apply rs_scrollbar_setValue. }
  destruct src as [a|im|d im]; [|apply Hfile|].
  - cbn [updateViewer_scrollbars].
    apply rs_bind; [apply rs_get|]. intros s.
    apply rs_bind;
      [destruct (_ <? _)%nat; [apply rs_Qt_Horizontal | apply rs_ret]|]. intros _.
    apply rs_bind; [apply rs_resize_scrollbars|]. intros _.
    apply rs_for_each. intros i.
    apply rs_bind; [apply rs_scrollbar_at|]. intros k.
    apply rs_bind; [apply rs_lift|]. intros n.
    apply rs_bind; [apply R_setRange|]. intros _. apply rs_scrollbar_setValue.
  - destruct d; [apply rs_raise | apply (Hfile im) | apply (Hfile im)].
Qed.

Lemma rs_updateViewer : respects R updateViewer.
Proof.
  unfold updateViewer. apply rs_bind; [apply rs_get|]. intros s.
  destruct (_image s) as [src|].
  - apply rs_bind; [apply rs_updateViewer_scrollbars|]. intros _.
    apply rs_bind; [apply rs_get|]. intros s1.
    apply rs_bind; [|intros _; apply R_frame].
    destruct (_ && _); apply rs_modify; intros s2; apply R_zoom.
  - intros s1. apply R_clear.
Qed.

Lemma rs_setImage (x : option ImageSource) : respects R (setImage x).
Proof.
  unfold setImage. apply rs_bind; [|intros _; apply rs_updateViewer].
  apply rs_modify. intros s. apply R_image.
Qed.

Lemma rs_setSeparateChannels (tf : bool) : respects R (setSeparateChannels tf).
Proof.
  unfold setSeparateChannels. apply rs_bind; [|intros _; apply rs_updateViewer].
  apply rs_modify. intros s. apply R_separate.
Qed.

Lemma rs_open (filepath : option string) : respects R (open filepath).
Proof.
  unfold open. apply rs_bind.
  - destruct filepath; [apply rs_ret | apply rs_getOpenFileName].
  - intros path. apply rs_bind; [apply rs_os_path_isfile|]. intros isf.
    destruct (_ && _); [|apply rs_ret].
    apply rs_bind; [apply rs_Image_open|]. intros im. apply rs_setImage.
Qed.

End Navigation.

End Steps.

(** ** Indexes stay within their ranges *)

Lemma keeps_in_range_refl (s : Viewer) : keeps_in_range s s.
Proof. intros H. exact H. Qed.

Lemma keeps_in_range_trans (a b c : Viewer) :
  keeps_in_range a b -> keeps_in_range b c -> keeps_in_range a c.
Proof. intros H1 H2 H. apply H2, H1, H. Qed.

Lemma in_range_moved (l : list QScrollBar) (k : nat) (sb : QScrollBar) (v : Z) :
  Forall in_range l -> nth_error l k = Some sb ->
  Forall in_range (list_set l k (with_value (bound sb v) sb)).
Proof.
  intros Hl Hk. apply Forall_list_set; [exact Hl|].
  apply bound_in_range.
  rewrite Forall_forall in Hl. specialize (Hl sb (nth_error_In _ _ Hk)).
  unfold in_range in Hl. lia.
Qed.

Lemma in_range_resized (n : nat) (l : list QScrollBar) :
  Forall in_range l -> Forall in_range (resized n l).
Proof.
  intros Hl. unfold resized. apply Forall_app. split.
  - destruct (n <? length l)%nat; [|exact Hl].
    rewrite <- (firstn_skipn n l) in Hl. apply Forall_app in Hl. apply Hl.
  - apply Forall_forall. intros sb Hin. apply repeat_spec in Hin. subst sb.
    unfold in_range, new_QScrollBar. cbn. lia.
Qed.

Lemma setValue_unbound (k : nat) (v : Z) (s : Viewer) :
  nth_error (_scrollbars s) k = None ->
  scrollbar_setValue k v s = (Err IndexError, s).
Proof.
  intros H. unfold scrollbar_setValue, bind, get_scrollbar. rewrite H. reflexivity.
Qed.

(** The bars [setRange] leaves, whether or not the slot it runs raises. *)
Lemma setRange_bars (k : nat) (mn mx : Z) (s : Viewer) (sb : QScrollBar) :
  nth_error (_scrollbars s) k = Some sb ->
  _scrollbars (snd (scrollbar_setRange k mn mx s))
  = if (minimum sb =? mn) && (maximum sb =? Z.max mn mx) then _scrollbars s
    else list_set (_scrollbars s) k
           (mk_QScrollBar mn (Z.max mn mx)
              (bound (mk_QScrollBar mn (Z.max mn mx) (value sb)) (value sb))).
Proof.
  intros Hk. rewrite (scrollbar_setRange_eq k mn mx s sb Hk).
  destruct ((minimum sb =? mn) && (maximum sb =? Z.max mn mx)) eqn:E;
    [reflexivity|].
  set (s1 := set_scrollbars _ s).
  assert (H1 : nth_error (_scrollbars s1) k
               = Some (mk_QScrollBar mn (Z.max mn mx) (value sb)))
    by (apply (nth_error_list_set _ _ sb); exact Hk).
  rewrite (setValue_bars k (value sb) s1 _ H1).
  unfold s1. cbn [_scrollbars set_scrollbars]. rewrite list_set_twice.
  reflexivity.
Qed.

Lemma keeps_in_range_setRange (k : nat) (mn mx : Z) :
  respects keeps_in_range (scrollbar_setRange k mn mx).
Proof.
  intros s H.
  destruct (nth_error (_scrollbars s) k) as [sb|] eqn:Hk.
  - rewrite (setRange_bars k mn mx s sb Hk).
    destruct (_ && _); [exact H|].
    apply Forall_list_set; [exact H|].
    apply (bound_in_range (mk_QScrollBar mn (Z.max mn mx) (value sb))).
    cbn. lia.
  - unfold scrollbar_setRange, bind, get_scrollbar. rewrite Hk. exact H.
Qed.

(** ** The current frame and the frames displayed *)

Lemma last_cons_indep {A : Type} (l : list A) (x d d' : A) :
  last (x :: l) d = last (x :: l) d'.
Proof.
  revert x. induction l as [|y l IH]; intros x; [reflexivity|].
  change (last (y :: l) d = last (y :: l) d'). apply IH.
Qed.

Lemma last_app_default {A : Type} (a b : list A) (d : A) :
  last (a ++ b) d = last b (last a d).
Proof.
  induction a as [|x a IH]; [reflexivity|].
  destruct a as [|y a].
  - destruct b as [|z b]; [reflexivity|].
    change (last (z :: b) d = last (z :: b) x). apply last_cons_indep.
  - change (last ((y :: a) ++ b) d = last b (last (y :: a) d)). exact IH.
Qed.

Lemma displays_refl (s : Viewer) : displays s s.
Proof. exists []. rewrite app_nil_r. split; reflexivity. Qed.

Lemma displays_trans (a b c : Viewer) :
  displays a b -> displays b c -> displays a c.
Proof.
  intros (l1 & H1 & F1) (l2 & H2 & F2). exists (l1 ++ l2).
  rewrite H2, H1, app_assoc. split; [reflexivity|].
  rewrite F2, F1, map_app, last_app_default. reflexivity.
Qed.

(** A step that changes neither the frames displayed nor the current one. *)
Lemma displays_same (s s' : Viewer) :
  shown (trace s') = shown (trace s) -> _currentFrame s' = _currentFrame s ->
  displays s s'.
Proof.
  intros H1 H2. exists []. rewrite app_nil_r. split; [exact H1 | exact H2].
Qed.

Lemma displays_log (s : Viewer) (ev : Event) :
  (forall fr, ev <> EvSetImage fr) -> displays s (log ev s).
Proof.
  intros H. apply displays_same; [|reflexivity].
  cbn [trace log]. rewrite shown_app. destruct ev; cbn;
    try (rewrite app_nil_r; reflexivity).
  exfalso. apply (H fr). reflexivity.
Qed.

Lemma displays_show (s : Viewer) (fr : Frame) :
  displays s (log (EvSetImage fr) (set_currentFrame (Some fr) s)).
Proof.
  exists [fr]. cbn [trace log set_currentFrame _currentFrame].
  rewrite shown_app. split; reflexivity.
Qed.

Lemma displays_updateFrame : respects displays updateFrame.
Proof.
  apply rs_updateFrame;
    [ exact displays_refl | exact displays_trans | | | | | ].
  - intros s im f _ _. apply displays_same; [|reflexivity].
    cbn [trace log set_image]. rewrite shown_app. cbn. apply app_nil_r.
  - intros s d im f _ _. apply displays_same; [|reflexivity].
    cbn [trace log set_image]. rewrite shown_app. cbn. apply app_nil_r.
  - intros s. apply displays_log. discriminate.
  - intros s. apply displays_log. discriminate.
  - exact displays_show.
Qed.

Lemma displays_setValue (k : nat) (v : Z) : respects displays (scrollbar_setValue k v).
Proof.
  apply rs_scrollbar_setValue;
    [ exact displays_refl | exact displays_trans | exact displays_updateFrame | ].
  intros s k0 sb v0 _. apply displays_same; reflexivity.
Qed.

Lemma displays_setRange (k : nat) (mn mx : Z) :
  respects displays (scrollbar_setRange k mn mx).
Proof.
  intros s. unfold scrollbar_setRange, bind at 1, get_scrollbar.
  destruct (nth_error (_scrollbars s) k) as [sb|]; [|apply displays_refl].
  destruct (_ && _); [apply displays_refl|].
  unfold bind, put_scrollbar, modify.
  eapply displays_trans; [|apply displays_setValue].
  apply displays_same; reflexivity.
Qed.

(** ** What navigation leaves alone *)

Lemma same_source_refl (x : option ImageSource) : same_source x x.
Proof.
  destruct x as [[a|im|d im]|]; cbn; auto.
  - split; [destruct im; reflexivity | reflexivity].
  - split; [reflexivity|]. split; [destruct im; reflexivity | reflexivity].
Qed.

Lemma same_source_trans (x y z : option ImageSource) :
  same_source x y -> same_source y z -> same_source x z.
Proof.
  destruct x as [[a|im|d im]|], y as [[b|im'|d' im']|], z as [[c|im''|d'' im'']|];
    cbn; try tauto; try congruence.
  - intros [E1 T1] [E2 T2]. split.
    + rewrite E2, E1. reflexivity.
    + intros EF. rewrite T2, T1; [reflexivity | exact EF |].
      rewrite E1. exact EF.
  - intros (D1 & E1 & T1) (D2 & E2 & T2). split; [congruence|]. split.
    + rewrite E2, E1. reflexivity.
    + intros EF. rewrite T2, T1; [reflexivity | exact EF |].
      rewrite E1. exact EF.
Qed.

Lemma same_setup_refl (s : Viewer) : same_setup s s.
Proof.
  unfold same_setup. split; [reflexivity|]. split; [apply same_source_refl|].
  repeat split; reflexivity.
Qed.

Lemma same_setup_trans (a b c : Viewer) :
  same_setup a b -> same_setup b c -> same_setup a c.
Proof.
  unfold same_setup.
  intros (A1 & A2 & A3 & A4 & A5 & A6 & A7 & A8 & A9 & A10)
         (B1 & B2 & B3 & B4 & B5 & B6 & B7 & B8 & B9 & B10).
  split; [congruence|]. split; [exact (same_source_trans _ _ _ A2 B2)|].
  repeat split; congruence.
Qed.

(** A step that touches only what navigation may touch. *)
Lemma same_setup_step (s s' : Viewer) :
  map sb_range (_scrollbars s') = map sb_range (_scrollbars s) ->
  same_source (_image s) (_image s') ->
  _separateChannels s' = _separateChannels s ->
  _wheelScrollsFrame s' = _wheelScrollsFrame s ->
  _wheelZoomFactor s' = _wheelZoomFactor s ->
  viewer_wheelZoomFactor s' = viewer_wheelZoomFactor s ->
  QApplication_bound s' = QApplication_bound s ->
  files s' = files s -> dialogAnswer s' = dialogAnswer s ->
  binding s' = binding s ->
  same_setup s s'.
Proof. unfold same_setup. tauto. Qed.

Lemma sb_range_moved (l : list QScrollBar) (k : nat) (sb : QScrollBar) (v : Z) :
  nth_error l k = Some sb ->
  map sb_range (list_set l k (with_value v sb)) = map sb_range l.
Proof.
  intros H. rewrite map_list_set. apply list_set_same.
  rewrite nth_error_map, H. reflexivity.
Qed.

Ltac setup_step :=
  apply same_setup_step; try reflexivity; try apply same_source_refl.

(** ** The three relations, method by method *)

Lemma keeps_in_range_updateFrame : respects keeps_in_range updateFrame.
Proof.
  intros s H. rewrite kb_updateFrame. exact H.
Qed.

Lemma same_setup_updateFrame : respects same_setup updateFrame.
Proof.
  apply rs_updateFrame;
    [ exact same_setup_refl | exact same_setup_trans | | | | | ];
    intros; setup_step.
  - match goal with H : _image _ = Some (PIL _) |- _ => rewrite H end.
    split; [reflexivity | intros EF; unfold frame_axis in EF; congruence].
  - match goal with H : _image _ = Some (PILDefective _ _) |- _ => rewrite H end.
    split; [reflexivity|].
    split; [reflexivity | intros EF; unfold frame_axis in EF; congruence].
Qed.

Ltac in_range_leaves :=
  first [ exact keeps_in_range_refl | exact keeps_in_range_trans
        | exact keeps_in_range_setRange | exact keeps_in_range_updateFrame
        | intros; intro; first [ assumption
                               | eapply in_range_moved; eassumption
                               | apply in_range_resized; assumption
                               | constructor ] ].

Ltac displays_leaves :=
  first [ exact displays_refl | exact displays_trans | exact displays_updateFrame
        | exact displays_setRange
        | intros; apply displays_log; discriminate
        | intros; apply displays_same; cbn [trace log set_image set_scrollbars];
          rewrite ?shown_app; cbn; rewrite ?app_nil_r; reflexivity ].

Ltac setup_leaves :=
  first [ exact same_setup_refl | exact same_setup_trans
        | exact same_setup_updateFrame
        | intros; setup_step; apply sb_range_moved; assumption ].

Lemma in_range_navigation :
  respects keeps_in_range updateFrame /\
  (forall idx, respects keeps_in_range (setCurrentIndexes idx)) /\
  (forall y, respects keeps_in_range (wheelEvent y)) /\
  respects keeps_in_range play.
Proof.
  split; [|split; [|split]]; intros;
    first [ exact keeps_in_range_updateFrame | apply rs_setCurrentIndexes
          | apply rs_wheelEvent | apply rs_play ]; in_range_leaves.
Qed.

Lemma in_range_setup :
  respects keeps_in_range updateViewer /\
  (forall x, respects keeps_in_range (setImage x)) /\
  (forall tf, respects keeps_in_range (setSeparateChannels tf)) /\
  (forall fp, respects keeps_in_range (open fp)).
Proof.
  split; [|split; [|split]]; intros;
    first [ apply rs_updateViewer | apply rs_setImage
          | apply rs_setSeparateChannels | apply rs_open ]; in_range_leaves.
Qed.

Lemma displays_navigation :
  respects displays updateFrame /\
  (forall idx, respects displays (setCurrentIndexes idx)) /\
  (forall y, respects displays (wheelEvent y)) /\
  respects displays play.
Proof.
  split; [|split; [|split]]; intros;
    first [ exact displays_updateFrame | apply rs_setCurrentIndexes
          | apply rs_wheelEvent | apply rs_play ]; displays_leaves.
Qed.

Lemma displays_setup :
  respects displays updateViewer /\
  (forall x, respects displays (setImage x)) /\
  (forall tf, respects displays (setSeparateChannels tf)) /\
  (forall fp, respects displays (open fp)).
Proof.
  split; [|split; [|split]]; intros;
    first [ apply rs_updateViewer | apply rs_setImage
          | apply rs_setSeparateChannels | apply rs_open ]; displays_leaves.
Qed.

Lemma setup_navigation :
  respects same_setup updateFrame /\
  (forall idx, respects same_setup (setCurrentIndexes idx)) /\
  (forall y, respects same_setup (wheelEvent y)) /\
  respects same_setup play.
Proof.
  split; [|split; [|split]]; intros;
    first [ exact same_setup_updateFrame | apply rs_setCurrentIndexes
          | apply rs_wheelEvent | apply rs_play ]; setup_leaves.
Qed.

(** ** Keeping in step *)

Lemma synced_ext (im : PILImage) (s s' : Viewer) :
  synced im s -> _image s' = _image s -> _scrollbars s' = _scrollbars s ->
  _separateChannels s' = _separateChannels s -> _currentFrame s' = _currentFrame s ->
  synced im s'.
Proof.
  intros (Hok & Hf & Ht) Hi Hb Hs Hc.
  split; [apply (lazy_ok_ext im s); assumption|].
  unfold resolved_frame, current_tell, indexes_of in *.
  rewrite Hi, Hb, Hs, Hc. split; assumption.
Qed.

Lemma setValue_lazy_synced (im : PILImage) (k : nat) (v : Z) (s : Viewer)
  (sb : QScrollBar) :
  synced im s -> nth_error (_scrollbars s) k = Some sb ->
  synced im (setValue_lazy im k v s).
Proof.
  intros Hs Hk. unfold setValue_lazy. rewrite Hk.
  destruct (value sb =? bound sb v); [exact Hs|].
  apply synced_after_resolve. apply (lazy_ok_move_bar im s k v sb); [apply Hs | exact Hk].
Qed.

(** Navigation leaves the seek position of a single-frame file alone. *)
Lemma tell_kept (im : PILImage) (s s' : Viewer) :
  shows im s -> shows im s' -> same_setup s s' ->
  frame_axis im = false -> current_tell s' = current_tell s.
Proof.
  unfold shows. intros Hs Hs' (_ & Hsrc & _) EF.
  rewrite Hs, Hs' in Hsrc. cbn in Hsrc. destruct Hsrc as [_ Ht].
  apply Ht. exact EF.
Qed.

Lemma lazy_minimum (im : PILImage) (s : Viewer) (sb : QScrollBar) :
  lazy_ok im s -> In sb (_scrollbars s) -> minimum sb = 0.
Proof.
  intros [_ Hb _] Hin.
  assert (H : In (sb_range sb) (lazy_ranges im (_separateChannels s)))
    by (rewrite <- Hb; apply in_map; exact Hin).
  unfold lazy_ranges, sb_range in H.
  destruct (channel_axis _ _), (frame_axis im); simpl in H;
    repeat (destruct H as [H|H]; [injection H as H _; symmetry; exact H|]);
    contradiction.
Qed.

(** ** Index vectors of any length *)

Lemma scrollbar_at_past (s : Viewer) (k : nat) :
  (length (_scrollbars s) <= k)%nat ->
  scrollbar_at (Z.of_nat k) s = (Err IndexError, s).
Proof.
  intros H. unfold scrollbar_at, py_index.
  destruct (Z.ltb_spec (Z.of_nat k) (Z.of_nat (length (_scrollbars s)))); [lia|].
  rewrite andb_false_r.
  destruct (Z.ltb_spec (Z.of_nat k) 0); [lia|]. rewrite andb_false_r. reflexivity.
Qed.

Lemma clamp_all_values (bars : list QScrollBar) (idx : list Z) :
  Forall2 (fun sb i => minimum sb <= i <= maximum sb) bars idx ->
  map value (clamp_all bars idx) = idx.
Proof.
  intros H. induction H as [|sb i bars idx Hi _ IH]; [reflexivity|].
  unfold clamp_all in *. cbn [combine map fst snd value with_value].
  rewrite IH, (bound_id sb i Hi). reflexivity.
Qed.

Lemma set_loop_any (im : PILImage) (idx : list Z) :
  forall (pre rest : list QScrollBar) (s : Viewer),
    lazy_ok im s -> _scrollbars s = pre ++ rest ->
    exists s',
      for_each (combine (seq (length pre) (length idx)) idx)
        (fun '(i, index) =>
           k <- scrollbar_at (Z.of_nat i) ;;
           scrollbar_setValue k index) s
      = ((if (length idx <=? length rest)%nat then Ok tt else Err IndexError), s') /\
      lazy_ok im s' /\ (synced im s -> synced im s') /\
      _scrollbars s' = pre ++ clamp_all rest idx ++ skipn (length idx) rest /\
      _separateChannels s' = _separateChannels s.
Proof.
  induction idx as [|i idx IH]; intros pre rest s Hok Hbars.
  - exists s. cbn [length seq combine for_each Nat.leb skipn].
    unfold clamp_all. rewrite combine_nil. cbn [map app].
    split; [reflexivity|]. split; [exact Hok|]. split; [tauto|].
    split; [exact Hbars | reflexivity].
  - destruct rest as [|sb rest].
    + exists s. cbn [length seq combine for_each Nat.leb].
      assert (Hpast : (length (_scrollbars s) <= length pre)%nat)
        by (rewrite Hbars, app_nil_r; lia).
      rewrite (bind_err _ _ _ _ _ (bind_err _ _ _ _ _ (scrollbar_at_past s _ Hpast))).
      split; [reflexivity|]. split; [exact Hok|]. split; [tauto|].
      split; [exact Hbars | reflexivity].
    + cbn [length seq combine for_each].
      assert (Hk : nth_error (_scrollbars s) (length pre) = Some sb)
        by (rewrite Hbars; apply nth_error_middle).
      assert (Hlt : (length pre < length (_scrollbars s))%nat)
        by (rewrite Hbars, length_app; cbn; lia).
      destruct (scrollbar_setValue_lazy im (length pre) i s sb Hok Hk)
        as (Hrun & Hok1 & _).
      unfold bind at 1. unfold bind at 1.
      rewrite (scrollbar_at_nat s _ Hlt), Hrun.
      set (s1 := setValue_lazy im (length pre) i s) in *.
      assert (Hb1 : _scrollbars s1 = (pre ++ [with_value (bound sb i) sb]) ++ rest).
      { unfold s1. rewrite (setValue_lazy_bars im _ _ _ _ Hk), Hbars, list_set_middle.
        rewrite <- app_assoc. reflexivity. }
      destruct (IH (pre ++ [with_value (bound sb i) sb]) rest s1 Hok1 Hb1)
        as (s' & Hrun' & Hok' & Hsy' & Hb' & Hsep').
      rewrite length_app, Nat.add_1_r in Hrun'. cbn [length] in Hrun'.
      exists s'. split; [exact Hrun'|]. split; [exact Hok'|]. split; [|split].
      * intros Hs. apply Hsy'. apply (setValue_lazy_synced im _ _ _ sb Hs Hk).
      * rewrite Hb', <- app_assoc. reflexivity.
      * rewrite Hsep'. apply setValue_lazy_sep.
Qed.

Lemma setCurrentIndexes_any (im : PILImage) (s : Viewer) (idx : list Z) :
  lazy_ok im s ->
  exists s',
    setCurrentIndexes idx s
    = ((if (length idx <=? length (_scrollbars s))%nat then Ok tt
        else Err IndexError), s') /\
    _scrollbars s'
    = clamp_all (_scrollbars s) idx ++ skipn (length idx) (_scrollbars s) /\
    _separateChannels s' = _separateChannels s /\
    lazy_ok im s' /\
    ((length idx <= length (_scrollbars s))%nat \/ synced im s -> synced im s').
Proof.
  intros Hok. unfold setCurrentIndexes.
  destruct (set_loop_any im idx [] (_scrollbars s) s Hok eq_refl)
    as (s1 & Hrun & Hok1 & Hsy1 & Hb1 & Hsep1).
  cbn [length app] in Hrun, Hb1.
  destruct (Nat.leb_spec (length idx) (length (_scrollbars s))) as [Hle|Hgt].
  - rewrite (bind_ok _ _ _ _ _ Hrun), (updateFrame_lazy im s1 Hok1).
    exists (after_resolve im s1). split; [reflexivity|]. split; [exact Hb1|].
    split; [exact Hsep1|]. split; [apply lazy_ok_after_resolve; exact Hok1|].
    intros _. apply synced_after_resolve. exact Hok1.
  - rewrite (bind_err _ _ _ _ _ Hrun). exists s1.
    split; [reflexivity|]. split; [exact Hb1|]. split; [exact Hsep1|].
    split; [exact Hok1|]. intros [H|H]; [lia | apply Hsy1; exact H].
Qed.

(** ** One step along the last axis *)

Lemma step_synced (im : PILImage) (pre : list QScrollBar) (sb : QScrollBar)
  (i : Z) (s : Viewer) :
  lazy_ok im s -> _scrollbars s = pre ++ [sb] ->
  minimum sb <= i <= maximum sb ->
  exists s2,
    bind (scrollbar_setValue (length pre) i) (fun _ => updateFrame) s = (Ok tt, s2) /\
    synced im s2 /\
    _scrollbars s2 = pre ++ [with_value i sb] /\
    _separateChannels s2 = _separateChannels s /\
    QApplication_bound s2 = QApplication_bound s /\
    pending s2 = pending s /\
    _isPlaying s2 = _isPlaying s /\
    _currentFrame s2
    = Some (frame_for im (_separateChannels s) (current_tell s) (map value pre ++ [i])) /\
    shown (trace s2) =
      shown (trace s) ++
      map (fun j => frame_for im (_separateChannels s) (current_tell s)
                      (map value pre ++ [j]))
          (if value sb =? i then [i] else [i; i]).
Proof.
  intros Hok Hbars Hi.
  destruct (play_step_lazy im pre sb i s Hok Hbars Hi)
    as (s2 & Hrun & Hok2 & Hb2 & Hsep2 & Hq2 & Hp2 & Hpl2 & Ht2 & Hsh2).
  assert (Hsy : synced im s2).
  { assert (Hk : nth_error (_scrollbars s) (length pre) = Some sb)
      by (rewrite Hbars; apply nth_error_last_app).
    destruct (scrollbar_setValue_lazy im (length pre) i s sb Hok Hk) as (Hrun1 & Hok1 & _).
    pose proof Hrun as Hrun'.
    rewrite (bind_ok _ _ _ _ _ Hrun1), (updateFrame_lazy im _ Hok1) in Hrun'.
    injection Hrun' as <-. apply synced_after_resolve. exact Hok1. }
  exists s2. split; [exact Hrun|]. split; [exact Hsy|].
  split; [exact Hb2|]. split; [exact Hsep2|]. split; [exact Hq2|].
  split; [exact Hp2|]. split; [exact Hpl2|]. split; [|exact Hsh2].
  destruct Hsy as (_ & Hf & _). rewrite Hf. f_equal.
  unfold resolved_frame, indexes_of. rewrite Hsep2, Hb2, map_app.
  apply frame_for_tell. exact Ht2.
Qed.

Lemma wheelEvent_eq (s : Viewer) (y : Z) (pre : list QScrollBar) (sb : QScrollBar) :
  _scrollbars s = pre ++ [sb] ->
  wheelEvent y s =
  if _wheelScrollsFrame s && (1 <? maximum sb + 1)
  then if y <? 0
       then if value sb <? maximum sb + 1 - 1
            then bind (scrollbar_setValue (length pre) (value sb + 1))
                   (fun _ => updateFrame) s
            else (Ok tt, s)
       else if 0 <? value sb
            then bind (scrollbar_setValue (length pre) (value sb - 1))
                   (fun _ => updateFrame) s
            else (Ok tt, s)
  else (Ok tt, s).
Proof.
  intros E. unfold wheelEvent, bind at 1, get. rewrite E, length_app. cbn [length].
  replace (length pre + 1 =? 0)%nat with false by (symmetry; apply Nat.eqb_neq; lia).
  rewrite (bind_ok _ _ _ _ _ (scrollbar_at_last s pre sb E)).
  unfold bind at 1, get_scrollbar. rewrite E, nth_error_last_app.
  destruct (_ && _); [|reflexivity].
  destruct (y <? 0); destruct (_ <? _); reflexivity.
Qed.

(** ** Playback keeps the widget in step *)

Lemma play_loop_synced (im : PILImage) (pre : list QScrollBar) :
  forall (todo : list Z) (s : Viewer) (sb : QScrollBar),
    lazy_ok im s -> QApplication_bound s = true -> _isPlaying s = true ->
    _scrollbars s = pre ++ [sb] ->
    Forall (fun i => minimum sb <= i <= maximum sb) todo ->
    todo <> [] \/ synced im s ->
    synced im (snd (play_loop todo s)).
Proof.
  induction todo as [|i rest IH]; intros s sb Hok Hq Hpl Hbars Hall Hsy.
  - destruct Hsy as [H|H]; [exfalso; apply H; reflexivity | exact H].
  - clear Hsy. inversion Hall as [|? ? Hi Hrest]; subst.
    destruct (step_synced im pre sb i s Hok Hbars Hi)
      as (s2 & Hrun & Hsy2 & Hb2 & Hsep2 & Hq2 & Hp2 & Hpl2 & _).
    cbn [play_loop].
    rewrite (bind_ok _ _ _ _ _ (scrollbar_at_last s pre sb Hbars)).
    rewrite bind_assoc_seq, (bind_ok _ _ _ _ _ Hrun).
    assert (Hrest' : Forall (fun j => minimum (with_value i sb) <= j
                                      <= maximum (with_value i sb)) rest)
      by exact Hrest.
    pose proof (processEvents_eq s2 (eq_trans Hq2 Hq)) as Hpe.
    destruct (pending s2) as [|[|] r] eqn:Ep; rewrite (bind_ok _ _ _ _ _ Hpe);
      unfold bind at 1, get; cbn [_isPlaying set_isPlaying set_pending];
      rewrite ?Hpl2, ?Hpl; cbn [negb snd ret].
    + apply (IH s2 (with_value i sb)); try assumption; try congruence.
      * apply Hsy2.
      * right. exact Hsy2.
    + apply (synced_ext im s2); [exact Hsy2 | reflexivity ..].
    + assert (Hsy3 : synced im (set_pending r s2))
        by (apply (synced_ext im s2); [exact Hsy2 | reflexivity ..]).
      apply (IH (set_pending r s2) (with_value i sb)); try assumption.
      * apply Hsy3.
      * exact (eq_trans Hq2 Hq).
      * exact (eq_trans Hpl2 Hpl).
      * right. exact Hsy3.
Qed.

(** [play] on a widget showing a PIL image, with [QApplication] bound. *)
Lemma play_lazy (im : PILImage) (s : Viewer) (pre : list QScrollBar) (sb : QScrollBar) :
  lazy_ok im s -> QApplication_bound s = true -> _scrollbars s = pre ++ [sb] ->
  exists s',
    play s = (Ok tt, s') /\ synced im s' /\
    _scrollbars s'
    = pre ++ [with_value (play_stop (value sb) (maximum sb) (pending s)) sb] /\
    _isPlaying s' = false.
Proof.
  intros Hok Hq Hbars.
  assert (Hin : minimum sb <= value sb <= maximum sb).
  { pose proof (lo_vals _ _ Hok) as Hv. rewrite Hbars in Hv.
    apply Forall_app in Hv. destruct Hv as [_ Hv]. inversion Hv; subst. assumption. }
  unfold play, bind at 1, get. rewrite Hbars, length_app. cbn [length].
  replace (length pre + 1 =? 0)%nat with false by (symmetry; apply Nat.eqb_neq; lia).
  unfold bind at 1, modify.
  set (s0 := set_isPlaying true s).
  assert (Hb0 : _scrollbars s0 = pre ++ [sb]) by exact Hbars.
  assert (Hok0 : lazy_ok im s0) by (apply (lazy_ok_ext im s); [exact Hok | reflexivity ..]).
  rewrite (bind_ok _ _ _ _ _ (scrollbar_at_last s0 pre sb Hb0)).
  unfold bind at 1, get_scrollbar. rewrite Hb0, nth_error_last_app.
  assert (Hall : Forall (fun i => minimum sb <= i <= maximum sb)
                   (range (value sb) (maximum sb + 1))).
  { eapply Forall_impl; [|apply range_bounds]. cbv beta. intros i Hi. lia. }
  assert (Hne : range (value sb) (maximum sb + 1) <> [])
    by (rewrite range_cons by lia; discriminate).
  pose proof (play_loop_synced im pre _ s0 sb Hok0 Hq eq_refl Hb0 Hall (or_introl Hne))
    as Hsy.
  destruct (play_loop_lazy im pre _ s0 sb Hok0 Hq eq_refl Hb0 Hall)
    as (s' & Hrun & _ & Hb' & _).
  rewrite Hrun in Hsy. cbn [snd] in Hsy.
  rewrite (bind_ok _ _ _ _ _ Hrun). unfold modify.
  exists (set_isPlaying false s').
  change (pending s0) with (pending s) in *.
  rewrite stop_at_play in Hb' by lia.
  split; [reflexivity|]. split; [|split; [exact Hb' | reflexivity]].
  apply (synced_ext im s'); [exact Hsy | reflexivity ..].
Qed.

(** ** Invariants of the public methods *)

(** X4.  Whatever the image source, and whether the call returns or raises,
    no method moves an index out of the range of its scrollbar: if every
    bar's value is within its [minimum, maximum] before [updateFrame],
    [updateViewer], [setImage], [setSeparateChannels], [setCurrentIndexes],
    [wheelEvent], [play] or [open], it is so afterwards; the bars of a newly
    constructed widget are within range too. *)
Theorem indexes_stay_in_range (s : Viewer) :
  Forall in_range (_scrollbars s) ->
  Forall in_range (_scrollbars (snd (updateFrame s))) /\
  Forall in_range (_scrollbars (snd (updateViewer s))) /\
  (forall x, Forall in_range (_scrollbars (snd (setImage x s)))) /\
  (forall tf, Forall in_range (_scrollbars (snd (setSeparateChannels tf s)))) /\
  (forall idx, Forall in_range (_scrollbars (snd (setCurrentIndexes idx s)))) /\
  (forall y, Forall in_range (_scrollbars (snd (wheelEvent y s)))) /\
  Forall in_range (_scrollbars (snd (play s))) /\
  (forall fp, Forall in_range (_scrollbars (snd (open fp s)))) /\
  (forall qt zoom0 app fs answer reqs image,
     Forall in_range
       (_scrollbars (snd (QtImageStackViewer_init qt zoom0 app fs answer reqs image)))).
Proof.
  intros H.
  destruct in_range_navigation as (N1 & N2 & N3 & N4).
  destruct in_range_setup as (S1 & S2 & S3 & S4).
  split; [exact (N1 s H)|]. split; [exact (S1 s H)|].
  split; [intros x; exact (S2 x s H)|]. split; [intros tf; exact (S3 tf s H)|].
  split; [intros idx; exact (N2 idx s H)|]. split; [intros y; exact (N3 y s H)|].
  split; [exact (N4 s H)|]. split; [intros fp; exact (S4 fp s H)|].
  intros qt zoom0 app fs answer reqs image. unfold QtImageStackViewer_init.
  apply S1. constructor.
Qed.

Lemma indexes_stay_in_range_witness :
  Forall in_range
    (_scrollbars (snd (setCurrentIndexes [7; -7; 7] (loaded true rgb_stack)))) /\
  Forall in_range
    (_scrollbars (snd (setImage (Some (NdArray (stack_100_100_5 [])))
                         (loaded true rgb_stack)))).
Proof.
  assert (H : Forall in_range (_scrollbars (loaded true rgb_stack)))
    by (repeat constructor; cbn; lia).
  pose proof (indexes_stay_in_range (loaded true rgb_stack) H)
    as (_ & _ & H3 & _ & H5 & _).
  split; [apply H5 | apply H3].
Defined.

(** X5.  Whatever the state and the image source, and whether the call
    returns or raises, a method only appends to the sequence of frames handed
    to the image viewer, and afterwards [currentFrame()] is the last frame it
    handed over; when it handed over none, the current frame is the one from
    before the call.  This holds for [updateFrame], [updateViewer],
    [setImage], [setSeparateChannels], [setCurrentIndexes], [wheelEvent],
    [play] and [open]. *)
Theorem current_frame_is_last_displayed (s : Viewer) :
  displays s (snd (updateFrame s)) /\
  displays s (snd (updateViewer s)) /\
  (forall x, displays s (snd (setImage x s))) /\
  (forall tf, displays s (snd (setSeparateChannels tf s))) /\
  (forall idx, displays s (snd (setCurrentIndexes idx s))) /\
  (forall y, displays s (snd (wheelEvent y s))) /\
  displays s (snd (play s)) /\
  (forall fp, displays s (snd (open fp s))).
Proof.
  destruct displays_navigation as (N1 & N2 & N3 & N4).
  destruct displays_setup as (S1 & S2 & S3 & S4).
  split; [exact (N1 s)|]. split; [exact (S1 s)|].
  split; [intros x; exact (S2 x s)|]. split; [intros tf; exact (S3 tf s)|].
  split; [intros idx; exact (N2 idx s)|]. split; [intros y; exact (N3 y s)|].
  split; [exact (N4 s)|]. intros fp; exact (S4 fp s).
Qed.

(** X6.  Navigation never changes the set-up of the widget.  Whatever the
    state and the image source, and whether the call returns or raises,
    after [updateFrame], [setCurrentIndexes], [wheelEvent] or [play] the
    number of scrollbars and the range of each are as before, the image
    source is the same array or the same file (only the seek position of a
    file may differ, and not even that when the file has a single frame),
    and channel separation, the wheel mode and both zoom factors are
    unchanged. *)
Theorem navigation_keeps_setup (s : Viewer) :
  same_setup s (snd (updateFrame s)) /\
  (forall idx, same_setup s (snd (setCurrentIndexes idx s))) /\
  (forall y, same_setup s (snd (wheelEvent y s))) /\
  same_setup s (snd (play s)).
Proof.
  destruct setup_navigation as (N1 & N2 & N3 & N4).
  split; [exact (N1 s)|]. split; [intros idx; exact (N2 idx s)|].
  split; [intros y; exact (N3 y s) | exact (N4 s)].
Qed.

(** ** Setting and reading the index vector *)

(** X7.  On a widget showing a PIL image whose bars match its axes,
    [setCurrentIndexes] with one in-range index per bar returns normally,
    [currentIndexes()] then returns exactly that vector, the file is at the
    frame the vector names, and the current frame is the frame (or the band
    of the frame) the vector names. *)
Theorem index_vector_round_trip (im : PILImage) (s : Viewer) (idx : list Z) :
  lazy_ok im s ->
  Forall2 (fun sb i => minimum sb <= i <= maximum sb) (_scrollbars s) idx ->
  exists s',
    setCurrentIndexes idx s = (Ok tt, s') /\
    currentIndexes s' = (Ok idx, s') /\
    synced im s' /\
    _currentFrame s'
    = Some (frame_for im (_separateChannels s) (current_tell s) idx).
Proof.
  intros Hok Hall.
  pose proof (Forall2_length Hall) as Hlen.
  destruct (setCurrentIndexes_any im s idx Hok) as (s' & Hrun & Hb & Hsep & Hok' & Hsy).
  rewrite <- Hlen, Nat.leb_refl in Hrun.
  rewrite <- Hlen, skipn_all, app_nil_r in Hb.
  assert (Hidx : indexes_of s' = idx)
    by (unfold indexes_of; rewrite Hb; apply clamp_all_values; exact Hall).
  assert (Hsy' : synced im s') by (apply Hsy; left; lia).
  exists s'. split; [exact Hrun|]. split.
  - unfold currentIndexes. fold (indexes_of s'). rewrite Hidx. reflexivity.
  - split; [exact Hsy'|].
    destruct Hsy' as (_ & Hf & _). rewrite Hf. f_equal.
    unfold resolved_frame. rewrite Hsep, Hidx.
    apply frame_for_tell. intros EF.
    apply (tell_kept im s s'); [apply Hok | apply Hok' | | exact EF].
    pose proof (proj1 (proj2 setup_navigation) idx s) as H.
    rewrite Hrun in H. exact H.
Qed.

Lemma index_vector_round_trip_witness :
  exists s',
    setCurrentIndexes [1; 4] (loaded true rgb_stack) = (Ok tt, s') /\
    currentIndexes s' = (Ok [1; 4], s') /\
    _currentFrame s' = Some (ArrayFrame (channel_plane rgb_stack 4 1)).
Proof.
  assert (Hok : lazy_ok rgb_stack (loaded true rgb_stack)).
  { split; [reflexivity | reflexivity |]. repeat constructor; cbn; lia. }
  assert (Hall : Forall2 (fun sb i => minimum sb <= i <= maximum sb)
                   (_scrollbars (loaded true rgb_stack)) [1; 4]).
  { repeat constructor; cbn; lia. }
  destruct (index_vector_round_trip rgb_stack (loaded true rgb_stack) [1; 4] Hok Hall)
    as (s' & H1 & H2 & _ & H4).
  exists s'. split; [exact H1|]. split; [exact H2 | exact H4].
Defined.

(** X8.  [setCurrentIndexes] with a vector of any length whose entries fit
    a C [int], on a widget in step with a PIL image: the leading bars take
    the indexes given, each bounded into its range, and the bars beyond the
    vector keep theirs.  A vector no longer than the number of bars returns
    normally; a longer one raises [IndexError] after every bar was set.
    Either way the widget ends in step: the current frame and the seek
    position are those of the index vector it ends with. *)
Theorem index_vector_of_any_length (im : PILImage) (s : Viewer) (idx : list Z) :
  synced im s -> Forall C_int idx ->
  exists s',
    setCurrentIndexes idx s
    = ((if (length idx <=? length (_scrollbars s))%nat then Ok tt
        else Err IndexError), s') /\
    _scrollbars s'
    = clamp_all (_scrollbars s) idx ++ skipn (length idx) (_scrollbars s) /\
    synced im s'.
Proof.
  intros Hs _.
  destruct (setCurrentIndexes_any im s idx (proj1 Hs)) as (s' & Hrun & Hb & _ & _ & Hsy).
  exists s'. split; [exact Hrun|]. split; [exact Hb|]. apply Hsy. right. exact Hs.
Qed.

Lemma index_vector_of_any_length_witness :
  exists s',
    setCurrentIndexes [1; 4; 0] (loaded true rgb_stack) = (Err IndexError, s') /\
    _scrollbars s' = [mk_QScrollBar 0 2 1; mk_QScrollBar 0 9 4] /\
    _currentFrame s' = Some (resolved_frame rgb_stack s').
Proof.
  assert (Hs : synced rgb_stack (loaded true rgb_stack)).
  { split; [|split; reflexivity]. split; [reflexivity | reflexivity |].
    repeat constructor; cbn; lia. }
  assert (Hi : Forall C_int [1; 4; 0]) by (repeat constructor; unfold C_int; lia).
  destruct (index_vector_of_any_length rgb_stack (loaded true rgb_stack) [1; 4; 0] Hs Hi)
    as (s' & H1 & H2 & H3).
  exists s'. split; [exact H1|]. split; [exact H2 | apply H3].
Defined.

(** ** Wheel events on a PIL image *)

(** A wheel event that moves the last index of a widget showing a PIL
    image: towards the end for a negative vertical delta, towards 0 for any
    other, a delta of 0 included. *)
Lemma wheel_step_lazy (im : PILImage) (s : Viewer) (y : Z)
  (pre : list QScrollBar) (sb : QScrollBar) :
  lazy_ok im s -> _scrollbars s = pre ++ [sb] -> _wheelScrollsFrame s = true ->
  let i' := if y <? 0 then value sb + 1 else value sb - 1 in
  0 <= i' <= maximum sb ->
  exists s',
    wheelEvent y s = (Ok tt, s') /\ synced im s' /\
    _scrollbars s' = pre ++ [with_value i' sb] /\
    _separateChannels s' = _separateChannels s /\
    _currentFrame s'
    = Some (frame_for im (_separateChannels s) (current_tell s)
              (map value pre ++ [i'])) /\
    shown (trace s')
    = shown (trace s) ++
      [frame_for im (_separateChannels s) (current_tell s) (map value pre ++ [i']);
       frame_for im (_separateChannels s) (current_tell s) (map value pre ++ [i'])].
Proof.
  intros Hok Hbars Hw i' Hi.
  assert (Hin : In sb (_scrollbars s)) by (rewrite Hbars; apply in_or_app; right; left; reflexivity).
  pose proof (lazy_minimum im s sb Hok Hin) as Hmin.
  assert (Hv : minimum sb <= value sb <= maximum sb).
  { pose proof (lo_vals _ _ Hok) as Hv. rewrite Forall_forall in Hv. apply (Hv sb Hin). }
  assert (Hi' : minimum sb <= i' <= maximum sb) by lia.
  destruct (step_synced im pre sb i' s Hok Hbars Hi')
    as (s' & Hrun & Hsy & Hb & Hsep & _ & _ & _ & Hf & Hsh).
  assert (Hne : (value sb =? i') = false)
    by (apply Z.eqb_neq; subst i'; destruct (y <? 0); lia).
  rewrite Hne in Hsh.
  exists s'. split; [|split; [exact Hsy|split; [exact Hb|split; [exact Hsep|split; [exact Hf | exact Hsh]]]]].
  rewrite (wheelEvent_eq s y pre sb Hbars), Hw. subst i'.
  destruct (y <? 0).
  - replace (1 <? maximum sb + 1) with true by (symmetry; apply Z.ltb_lt; lia).
    replace (value sb <? maximum sb + 1 - 1) with true by (symmetry; apply Z.ltb_lt; lia).
    exact Hrun.
  - replace (1 <? maximum sb + 1) with true by (symmetry; apply Z.ltb_lt; lia).
    replace (0 <? value sb) with true by (symmetry; apply Z.ltb_lt; lia).
    exact Hrun.
Qed.

(** X9.  A wheel event is ignored, returning normally with the whole state
    unchanged, when the widget has no scrollbar, when wheel-scrolls-frame is
    off, when the last axis has a single position, when the vertical delta is
    negative and the last index is at its maximum or beyond, and when the
    delta is not negative and the last index is at 0 or below. *)
Theorem wheel_ignored (s : Viewer) (y : Z) :
  (_scrollbars s = [] -> wheelEvent y s = (Ok tt, s)) /\
  (_wheelScrollsFrame s = false -> wheelEvent y s = (Ok tt, s)) /\
  (forall pre sb, _scrollbars s = pre ++ [sb] ->
     maximum sb <= 0 \/ (y < 0 /\ maximum sb <= value sb) \/ (0 <= y /\ value sb <= 0) ->
     wheelEvent y s = (Ok tt, s)).
Proof.
  split; [|split].
  - intros E. unfold wheelEvent, bind at 1, get. rewrite E. reflexivity.
  - intros Hw. destruct (_scrollbars s) as [|b l] eqn:E.
    + unfold wheelEvent, bind at 1, get. rewrite E. reflexivity.
    + destruct (exists_last (l := b :: l)) as (pre & sb & E'); [discriminate|].
      rewrite E' in E. rewrite (wheelEvent_eq s y pre sb E), Hw. reflexivity.
  - intros pre sb E H. rewrite (wheelEvent_eq s y pre sb E).
    destruct (_wheelScrollsFrame s); [|reflexivity]. cbn [andb].
    destruct (Z.ltb_spec 1 (maximum sb + 1)); [|reflexivity].
    destruct (Z.ltb_spec y 0).
    + destruct (Z.ltb_spec (value sb) (maximum sb + 1 - 1)); [lia | reflexivity].
    + destruct (Z.ltb_spec 0 (value sb)); [lia | reflexivity].
Qed.

Lemma wheel_ignored_witness :
  wheelEvent 120 (loaded false rgb_stack) = (Ok tt, loaded false rgb_stack).
Proof.
  apply (proj2 (proj2 (wheel_ignored (loaded false rgb_stack) 120))
           [] (mk_QScrollBar 0 9 0) eq_refl).
  right. right. cbn. lia.
Defined.

(** X10.  On a widget showing a PIL image whose bars match its axes, with
    wheel-scrolls-frame on, a wheel event for which the neighbouring index
    exists (the next one for a negative vertical delta, the previous one for
    any other delta, 0 included) returns normally, moves the last index
    there and leaves the other indexes alone; the widget ends in step, its
    current frame being the frame at the new index vector, which was
    handed to the image viewer twice: once by the slot of [valueChanged]
    and once by the explicit [updateFrame]. *)
Theorem wheel_step_shows_neighbour (im : PILImage) (s : Viewer) (y : Z)
  (pre : list QScrollBar) (sb : QScrollBar) :
  lazy_ok im s -> _scrollbars s = pre ++ [sb] -> _wheelScrollsFrame s = true ->
  let i' := if y <? 0 then value sb + 1 else value sb - 1 in
  let fr := frame_for im (_separateChannels s) (current_tell s)
              (map value pre ++ [i']) in
  0 <= i' <= maximum sb ->
  exists s',
    wheelEvent y s = (Ok tt, s') /\ synced im s' /\
    indexes_of s' = map value pre ++ [i'] /\
    _currentFrame s' = Some fr /\
    shown (trace s') = shown (trace s) ++ [fr; fr].
Proof.
  intros Hok Hbars Hw i' fr Hi.
  destruct (wheel_step_lazy im s y pre sb Hok Hbars Hw Hi)
    as (s' & Hrun & Hsy & Hb & _ & Hf & Hsh).
  exists s'. split; [exact Hrun|]. split; [exact Hsy|]. split; [|split; assumption].
  unfold indexes_of. rewrite Hb, map_app. reflexivity.
Qed.

Lemma wheel_step_shows_neighbour_witness :
  exists s',
    wheelEvent 0 (snd (setCurrentIndexes [3] (loaded false gray16_stack))) = (Ok tt, s') /\
    indexes_of s' = [2] /\
    _currentFrame s' = Some (ArrayFrame (decode gray16_stack 2)).
Proof.
  set (s := snd (setCurrentIndexes [3] (loaded false gray16_stack))).
  assert (Hok : lazy_ok gray16_stack s).
  { split; [reflexivity | reflexivity |]. repeat constructor; cbn; lia. }
  assert (Hi : 0 <= (if 0 <? 0 then value (mk_QScrollBar 0 4 3) + 1
                     else value (mk_QScrollBar 0 4 3) - 1)
               <= maximum (mk_QScrollBar 0 4 3)) by (cbn; lia).
  destruct (wheel_step_shows_neighbour gray16_stack s 0 [] (mk_QScrollBar 0 4 3)
              Hok eq_refl eq_refl Hi) as (s' & H1 & _ & H3 & H4 & _).
  exists s'. split; [exact H1|]. split; [exact H3 | exact H4].
Defined.

(** X11.  On a widget in step with a PIL image, with wheel-scrolls-frame
    on and the last index below its maximum, a wheel event forward followed
    by a wheel event backward both return normally and bring back the index
    vector and the current frame the widget started with. *)
Theorem wheel_forth_and_back (im : PILImage) (s : Viewer) (y1 y2 : Z)
  (pre : list QScrollBar) (sb : QScrollBar) :
  synced im s -> _scrollbars s = pre ++ [sb] -> _wheelScrollsFrame s = true ->
  value sb < maximum sb -> y1 < 0 -> 0 <= y2 ->
  let s1 := snd (wheelEvent y1 s) in
  let s2 := snd (wheelEvent y2 s1) in
  fst (wheelEvent y1 s) = Ok tt /\ fst (wheelEvent y2 s1) = Ok tt /\
  indexes_of s1 = map value pre ++ [value sb + 1] /\
  _scrollbars s2 = _scrollbars s /\
  _currentFrame s2 = _currentFrame s.
Proof.
  intros (Hok & Hfr & _) Hbars Hw Hlt Hy1 Hy2 s1 s2.
  assert (Hin : In sb (_scrollbars s)) by (rewrite Hbars; apply in_or_app; right; left; reflexivity).
  pose proof (lazy_minimum im s sb Hok Hin) as Hmin.
  assert (Hv : minimum sb <= value sb <= maximum sb).
  { pose proof (lo_vals _ _ Hok) as Hv. rewrite Forall_forall in Hv. apply (Hv sb Hin). }
  assert (E1 : (y1 <? 0) = true) by (apply Z.ltb_lt; lia).
  assert (E2 : (y2 <? 0) = false) by (apply Z.ltb_ge; lia).
  assert (Hi1 : 0 <= (if y1 <? 0 then value sb + 1 else value sb - 1) <= maximum sb)
    by (rewrite E1; lia).
  destruct (wheel_step_lazy im s y1 pre sb Hok Hbars Hw Hi1)
    as (t1 & R1 & S1 & B1 & P1 & _).
  rewrite E1 in B1.
  assert (Es1 : s1 = t1) by (unfold s1; rewrite R1; reflexivity).
  pose proof (proj1 (proj2 (proj2 setup_navigation)) y1 s) as K1.
  rewrite R1 in K1. cbn [snd] in K1.
  assert (Hw1 : _wheelScrollsFrame t1 = true).
  { destruct K1 as (_ & _ & _ & K & _). rewrite K. exact Hw. }
  set (sb1 := with_value (value sb + 1) sb) in *.
  assert (Hi2 : 0 <= (if y2 <? 0 then value sb1 + 1 else value sb1 - 1) <= maximum sb1)
    by (rewrite E2; cbn; lia).
  destruct (wheel_step_lazy im t1 y2 pre sb1 (proj1 S1) B1 Hw1 Hi2)
    as (t2 & R2 & S2 & B2 & P2 & F2 & _).
  rewrite E2 in B2, F2.
  assert (Es2 : s2 = t2) by (unfold s2; rewrite Es1, R2; reflexivity).
  rewrite R1, Es1, R2, Es2. cbn [fst].
  assert (Hback : value sb1 - 1 = value sb) by (cbn; lia).
  split; [reflexivity|]. split; [reflexivity|]. split; [|split].
  - unfold indexes_of. rewrite B1, map_app. reflexivity.
  - rewrite B2, Hbars, Hback. destruct sb; reflexivity.
  - rewrite F2, Hfr, Hback, P1. f_equal.
    unfold resolved_frame, indexes_of. rewrite Hbars, map_app. cbn [map].
    apply frame_for_tell. intros EF.
    apply (tell_kept im s t1); [apply Hok | apply S1 | exact K1 | exact EF].
Qed.

Lemma wheel_forth_and_back_witness :
  let s := loaded true rgb_stack in
  let s2 := snd (wheelEvent 120 (snd (wheelEvent (-120) s))) in
  _scrollbars s2 = _scrollbars s /\ _currentFrame s2 = _currentFrame s.
Proof.
  assert (Hs : synced rgb_stack (loaded true rgb_stack)).
  { split; [|split; reflexivity]. split; [reflexivity | reflexivity |].
    repeat constructor; cbn; lia. }
  assert (H4 : value (mk_QScrollBar 0 9 0) < maximum (mk_QScrollBar 0 9 0)) by (cbn; lia).
  assert (H5 : -120 < 0) by lia.
  assert (H6 : 0 <= 120) by lia.
  destruct (wheel_forth_and_back rgb_stack (loaded true rgb_stack) (-120) 120
              [mk_QScrollBar 0 2 0] (mk_QScrollBar 0 9 0) Hs eq_refl eq_refl H4 H5 H6)
    as (_ & _ & _ & A & B).
  split; [exact A | exact B].
Defined.

(** ** Playback on a PIL image *)

(** X12.  On a widget showing a PIL image whose bars match its axes, with
    [QApplication] bound, [play] returns normally and leaves the widget in
    step at the index where playback stopped (the maximum of the last axis,
    or the index during whose [processEvents] a pause request was handled):
    [currentFrame()] is the frame at that index vector, and the file is
    positioned at that frame when it has several. *)
Theorem play_ends_in_sync (im : PILImage) (s : Viewer)
  (pre : list QScrollBar) (sb : QScrollBar) :
  lazy_ok im s -> QApplication_bound s = true -> _scrollbars s = pre ++ [sb] ->
  let stop := play_stop (value sb) (maximum sb) (pending s) in
  exists s',
    play s = (Ok tt, s') /\ synced im s' /\
    indexes_of s' = map value pre ++ [stop] /\
    _currentFrame s'
    = Some (frame_for im (_separateChannels s) (current_tell s)
              (map value pre ++ [stop])) /\
    (frame_axis im = true -> current_tell s' = stop).
Proof.
  intros Hok Hq Hbars stop.
  destruct (play_lazy im s pre sb Hok Hq Hbars) as (s' & Hrun & Hsy & Hb & _).
  fold stop in Hb.
  assert (Hidx : indexes_of s' = map value pre ++ [stop])
    by (unfold indexes_of; rewrite Hb, map_app; reflexivity).
  pose proof (proj2 (proj2 (proj2 setup_navigation)) s) as K.
  rewrite Hrun in K. cbn [snd] in K.
  exists s'. split; [exact Hrun|]. split; [exact Hsy|]. split; [exact Hidx|].
  destruct Hsy as (Hok' & Hf & Ht). split.
  - rewrite Hf. f_equal. unfold resolved_frame. rewrite Hidx.
    destruct K as (_ & K2 & K3 & _). rewrite K3.
    apply frame_for_tell. intros EF.
    apply (tell_kept im s s'); [apply Hok | apply Hok' | | exact EF].
    pose proof (proj2 (proj2 (proj2 setup_navigation)) s) as K'.
    rewrite Hrun in K'. exact K'.
  - intros EF. rewrite (Ht EF), Hidx, last_last. reflexivity.
Qed.

Lemma play_ends_in_sync_witness :
  exists s',
    play paused_at_3 = (Ok tt, s') /\
    indexes_of s' = [3] /\
    _currentFrame s' = Some (ArrayFrame (decode gray16_stack 3)) /\
    current_tell s' = 3.
Proof.
  assert (Hok : lazy_ok gray16_stack paused_at_3).
  { split; [reflexivity | reflexivity |]. repeat constructor; cbn; lia. }
  destruct (play_ends_in_sync gray16_stack paused_at_3 [] (mk_QScrollBar 0 4 2)
              Hok eq_refl eq_refl) as (s' & H1 & _ & H3 & H4 & H5).
  exists s'. split; [exact H1|]. split; [exact H3|]. split; [exact H4|].
  apply H5. reflexivity.
Defined.

(** X13.  [QApplication] is imported only when the module is run as a
    script.  In a program that imports the module, [play] on a widget
    showing a PIL image with at least one scrollbar raises [NameError] at
    the first [processEvents]: the frame at the current index has been
    displayed once more, no index has moved, and [_isPlaying] is left set
    because the statement that clears it is never reached. *)
Theorem play_needs_QApplication (im : PILImage) (s : Viewer)
  (pre : list QScrollBar) (sb : QScrollBar) :
  lazy_ok im s -> QApplication_bound s = false -> _scrollbars s = pre ++ [sb] ->
  exists s',
    play s = (Err NameError, s') /\
    _isPlaying s' = true /\
    _scrollbars s' = _scrollbars s /\
    synced im s' /\
    shown (trace s')
    = shown (trace s) ++
      [frame_for im (_separateChannels s) (current_tell s) (indexes_of s)].
Proof.
  intros Hok Hq Hbars.
  assert (Hin : minimum sb <= value sb <= maximum sb).
  { pose proof (lo_vals _ _ Hok) as Hv. rewrite Hbars in Hv.
    apply Forall_app in Hv. destruct Hv as [_ Hv]. inversion Hv; subst. assumption. }
  set (s0 := set_isPlaying true s).
  assert (Hb0 : _scrollbars s0 = pre ++ [sb]) by exact Hbars.
  assert (Hok0 : lazy_ok im s0) by (apply (lazy_ok_ext im s); [exact Hok | reflexivity ..]).
  destruct (step_synced im pre sb (value sb) s0 Hok0 Hb0 Hin)
    as (s2 & Hrun & Hsy & Hb2 & _ & Hq2 & _ & Hpl2 & _ & Hsh).
  assert (Hpe : processEvents s2 = (Err NameError, s2)).
  { unfold processEvents, bind, get. rewrite Hq2. cbn [QApplication_bound s0 set_isPlaying].
    rewrite Hq. reflexivity. }
  assert (Hloop : play_loop (range (value sb) (maximum sb + 1)) s0 = (Err NameError, s2)).
  { rewrite (range_cons (value sb) (maximum sb + 1)) by lia. cbn [play_loop].
    rewrite (bind_ok _ _ _ _ _ (scrollbar_at_last s0 pre sb Hb0)).
    rewrite bind_assoc_seq, (bind_ok _ _ _ _ _ Hrun).
    apply bind_err. exact Hpe. }
  assert (Hplay : play s = (Err NameError, s2)).
  { unfold play, bind at 1, get. rewrite Hbars, length_app. cbn [length].
    replace (length pre + 1 =? 0)%nat with false by (symmetry; apply Nat.eqb_neq; lia).
    unfold bind at 1, modify. fold s0.
    rewrite (bind_ok _ _ _ _ _ (scrollbar_at_last s0 pre sb Hb0)).
    unfold bind at 1, get_scrollbar. rewrite Hb0, nth_error_last_app.
    apply bind_err. exact Hloop. }
  exists s2. split; [exact Hplay|]. split; [exact Hpl2|]. split; [|split; [exact Hsy|]].
  - rewrite Hb2, with_value_same. symmetry. exact Hbars.
  - rewrite Hsh, Z.eqb_refl. cbn [map].
    unfold indexes_of. rewrite Hbars, map_app. reflexivity.
Qed.

Lemma play_needs_QApplication_witness :
  exists s'',
    play (snd (QtImageStackViewer_init PyQt6 None false no_files EmptyString []
                 (Some (PIL gray16_stack))))
    = (Err NameError, s'') /\ _isPlaying s'' = true.
Proof.
  set (s := snd (QtImageStackViewer_init PyQt6 None false no_files EmptyString []
                   (Some (PIL gray16_stack)))).
  assert (Hok : lazy_ok gray16_stack s).
  { split; [reflexivity | reflexivity |]. repeat constructor; cbn; lia. }
  destruct (play_needs_QApplication gray16_stack s [] (mk_QScrollBar 0 4 0)
              Hok eq_refl eq_refl) as (s'' & H1 & H2 & _).
  exists s''. split; [exact H1 | exact H2].
Defined.

(** ** NumPy arrays are never displayed *)

Lemma updateFrame_dense (s : Viewer) (a : ndarray) :
  _image s = Some (NdArray a) ->
  updateFrame s
  = (Err (if (2 <=? ndim a)%nat then TypeError else IndexError), s).
Proof.
  intros Hi. destruct (Nat.leb_spec 2 (ndim a)) as [H|H].
  - apply (updateFrame_ndarray_raises s a Hi H).
  - unfold updateFrame, bind at 1, get. rewrite Hi.
    unfold ndim in H. destruct (shape a) as [|r [|c rest]]; cbn in H; try lia;
      reflexivity.
Qed.

Lemma undisplayed_refl (a : ndarray) (s : Viewer) : undisplayed a s s.
Proof. intros H. repeat split. exact H. Qed.

Lemma undisplayed_trans (a : ndarray) (s1 s2 s3 : Viewer) :
  undisplayed a s1 s2 -> undisplayed a s2 s3 -> undisplayed a s1 s3.
Proof.
  intros H1 H2 Hi. destruct (H1 Hi) as (A1 & A2 & A3).
  destruct (H2 A1) as (B1 & B2 & B3). repeat split; congruence.
Qed.

Lemma undisplayed_updateFrame (a : ndarray) : respects (undisplayed a) updateFrame.
Proof.
  intros s Hi. rewrite (updateFrame_dense s a Hi). repeat split. exact Hi.
Qed.

Ltac undisplayed_leaves a :=
  first [ exact (undisplayed_refl a) | exact (undisplayed_trans a)
        | exact (undisplayed_updateFrame a)
        | intros; intro; repeat split; try assumption;
          cbn [trace log set_scrollbars]; rewrite ?shown_app; cbn;
          rewrite ?app_nil_r; reflexivity ].

Lemma undisplayed_setValue (a : ndarray) (k : nat) (v : Z) :
  respects (undisplayed a) (scrollbar_setValue k v).
Proof. apply rs_scrollbar_setValue; undisplayed_leaves a. Qed.

Lemma undisplayed_setRange (a : ndarray) (k : nat) (mn mx : Z) :
  respects (undisplayed a) (scrollbar_setRange k mn mx).
Proof.
  intros s. unfold scrollbar_setRange, bind at 1, get_scrollbar.
  destruct (nth_error (_scrollbars s) k) as [sb|]; [|apply undisplayed_refl].
  destruct (_ && _); [apply undisplayed_refl|].
  unfold bind, put_scrollbar, modify.
  eapply undisplayed_trans; [|apply undisplayed_setValue].
  intros Hi. repeat split. exact Hi.
Qed.

Lemma undisplayed_navigation (a : ndarray) :
  (forall idx, respects (undisplayed a) (setCurrentIndexes idx)) /\
  (forall y, respects (undisplayed a) (wheelEvent y)) /\
  respects (undisplayed a) play.
Proof.
  split; [|split]; intros;
    first [ apply rs_setCurrentIndexes | apply rs_wheelEvent | apply rs_play ];
    undisplayed_leaves a.
Qed.

Lemma undisplayed_updateViewer (a : ndarray) : respects (undisplayed a) updateViewer.
Proof.
  apply rs_updateViewer;
    first [ exact (undisplayed_setRange a) | undisplayed_leaves a ].
Qed.

(** With an array in place, [updateViewer] always raises. *)
Lemma updateViewer_dense_raises (a : ndarray) (s : Viewer) :
  _image s = Some (NdArray a) -> exists e, fst (updateViewer s) = Err e.
Proof.
  intros Hi. unfold updateViewer, bind at 1, get. rewrite Hi. unfold bind at 1.
  assert (Hr : respects (undisplayed a) (updateViewer_scrollbars (NdArray a))).
  { apply rs_updateViewer_scrollbars;
      first [ exact (undisplayed_setRange a) | undisplayed_leaves a ]. }
  specialize (Hr s Hi).
  destruct (updateViewer_scrollbars (NdArray a) s) as [[u|e] s1];
    [|exists e; reflexivity].
  cbn [snd] in Hr. destruct Hr as (Hi1 & _).
  unfold bind at 1, get. unfold bind at 1.
  destruct (_ && _); unfold modify;
    match goal with |- context [updateFrame ?st] =>
      rewrite (updateFrame_dense st a Hi1)
    end; eexists; reflexivity.
Qed.

Lemma setCurrentIndexes_dense_raises (a : ndarray) (s : Viewer) (idx : list Z) :
  _image s = Some (NdArray a) -> exists e, fst (setCurrentIndexes idx s) = Err e.
Proof.
  intros Hi. unfold setCurrentIndexes, bind.
  match goal with |- context [for_each ?l ?body s] =>
    assert (Hr : respects (undisplayed a) (for_each l body));
    [ apply rs_for_each; try undisplayed_leaves a; intros [i index];
      apply rs_bind; try undisplayed_leaves a;
      [ apply rs_scrollbar_at; undisplayed_leaves a
      | intros k; apply undisplayed_setValue ]
    | specialize (Hr s Hi); destruct (for_each l body s) as [[u|e] s1] ]
  end; [|exists e; reflexivity].
  cbn [snd] in Hr. destruct Hr as (Hi1 & _).
  rewrite (updateFrame_dense s1 a Hi1). eexists. reflexivity.
Qed.

(** The scrollbars [updateViewer] gives an array when every index is 0,
    under PyQt5 or when no scrollbar has to be created. *)
Lemma updateViewer_scrollbars_dense (a : ndarray) (s : Viewer) :
  binding s = PyQt5 \/ (ndim a - 2 <= length (_scrollbars s))%nat ->
  Forall (fun sb => value sb = 0) (_scrollbars s) ->
  updateViewer_scrollbars (NdArray a) s
  = (Ok tt, set_scrollbars (map dense_bar (skipn 2 (shape a))) s).
Proof.
  intros Hq Hz. rewrite (dense_setup_eq a s Hq).
  unfold bind at 1, resize_scrollbars, modify.
  set (n := Z.to_nat (Z.max 0 (Z.of_nat (ndim a) - 2))).
  assert (Hn : n = length (skipn 2 (shape a))).
  { unfold n, ndim. rewrite length_skipn. lia. }
  fold (resized n (_scrollbars s)).
  set (s1 := set_scrollbars (resized n (_scrollbars s)) s).
  pose proof (dense_loop a (resized n (_scrollbars s)) [] (skipn 2 (shape a)) s1
                eq_refl (resized_zero n _ Hz) eq_refl) as Hrun.
  rewrite resized_length in Hrun. cbn [length app] in Hrun.
  rewrite (Hrun Hn). reflexivity.
Qed.

(** X14.  A NumPy array is never displayed.  From any state,
    [setImage(a)] with an array [a] of any shape raises; the array is
    stored, but no frame is handed to the image viewer and the current frame
    stays the one from before.  Afterwards [updateFrame] raises [TypeError]
    (or [IndexError] for an array with fewer than two dimensions) and leaves
    the state as it is, [setCurrentIndexes] raises for every vector, and
    neither it nor [wheelEvent] nor [play] displays anything. *)
Theorem dense_array_never_displayed (a : ndarray) (s : Viewer) :
  let r := setImage (Some (NdArray a)) s in
  (exists e, fst r = Err e) /\
  _image (snd r) = Some (NdArray a) /\
  shown (trace (snd r)) = shown (trace s) /\
  _currentFrame (snd r) = _currentFrame s /\
  updateFrame (snd r)
  = (Err (if (2 <=? ndim a)%nat then TypeError else IndexError), snd r) /\
  (forall idx,
     (exists e, fst (setCurrentIndexes idx (snd r)) = Err e) /\
     shown (trace (snd (setCurrentIndexes idx (snd r)))) = shown (trace s)) /\
  (forall y, shown (trace (snd (wheelEvent y (snd r)))) = shown (trace s)) /\
  shown (trace (snd (play (snd r)))) = shown (trace s).
Proof.
  intros r.
  set (s0 := set_image (Some (NdArray a)) s).
  assert (Er : r = updateViewer s0) by reflexivity.
  assert (Hi0 : _image s0 = Some (NdArray a)) by reflexivity.
  destruct (undisplayed_updateViewer a s0 Hi0) as (Hi & Hsh & Hf).
  rewrite <- Er in Hi, Hsh, Hf.
  change (trace s0) with (trace s) in Hsh.
  change (_currentFrame s0) with (_currentFrame s) in Hf.
  destruct (undisplayed_navigation a) as (N1 & N2 & N3).
  split; [rewrite Er; apply (updateViewer_dense_raises a s0 Hi0)|].
  split; [exact Hi|]. split; [exact Hsh|]. split; [exact Hf|].
  split; [apply updateFrame_dense; exact Hi|].
  split; [|split].
  - intros idx. split; [apply (setCurrentIndexes_dense_raises a _ idx Hi)|].
    destruct (N1 idx (snd r) Hi) as (_ & H & _). rewrite H. exact Hsh.
  - intros y. destruct (N2 y (snd r) Hi) as (_ & H & _). rewrite H. exact Hsh.
  - destruct (N3 (snd r) Hi) as (_ & H & _). rewrite H. exact Hsh.
Qed.

(** X15.  For every array with at least two dimensions, [setImage] on a
    widget whose indexes are all 0.  Under PyQt5, or when the widget already
    has as many scrollbars as the array has dimensions beyond the first
    two, it leaves one scrollbar per such dimension, in dimension order,
    each at 0 with range [0, extent] (one more than the last valid index),
    and ends in the [TypeError] of its final [updateFrame].  Under PyQt6,
    when a scrollbar has to be created (on a new widget in particular), it
    raises the [AttributeError] of [Qt.Horizontal] having done nothing but
    store the array. *)
Theorem dense_array_axes (a : ndarray) (s : Viewer) :
  (2 <= ndim a)%nat ->
  Forall (fun sb => value sb = 0) (_scrollbars s) ->
  (binding s = PyQt5 \/ (ndim a - 2 <= length (_scrollbars s))%nat ->
   exists s',
     setImage (Some (NdArray a)) s = (Err TypeError, s') /\
     _scrollbars s'
     = map (fun n => mk_QScrollBar 0 (Z.of_nat n) 0) (skipn 2 (shape a)) /\
     length (_scrollbars s') = (ndim a - 2)%nat /\
     _currentFrame s' = _currentFrame s) /\
  (binding s = PyQt6 -> (length (_scrollbars s) < ndim a - 2)%nat ->
   setImage (Some (NdArray a)) s
   = (Err AttributeError, set_image (Some (NdArray a)) s)).
Proof.
  intros Hn Hz. split.
  - intros Hq. unfold setImage, bind at 1, modify.
    set (s0 := set_image (Some (NdArray a)) s).
    unfold updateViewer, bind at 1, get. cbn [_image s0 set_image].
    unfold bind at 1.
    rewrite (updateViewer_scrollbars_dense a s0 Hq Hz).
    unfold bind at 1, get. unfold bind at 1.
    destruct (_ && _); unfold modify;
      match goal with |- context [updateFrame ?st] =>
        rewrite (updateFrame_ndarray_raises st a eq_refl Hn); exists st
      end;
      (split; [reflexivity|]; split; [reflexivity|]; split; [|reflexivity]);
      cbn [_scrollbars set_scrollbars set_viewer_wheelZoomFactor];
      rewrite length_map, length_skipn; reflexivity.
  - intros Hq Hlt. unfold setImage, bind at 1, modify.
    set (s0 := set_image (Some (NdArray a)) s).
    unfold updateViewer, bind at 1, get. cbn [_image s0 set_image].
    unfold bind at 1, updateViewer_scrollbars, bind at 1, get.
    change (_scrollbars s0) with (_scrollbars s).
    replace (length (_scrollbars s) <? Z.to_nat (Z.max 0 (Z.of_nat (ndim a) - 2)))%nat
      with true by (symmetry; apply Nat.ltb_lt; lia).
    unfold bind at 1, Qt_Horizontal, bind at 1, get.
    change (binding s0) with (binding s). rewrite Hq. reflexivity.
Qed.

Lemma dense_array_axes_witness :
  (exists s',
     setImage (Some (NdArray (mk_ndarray [2; 3; 4; 5]%nat []))) fresh
     = (Err TypeError, s') /\
     _scrollbars s' = [mk_QScrollBar 0 4 0; mk_QScrollBar 0 5 0]) /\
  (let s := snd (QtImageStackViewer_init PyQt6 None true no_files EmptyString [] None) in
   setImage (Some (NdArray (mk_ndarray [2; 3; 4; 5]%nat []))) s
   = (Err AttributeError,
      set_image (Some (NdArray (mk_ndarray [2; 3; 4; 5]%nat []))) s)).
Proof.
  assert (Hn : (2 <= ndim (mk_ndarray [2; 3; 4; 5]%nat []))%nat) by (cbn; lia).
  split.
  - assert (Hz : Forall (fun sb => value sb = 0) (_scrollbars fresh)) by constructor.
    destruct (proj1 (dense_array_axes (mk_ndarray [2; 3; 4; 5]%nat []) fresh Hn Hz)
                (or_introl eq_refl)) as (s' & H1 & H2 & _).
    exists s'. split; [exact H1 | exact H2].
  - intros s.
    assert (Hz : Forall (fun sb => value sb = 0) (_scrollbars s)) by constructor.
    assert (Hlt : (length (_scrollbars s) < ndim (mk_ndarray [2; 3; 4; 5]%nat []) - 2)%nat)
      by (cbn; lia).
    exact (proj2 (dense_array_axes (mk_ndarray [2; 3; 4; 5]%nat []) s Hn Hz)
             eq_refl Hlt).
Defined.

(** ** Opening an existing file *)

(** X16.  [open] with a non-empty path (given, or returned by the file
    dialog) that names an existing file.  When [Image.open] accepts the
    file, the call is exactly [setImage] of the object it returns.  So for
    a file object that has [n_frames] and whose frames load, on a widget
    whose indexes are all 0, it returns normally with the first frame
    displayed.  For one without [n_frames] it raises [AttributeError], and
    for one whose display fails otherwise it raises that failure, on a
    widget whose indexes are all 0: in both cases the previous image is
    replaced, nothing is handed to the image viewer and the current frame
    is the one from before.  When [Image.open] rejects the file its
    [OSError] propagates and the whole state, the previous image included,
    is unchanged. *)
Theorem open_existing_file (s : Viewer) (filepath : option string) :
  let path := match filepath with Some p => p | None => dialogAnswer s end in
  path <> EmptyString ->
  (forall im, files s path = Some (ImageFile im) ->
     open filepath s = setImage (Some (PIL im)) s /\
     (Forall (fun sb => value sb = 0) (_scrollbars s) ->
      exists s',
        open filepath s = (Ok tt, s') /\ synced im s' /\
        _currentFrame s' = Some (first_frame im (_separateChannels s) (tell im)))) /\
  (forall d im, files s path = Some (DefectiveImageFile d im) ->
     open filepath s = setImage (Some (PILDefective d im)) s /\
     forall e, display_failure d im (_separateChannels s) = Some e ->
       d = NoFrameCount \/ Forall (fun sb => value sb = 0) (_scrollbars s) ->
       exists s',
         open filepath s = (Err e, s') /\
         (exists t, _image s' = Some (PILDefective d (set_tell t im))) /\
         _currentFrame s' = _currentFrame s /\
         shown (trace s') = shown (trace s)) /\
  (files s path = Some OtherFile -> open filepath s = (Err OSError, s)).
Proof.
  intros path Hne.
  assert (Hlen : (String.length path =? 0)%nat = false)
    by (destruct path; [contradiction Hne; reflexivity | reflexivity]).
  assert (Hopen : open filepath s =
                  (isf <- os_path_isfile path ;;
                   if negb (String.length path =? 0)%nat && isf
                   then im <- Image_open path ;; setImage (Some im)
                   else ret tt) s)
    by (unfold open, path; destruct filepath; reflexivity).
  split; [|split].
  - intros im Hf.
    assert (E : open filepath s = setImage (Some (PIL im)) s).
    { rewrite Hopen. unfold bind at 1, os_path_isfile. rewrite Hf, Hlen.
      cbn [negb andb]. unfold bind at 1, Image_open. rewrite Hf. reflexivity. }
    split; [exact E|]. intros Hz. rewrite E. unfold setImage, bind, modify.
    destruct (updateViewer_synced im (set_image (Some (PIL im)) s) eq_refl Hz)
      as (s' & H1 & H2 & _ & _ & H5 & _).
    exists s'. split; [exact H1|]. split; [exact H2 | exact H5].
  - intros d im Hf.
    assert (E : open filepath s = setImage (Some (PILDefective d im)) s).
    { rewrite Hopen. unfold bind at 1, os_path_isfile. rewrite Hf, Hlen.
      cbn [negb andb]. unfold bind at 1, Image_open. rewrite Hf. reflexivity. }
    split; [exact E|]. intros e He Hz. rewrite E. unfold setImage, bind, modify.
    set (s0 := set_image (Some (PILDefective d im)) s).
    destruct (updateViewer_defective d im s0 e eq_refl He) as [K1 K2].
    destruct d.
    + exists s0. split; [apply K1; reflexivity|].
      split; [exists (tell im); destruct im; reflexivity|]. split; reflexivity.
    + destruct Hz as [Hz|Hz]; [discriminate Hz|].
      destruct (K2 ltac:(discriminate) Hz) as (s' & H1 & _ & H3 & H4 & H5).
      exists s'. split; [exact H1|]. split; [|split; assumption].
      rewrite H3. destruct (frame_axis im);
        [exists 0 | exists (tell im); destruct im]; reflexivity.
    + destruct Hz as [Hz|Hz]; [discriminate Hz|].
      destruct (K2 ltac:(discriminate) Hz) as (s' & H1 & _ & H3 & H4 & H5).
      exists s'. split; [exact H1|]. split; [|split; assumption].
      rewrite H3. destruct (frame_axis im);
        [exists 0 | exists (tell im); destruct im]; reflexivity.
  - intros Hf. rewrite Hopen. unfold bind at 1, os_path_isfile. rewrite Hf, Hlen.
    cbn [negb andb]. unfold bind, Image_open. rewrite Hf. reflexivity.
Qed.

Lemma open_existing_file_witness :
  let fs := fun p => if String.eqb p "stack.tif" then Some (ImageFile gray16_stack)
                     else if String.eqb p "notes.txt" then Some OtherFile
                     else if String.eqb p "photo.bmp"
                          then Some (DefectiveImageFile NoFrameCount rgb_single)
                          else None in
  let s := init_state PyQt6 None true fs "notes.txt" [] None in
  open None s = (Err OSError, s) /\
  (exists s', open (Some "stack.tif"%string) s = (Ok tt, s') /\
              _currentFrame s' = Some (ArrayFrame (decode gray16_stack 0))) /\
  (exists s', open (Some "photo.bmp"%string) s = (Err AttributeError, s') /\
              _currentFrame s' = None).
Proof.
  intros fs s.
  assert (H1 : "notes.txt"%string <> EmptyString) by discriminate.
  assert (H2 : "stack.tif"%string <> EmptyString) by discriminate.
  assert (H3 : "photo.bmp"%string <> EmptyString) by discriminate.
  split; [|split].
  - apply (proj2 (proj2 (open_existing_file s None H1))). reflexivity.
  - destruct (proj1 (open_existing_file s (Some "stack.tif"%string) H2)
                gray16_stack eq_refl) as [_ H].
    destruct (H (Forall_nil _)) as (s' & A & _ & B).
    exists s'. split; [exact A | exact B].
  - destruct (proj1 (proj2 (open_existing_file s (Some "photo.bmp"%string) H3))
                NoFrameCount rgb_single eq_refl) as [_ H].
    destruct (H AttributeError eq_refl (or_introl eq_refl)) as (s' & A & _ & B & _).
    exists s'. split; [exact A | exact B].
Defined.

(** ** Removing the image *)

(** X17.  [setImage(None)] returns normally from any state: the image
    viewer is cleared and every scrollbar is dropped, but [currentFrame()]
    still returns the frame displayed before.  On the widget it leaves,
    [updateFrame], [wheelEvent], [play] and [setCurrentIndexes([])] return
    normally without changing anything, and [setCurrentIndexes] with a
    non-empty vector raises [IndexError], again without changing anything. *)
Theorem clearing_the_image (s : Viewer) :
  let s' := snd (setImage None s) in
  fst (setImage None s) = Ok tt /\
  _image s' = None /\ _scrollbars s' = [] /\
  trace s' = trace s ++ [EvClearImage] /\
  _currentFrame s' = _currentFrame s /\
  updateFrame s' = (Ok tt, s') /\
  (forall y, wheelEvent y s' = (Ok tt, s')) /\
  play s' = (Ok tt, s') /\
  setCurrentIndexes [] s' = (Ok tt, s') /\
  (forall i idx, setCurrentIndexes (i :: idx) s' = (Err IndexError, s')).
Proof.
  intros s'. repeat split.
Qed.

(** ** Wheel zoom and wheel scrolling *)

Lemma updateViewer_zoom_lazy (im : PILImage) (s : Viewer) :
  _image s = Some (PIL im) ->
  Forall (fun sb => value sb = 0) (_scrollbars s) ->
  viewer_wheelZoomFactor (snd (updateViewer s))
  = if (channel_axis im (_separateChannels s) || frame_axis im) && _wheelScrollsFrame s
    then None else Some (_wheelZoomFactor s).
Proof.
  intros Himg Hz. unfold updateViewer, bind at 1, get. rewrite Himg.
  unfold bind at 1. rewrite (updateViewer_scrollbars_lazy im s Hz).
  unfold bind at 1, get. unfold bind at 1.
  destruct (axis_bars_ok im (_separateChannels s)) as [Hr Hv].
  cbn [_scrollbars set_scrollbars _wheelScrollsFrame _wheelZoomFactor].
  assert (E : (0 <? Z.of_nat (length (axis_bars im (_separateChannels s))))
              = (channel_axis im (_separateChannels s) || frame_axis im)).
  { unfold axis_bars, lazy_ranges.
    destruct (channel_axis _ _), (frame_axis im); reflexivity. }
  rewrite E.
  destruct (_ && _); unfold modify;
    match goal with |- context [updateFrame ?st] =>
      assert (Hok : lazy_ok im st)
        by (split; [apply shows_of_image; exact Himg | exact Hr | exact Hv]);
      rewrite (updateFrame_lazy im st Hok)
    end; reflexivity.
Qed.

(** X18.  The two wheel settings commute: [setWheelZoomFactor(z)] and
    [setWheelScrollsFrame(tf)] give the same state in either order, with
    [wheelZoomFactor()] equal to [z], [wheelScrollsFrame()] equal to [tf],
    and the image viewer zooming by [z] when [tf] is false and by 1 (not at
    all) when it is true.  [updateViewer] on a PIL image (indexes all 0)
    sets the viewer's factor again: to [None] when the image has an axis
    and wheel-scrolls-frame is on, to the widget's zoom factor otherwise,
    so that an image without axes zooms even with wheel-scrolls-frame
    on. *)
Theorem wheel_settings_commute (s : Viewer) (tf : bool) (z : Q) :
  (setWheelZoomFactor z ;; setWheelScrollsFrame tf) s
  = (setWheelScrollsFrame tf ;; setWheelZoomFactor z) s /\
  (let s' := snd ((setWheelZoomFactor z ;; setWheelScrollsFrame tf) s) in
   _wheelZoomFactor s' = z /\ _wheelScrollsFrame s' = tf /\
   viewer_wheelZoomFactor s' = Some (if tf then (1 # 1)%Q else z)) /\
  (forall im,
     _image s = Some (PIL im) ->
     Forall (fun sb => value sb = 0) (_scrollbars s) ->
     viewer_wheelZoomFactor (snd (updateViewer s))
     = if (channel_axis im (_separateChannels s) || frame_axis im)
          && _wheelScrollsFrame s
       then None else Some (_wheelZoomFactor s)).
Proof.
  split; [|split].
  - unfold setWheelZoomFactor, setWheelScrollsFrame, bind, modify, get, ret.
    cbn [_wheelScrollsFrame set_wheelZoomFactor set_wheelScrollsFrame negb].
    destruct tf, (_wheelScrollsFrame s); reflexivity.
  - unfold setWheelZoomFactor, setWheelScrollsFrame, bind, modify, get, ret.
    cbn [_wheelScrollsFrame set_wheelZoomFactor set_wheelScrollsFrame negb].
    destruct tf, (_wheelScrollsFrame s); repeat split.
  - intros im Hi Hz. apply updateViewer_zoom_lazy; assumption.
Qed.

Lemma wheel_settings_commute_witness :
  viewer_wheelZoomFactor
    (snd (updateViewer (snd (setImage (Some (PIL rgb_single)) fresh))))
  = Some (5 # 4)%Q.
Proof.
  set (s := snd (setImage (Some (PIL rgb_single)) fresh)).
  assert (Hz : Forall (fun sb => value sb = 0) (_scrollbars s)) by constructor.
  exact (proj2 (proj2 (wheel_settings_commute s true (1 # 1)%Q))
           rgb_single eq_refl Hz).
Defined.

(** ** Loading the whole stack *)

Lemma slice_bound_inside (n : nat) (x : Z) :
  0 <= x <= Z.of_nat n -> slice_bound n x = Z.to_nat x.
Proof.
  intros H. unfold slice_bound. destruct (Z.ltb_spec x 0); [lia|]. f_equal. lia.
Qed.

(** The first assignment of [loadData] fails for single-band frames larger
    than 1x1. *)
Lemma first_assignment_single (h w F : nat) (d : list Z) :
  (2 <= F)%nat -> h <> 1%nat \/ w <> 1%nat ->
  setitem_axis2_slice (np_zeros [h; w; F]) 0 1 {| shape := [h; w]; data := d |}
  = Err ValueError.
Proof.
  intros HF Hhw. unfold setitem_axis2_slice. cbn [shape np_zeros].
  rewrite !slice_bound_inside by lia.
  change (Z.to_nat 0) with 0%nat. change (Z.to_nat 1) with 1%nat.
  unfold broadcastable. cbn [rev app broadcastable_rev Nat.sub].
  destruct (Nat.eqb_spec w 1), (Nat.eqb_spec h w), (Nat.eqb_spec h 1);
    try reflexivity; lia.
Qed.

(** It fails for frames of several bands unless, among other things, there
    are as many bands as frames. *)
Lemma first_assignment_multi (h w C F : nat) (d : list Z) :
  C <> 1%nat ->
  C <> F \/ (w <> C /\ w <> 1%nat) \/ (h <> w /\ h <> 1%nat) ->
  setitem_axis2_slice (np_zeros [h; w; C; F]) 0 (Z.of_nat C)
    {| shape := [h; w; C]; data := d |}
  = Err ValueError.
Proof.
  intros HC Hc. unfold setitem_axis2_slice. cbn [shape np_zeros].
  rewrite !slice_bound_inside by lia.
  rewrite Nat2Z.id. change (Z.to_nat 0) with 0%nat. rewrite Nat.sub_0_r.
  unfold broadcastable. cbn [rev app broadcastable_rev].
  destruct (Nat.eqb_spec C F), (Nat.eqb_spec C 1), (Nat.eqb_spec w C),
    (Nat.eqb_spec w 1), (Nat.eqb_spec h w), (Nat.eqb_spec h 1);
    try reflexivity; lia.
Qed.

Lemma decode_shape (im : PILImage) (f : nat) :
  shape (decode im f)
  = if (length (getbands im) =? 1)%nat then [height im; width im]
    else [height im; width im; length (getbands im)].
Proof. unfold decode. destruct (_ =? _)%nat; reflexivity. Qed.

(** [loadData] up to its first assignment, on a file of several frames. *)
Lemma loadData_from_stack (im : PILImage) (s : Viewer) :
  _image s = Some (PIL im) -> 1 < n_frames im ->
  let s1 := log EvArray (log (EvSeek 0) (set_image (Some (PIL (set_tell 0 im))) s)) in
  let n_channels := Z.of_nat (length (getbands im)) in
  loadData_from (PIL im) s
  = bind (lift (setitem_axis2_slice
                  (if n_channels =? 1
                   then np_zeros [height im; width im; Z.to_nat (n_frames im)]
                   else np_zeros [height im; width im; length (getbands im);
                                  Z.to_nat (n_frames im)])
                  0 n_channels (decode im 0)))
      (fun data =>
         bind (loadData_loop n_channels (range 1 (n_frames im)) data)
           (fun data => ret (Some data))) s1.
Proof.
  intros Hi HF s1 n_channels. unfold loadData_from.
  destruct (Z.eqb_spec (n_frames im) 1); [lia|].
  destruct (Z.ltb_spec 1 (n_frames im)); [|lia].
  assert (Hi' : _image s = Some (PIL (set_tell (tell im) im)))
    by (rewrite Hi; destruct im; reflexivity).
  assert (H0 : 0 <= 0 < n_frames im) by lia.
  rewrite (bind_ok _ _ _ _ _ (image_seek_ok im (tell im) s 0 Hi' H0)).
  unfold bind at 1, image_array. cbn [_image log set_image].
  reflexivity.
Qed.

(** *** Stacks of 1x1 frames *)

Lemma unravel_11 (F p : nat) :
  (p < F)%nat -> unravel [1; 1; F]%nat p = [0; 0; p]%nat.
Proof.
  intros H. cbn [unravel prod fold_right].
  rewrite !Nat.mul_1_r, !Nat.mul_1_l, Nat.div_1_r.
  rewrite !(Nat.mod_small p F H), !(Nat.div_small p F H). reflexivity.
Qed.

Lemma decode_1x1 (im : PILImage) (f : nat) :
  length (getbands im) = 1%nat -> height im = 1%nat -> width im = 1%nat ->
  decode im f = {| shape := [1; 1]%nat; data := [pixel im f 0 0 0] |}.
Proof.
  intros HC Hh Hw. unfold decode. rewrite HC, Hh, Hw. reflexivity.
Qed.

Lemma fill_next (im : PILImage) (F k : nat) :
  (k < F)%nat ->
  setitem_axis2_index (filled im F k) (Z.of_nat k)
    {| shape := [1; 1]%nat; data := [pixel im k 0 0 0] |}
  = Ok (filled im F (S k)).
Proof.
  intros Hk. unfold setitem_axis2_index, filled. cbn [shape data].
  rewrite py_index_nonneg by lia. rewrite Nat2Z.id.
  cbn [broadcastable rev app broadcastable_rev Nat.eqb orb andb].
  f_equal. f_equal.
  replace (prod [1; 1; F]%nat) with F by (cbn; lia).
  apply map_ext_in. intros p Hp. apply in_seq in Hp.
  rewrite unravel_11 by lia.
  destruct (Nat.eqb_spec p k) as [->|Hne].
  - replace (k <? S k)%nat with true by (symmetry; apply Nat.ltb_lt; lia).
    reflexivity.
  - rewrite nth_map_seq by lia.
    destruct (Nat.ltb_spec p k), (Nat.ltb_spec p (S k)); try reflexivity; lia.
Qed.

Lemma fill_first (im : PILImage) (F : nat) :
  (2 <= F)%nat ->
  setitem_axis2_slice (np_zeros [1; 1; F]%nat) 0 1
    {| shape := [1; 1]%nat; data := [pixel im 0 0 0 0] |}
  = Ok (filled im F 1).
Proof.
  intros HF. unfold setitem_axis2_slice, filled. cbn [shape data np_zeros].
  rewrite !slice_bound_inside by lia.
  change (Z.to_nat 0) with 0%nat. change (Z.to_nat 1) with 1%nat.
  cbn [Nat.sub broadcastable rev app broadcastable_rev Nat.eqb orb andb].
  f_equal. f_equal.
  replace (prod [1; 1; F]%nat) with F by (cbn; lia).
  apply map_ext_in. intros p Hp. apply in_seq in Hp.
  rewrite unravel_11 by lia. cbn [Nat.leb andb].
  destruct (Nat.ltb_spec p 1) as [H1|H1].
  - replace p with 0%nat by lia. reflexivity.
  - apply nth_repeat.
Qed.

Lemma loadData_loop_1x1 (im : PILImage) (F : nat) :
  length (getbands im) = 1%nat -> height im = 1%nat -> width im = 1%nat ->
  n_frames im = Z.of_nat F ->
  forall (n k : nat) (s : Viewer),
    (k + n = F)%nat -> (1 <= k)%nat ->
    shows im s -> current_tell s = Z.of_nat k - 1 ->
    exists s',
      loadData_loop 1 (range (Z.of_nat k) (Z.of_nat F)) (filled im F k) s
      = (Ok (filled im F F), s') /\
      shows im s' /\ current_tell s' = Z.of_nat F - 1 /\
      _scrollbars s' = _scrollbars s /\ _currentFrame s' = _currentFrame s /\
      shown (trace s') = shown (trace s).
Proof.
  intros HC Hh Hw HF. induction n as [|n IH]; intros k s Hkn Hk Hs Ht.
  - replace k with F in * by lia. rewrite range_nil by lia.
    exists s. cbn [loadData_loop ret]. repeat split; assumption.
  - rewrite range_cons by lia. cbn [loadData_loop].
    assert (Hf : 0 <= Z.of_nat k < n_frames im) by lia.
    rewrite (bind_ok _ _ _ _ _ (image_seek_ok im (current_tell s) s _ Hs Hf)).
    unfold bind at 1, image_array. cbn [_image log set_image].
    unfold np_array. cbn [tell set_tell]. rewrite Nat2Z.id.
    assert (Hd : decode (set_tell (Z.of_nat k) im) k
                 = {| shape := [1; 1]%nat; data := [pixel im k 0 0 0] |})
      by (apply (decode_1x1 (set_tell (Z.of_nat k) im)); assumption).
    rewrite Hd. unfold bind at 1, lift. cbn [Z.eqb Pos.eqb].
    rewrite (fill_next im F k) by lia.
    set (s1 := log EvArray (log (EvSeek (Z.of_nat k))
                 (set_image (Some (PIL (set_tell (Z.of_nat k) im))) s))).
    replace (Z.of_nat k + 1) with (Z.of_nat (S k)) by lia.
    destruct (IH (S k) s1) as (s' & Hrun & Hs' & Ht' & Hb' & Hf' & Hsh');
      [ lia | lia | reflexivity
      | unfold current_tell, s1; cbn [_image log set_image tell set_tell]; lia |].
    exists s'. split; [exact Hrun|]. split; [exact Hs'|]. split; [exact Ht'|].
    split; [exact Hb'|]. split; [exact Hf'|].
    rewrite Hsh'. unfold s1. cbn [trace log set_image]. rewrite !shown_app.
    cbn. rewrite !app_nil_r. reflexivity.
Qed.

(** X19.  [loadData] when there is no stack to assemble: without an image
    it raises [AttributeError]; an array is returned as it is; a PIL file
    of exactly one frame is decoded at its current seek position, without a
    seek; and for a frame count below 1 no branch returns, so the value is
    [None].  In each case indexes, scrollbars and current frame are
    untouched, and only the decode shows in the trace. *)
Theorem loadData_without_stack (s : Viewer) :
  (_image s = None -> loadData s = (RaisedAttributeError, s)) /\
  (forall a, _image s = Some (NdArray a) -> loadData s = (Loaded (Some a), s)) /\
  (forall im, _image s = Some (PIL im) -> n_frames im = 1 ->
     loadData s = (Loaded (Some (decode im (Z.to_nat (tell im)))), log EvArray s)) /\
  (forall im, _image s = Some (PIL im) -> n_frames im < 1 ->
     loadData s = (Loaded None, s)).
Proof.
  unfold loadData. split; [|split; [|split]].
  - intros H. rewrite H. reflexivity.
  - intros a H. rewrite H. reflexivity.
  - intros im H HF. rewrite H. unfold loadData_from. rewrite HF. cbn [Z.eqb Pos.eqb].
    unfold bind, image_array. rewrite H. reflexivity.
  - intros im H HF. rewrite H. unfold loadData_from.
    destruct (Z.eqb_spec (n_frames im) 1); [lia|].
    destruct (Z.ltb_spec 1 (n_frames im)); [lia|]. reflexivity.
Qed.

Lemma loadData_without_stack_witness :
  loadData (set_image (Some (PIL rgb_single)) fresh)
  = (Loaded (Some (decode rgb_single 0)),
     log EvArray (set_image (Some (PIL rgb_single)) fresh)).
Proof.
  exact (proj1 (proj2 (proj2 (loadData_without_stack
                                (set_image (Some (PIL rgb_single)) fresh))))
           rgb_single eq_refl eq_refl).
Defined.

(** X20.  [loadData] on a PIL file of several frames raises [ValueError]
    at its first assignment, [data[:,:,:n_channels] = firstFrame], whenever
    the frames have one band and are larger than 1x1, or have several bands
    and the number of bands differs from the number of frames (or the width
    is neither the number of bands nor 1, or the height neither the width
    nor 1): NumPy cannot broadcast the frame into the slice.  The file has
    then been moved to frame 0 and decoded once; indexes, scrollbars and
    current frame are untouched. *)
Theorem loadData_stack_raises (im : PILImage) (s : Viewer) :
  _image s = Some (PIL im) -> 1 < n_frames im ->
  let C := length (getbands im) in
  let h := height im in
  let w := width im in
  (C = 1%nat /\ (h <> 1%nat \/ w <> 1%nat)) \/
  (C <> 1%nat /\ (Z.of_nat C <> n_frames im \/ (w <> C /\ w <> 1%nat)
                  \/ (h <> w /\ h <> 1%nat))) ->
  loadData s
  = (Raised ValueError,
     log EvArray (log (EvSeek 0) (set_image (Some (PIL (set_tell 0 im))) s))).
Proof.
  intros Hi HF C h w Hc. unfold C, h, w in Hc. clear C h w.
  unfold loadData. rewrite Hi.
  rewrite (loadData_from_stack im s Hi HF).
  unfold bind at 1, lift, decode. destruct Hc as [[HC Hhw]|[HC Hc]].
  - rewrite HC. cbn [Z.of_nat Pos.of_succ_nat Z.eqb Pos.eqb Nat.eqb].
    rewrite first_assignment_single; [reflexivity | lia | exact Hhw].
  - destruct (Z.eqb_spec (Z.of_nat (length (getbands im))) 1) as [E|_]; [lia|].
    destruct (Nat.eqb_spec (length (getbands im)) 1) as [E|_]; [lia|].
    rewrite first_assignment_multi; [reflexivity | exact HC |].
    destruct Hc as [H|[H|H]]; [left; lia | right; left; exact H | right; right; exact H].
Qed.

Lemma loadData_stack_raises_witness :
  fst (loadData (loaded false gray16_stack)) = Raised ValueError /\
  fst (loadData (loaded false rgb_stack)) = Raised ValueError.
Proof.
  assert (H1 : 1 < n_frames gray16_stack) by reflexivity.
  assert (H2 : 1 < n_frames rgb_stack) by reflexivity.
  split.
  - rewrite (loadData_stack_raises gray16_stack (loaded false gray16_stack)
               eq_refl H1); [reflexivity|].
    left. split; [reflexivity | left; discriminate].
  - rewrite (loadData_stack_raises rgb_stack (loaded false rgb_stack) eq_refl H2);
      [reflexivity|].
    right. split; [discriminate | left; discriminate].
Defined.

(** X21.  [loadData] succeeds on a single-band file of several 1x1
    frames: it returns the (1, 1, n_frames) array whose element at depth
    [f] is the pixel of frame [f].  The file is left at its last frame
    while indexes, scrollbars and current frame are untouched, and nothing
    is handed to the image viewer. *)
Theorem loadData_stack_of_1x1_frames (im : PILImage) (s : Viewer) :
  _image s = Some (PIL im) -> 1 < n_frames im ->
  length (getbands im) = 1%nat -> height im = 1%nat -> width im = 1%nat ->
  let F := Z.to_nat (n_frames im) in
  exists s',
    loadData s
    = (Loaded (Some {| shape := [1; 1; F]%nat;
                       data := map (fun f => pixel im f 0 0 0) (seq 0 F) |}), s') /\
    current_tell s' = n_frames im - 1 /\
    _scrollbars s' = _scrollbars s /\ _currentFrame s' = _currentFrame s /\
    shown (trace s') = shown (trace s).
Proof.
  intros Hi HF HC Hh Hw F. unfold loadData. rewrite Hi.
  rewrite (loadData_from_stack im s Hi HF).
  set (s1 := log EvArray (log (EvSeek 0) (set_image (Some (PIL (set_tell 0 im))) s))).
  rewrite (decode_1x1 im 0 HC Hh Hw), HC, Hh, Hw. fold F.
  cbn [Z.of_nat Pos.of_succ_nat Z.eqb Pos.eqb].
  unfold bind at 1, lift. rewrite (fill_first im F) by lia.
  assert (HFn : n_frames im = Z.of_nat F) by lia.
  rewrite HFn.
  destruct (loadData_loop_1x1 im F HC Hh Hw HFn (F - 1) 1 s1)
    as (s' & Hrun & _ & Ht & Hb & Hf & Hsh);
    [lia | lia | reflexivity | reflexivity |].
  change (Z.of_nat 1) with 1 in Hrun.
  unfold bind at 1. rewrite Hrun. exists s'.
  split; [|split; [exact Ht|split; [exact Hb|split; [exact Hf|]]]].
  - assert (E : filled im F F
                = {| shape := [1; 1; F]%nat;
                     data := map (fun f => pixel im f 0 0 0) (seq 0 F) |}).
    { unfold filled. f_equal. apply map_ext_in. intros p Hp. apply in_seq in Hp.
      replace (p <? F)%nat with true by (symmetry; apply Nat.ltb_lt; lia).
      reflexivity. }
    rewrite E. reflexivity.
  - rewrite Hsh. unfold s1. cbn [trace log set_image]. rewrite !shown_app.
    cbn. rewrite !app_nil_r. reflexivity.
Qed.

Lemma loadData_stack_of_1x1_frames_witness :
  exists s',
    loadData (set_image (Some (PIL gray_1x1)) fresh)
    = (Loaded (Some {| shape := [1; 1; 3]%nat; data := [1; 8; 15] |}), s') /\
    current_tell s' = 2.
Proof.
  assert (HF : 1 < n_frames gray_1x1) by reflexivity.
  destruct (loadData_stack_of_1x1_frames gray_1x1
              (set_image (Some (PIL gray_1x1)) fresh)
              eq_refl HF eq_refl eq_refl eq_refl) as (s' & H1 & H2 & _).
  exists s'. split; [exact H1 | exact H2].
Defined.
